(** * Lunaria: an XML-to-Luau transpiler

    A shallow embedding of the Go package [lunaria] (the compiler engine,
    helpers.go and the built-in handlers) together with the properties
    its specification states about it.

    Go strings are byte strings; they are modelled by [string] (a list of
    8-bit [ascii]).  A Go [(string, error)] result is a pair of the output
    and an optional error message.  The compiler pointer [*Compiler] that
    handlers mutate is modelled by explicit state passing: every function
    that receives the pointer returns the compiler it leaves behind.  A
    call that does not return, because [strings.Repeat] panics or the
    runtime does not provide the memory for its result, is the outcome
    [Panic]. *)

From Stdlib Require Import ZArith String Ascii List Lia Bool DecimalString DecimalZ DecimalPos.
From stdpp Require Import gmap strings.
Import ListNotations.
Open Scope string_scope.
Open Scope Z_scope.

(** ** Characters that cannot be written inside a literal *)

Definition nl : string := String "010" EmptyString.
Definition tab : string := String "009" EmptyString.
Definition cr : string := String "013" EmptyString.
Definition dq : string := String "034" EmptyString.
Definition bslash : string := String "092" EmptyString.

(** ** The Go runtime *)

(** Whether the runtime provides a byte slice of [n] bytes.  Where it
    does not, the allocation panics ([makeslice: len out of range], for a
    length above the runtime's [maxAlloc], which is 2^48 on the 64-bit
    platforms) or the process ends (out of memory); in both cases the
    call does not return.  The allocation of [strings.Repeat] is the one
    modelled this way: its size follows the indent counter and not the
    size of the input. *)
Definition maxAlloc : Z := 2 ^ 48.

Class Runtime := {
  allocates : Z -> bool;
  allocates_maxAlloc : forall n, allocates n = true -> n <= maxAlloc }.

(** ** The parts of Go's [strings] package that the program uses *)

Module strings.

Definition code (a : ascii) : N := N_of_ascii a.

Definition is_empty (s : string) : bool :=
  match s with EmptyString => true | String _ _ => false end.

Fixpoint rev_onto (s acc : string) : string :=
  match s with
  | EmptyString => acc
  | String a r => rev_onto r (String a acc)
  end.

Definition rev (s : string) : string := rev_onto s EmptyString.

Fixpoint repeat_nat (s : string) (n : nat) : string :=
  match n with
  | O => EmptyString
  | S k => s +:+ repeat_nat s k
  end.

Definition maxInt : Z := 2 ^ 63 - 1.

(** [strings.Repeat] returns at once for the counts 0 and 1, panics on a
    negative count and when the length of the result overflows [int],
    returns the empty string for an empty [s], and otherwise builds the
    result in a [Builder] that it first grows to the length of the
    result; [None] is a call that does not return. *)
Definition Repeat {rt : Runtime} (s : string) (count : Z) : option string :=
  if count =? 0 then Some EmptyString
  else if count =? 1 then Some s
  else if (count <? 0) || (maxInt <? Z.of_nat (String.length s) * count)
  then None
  else if is_empty s then Some EmptyString
  else if negb (allocates (Z.of_nat (String.length s) * count)) then None
  else Some (repeat_nat s (Z.to_nat count)).

Definition HasPrefix (s p : string) : bool := String.prefix p s.

Definition HasSuffix (s p : string) : bool := String.prefix (rev p) (rev s).

Fixpoint Contains (s sub : string) : bool :=
  String.prefix sub s ||
  match s with
  | EmptyString => false
  | String _ r => Contains r sub
  end.

Definition Join (elems : list string) (sep : string) : string :=
  String.concat sep elems.

(** [strings.Split(s, sep)] for a separator of one byte. *)
Fixpoint Split (s : string) (sep : ascii) : list string :=
  match s with
  | EmptyString => [EmptyString]
  | String a r =>
      if Ascii.eqb a sep then EmptyString :: Split r sep
      else match Split r sep with
           | [] => [String a EmptyString]
           | w :: ws => String a w :: ws
           end
  end.

(** [strings.ReplaceAll(s, old, new)] for an [old] of one byte. *)
Fixpoint ReplaceAll (s : string) (old : ascii) (new : string) : string :=
  match s with
  | EmptyString => EmptyString
  | String a r =>
      if Ascii.eqb a old then new +:+ ReplaceAll r old new
      else String a (ReplaceAll r old new)
  end.

(** The table [asciiSpace]: tab, line feed, vertical tab, form feed,
    carriage return, space. *)
Definition asciiSpace (a : ascii) : bool :=
  ((9 <=? code a) && (code a <=? 13) || (code a =? 32))%N.

(** Length in bytes of the UTF-8 encoding of a rune with
    [unicode.IsSpace] at the head of [s], or 0 when there is none.  The
    runes are the six of [asciiSpace], U+0085, U+00A0, U+1680,
    U+2000..U+200A, U+2028, U+2029, U+202F, U+205F and U+3000. *)
Definition space_rune (s : string) : nat :=
  match s with
  | EmptyString => 0
  | String a r =>
      if asciiSpace a then 1
      else match r with
      | EmptyString => 0
      | String b r' =>
          if ((code a =? 194) && ((code b =? 133) || (code b =? 160)))%N then 2
          else match r' with
          | EmptyString => 0
          | String c _ =>
              if ((code a =? 225) && (code b =? 154) && (code c =? 128)
                  || (code a =? 226) && (code b =? 128)
                     && ((128 <=? code c) && (code c <=? 138)
                         || (code c =? 168) || (code c =? 169) || (code c =? 175))
                  || (code a =? 226) && (code b =? 129) && (code c =? 159)
                  || (code a =? 227) && (code b =? 128) && (code c =? 128))%N
              then 3 else 0
          end
      end
  end.

(** The same for the reversed string: the encoding of a space rune read
    from its last byte backwards, as [utf8.DecodeLastRuneInString]
    finds it. *)
Definition space_rune_rev (s : string) : nat :=
  match s with
  | EmptyString => 0
  | String c r =>
      if asciiSpace c then 1
      else match r with
      | EmptyString => 0
      | String b r' =>
          if ((code b =? 194) && ((code c =? 133) || (code c =? 160)))%N then 2
          else match r' with
          | EmptyString => 0
          | String a _ => match space_rune (String a (String b (String c EmptyString))) with
                          | 3%nat => 3
                          | _ => 0
                          end
          end
      end
  end.

(** Drop [skip] bytes, then every rune recognised by [rune] at the head. *)
Fixpoint drop_while (rune : string -> nat) (skip : nat) (s : string) : string :=
  match skip, s with
  | S k, String _ r => drop_while rune k r
  | S _, EmptyString => EmptyString
  | O, EmptyString => EmptyString
  | O, String _ r =>
      match rune s with
      | O => s
      | S k => drop_while rune k r
      end
  end.

Definition TrimLeftSpace (s : string) : string := drop_while space_rune 0 s.

Definition TrimRightSpace (s : string) : string :=
  rev (drop_while space_rune_rev 0 (rev s)).

(** [strings.TrimSpace]: all leading and trailing Unicode white space
    removed. *)
Definition TrimSpace (s : string) : string := TrimRightSpace (TrimLeftSpace s).

End strings.

(** ** The element tree *)

(** [xml.Name] and [xml.Attr] of encoding/xml. *)
Record xml_Name := { Space : string; Local : string }.
Record xml_Attr := { Name : xml_Name; Value : string }.

(** [type Node struct { XMLName; Attrs; Content; Nodes }].  The induction
    principle that goes through the list of children is [Node_ind] below. *)
#[local] Unset Elimination Schemes.
Inductive Node := mkNode {
  XMLName : xml_Name;
  Attrs : list xml_Attr;
  Content : string;
  Nodes : list Node }.
#[local] Set Elimination Schemes.

Definition tag (s : string) : xml_Name := {| Space := EmptyString; Local := s |}.
Definition attr (k v : string) : xml_Attr := {| Name := tag k; Value := v |}.

(** ** Attribute and literal helpers (helpers.go) *)

Fixpoint lookup_attr (attrs : list xml_Attr) (name : string) : option string :=
  match attrs with
  | [] => None
  | a :: rest => if String.eqb (Local (Name a)) name then Some (Value a)
                 else lookup_attr rest name
  end.

Definition GetAttr (node : Node) (name : string) : string :=
  match lookup_attr (Attrs node) name with
  | Some v => v
  | None => EmptyString
  end.

Definition HasAttr (node : Node) (name : string) : bool :=
  match lookup_attr (Attrs node) name with
  | Some _ => true
  | None => false
  end.

Definition GetAttrWithDefault (node : Node) (name defaultValue : string) : string :=
  let value := GetAttr node name in
  if negb (strings.is_empty value) then value else defaultValue.

Definition GetBoolAttr (node : Node) (name : string) : bool :=
  let value := GetAttr node name in
  String.eqb value "true" || String.eqb value "1" || String.eqb value "yes".

(** The regular expression [\{\{([^}]+)\}\}] of [Interpolate].  A right
    brace is one byte and never part of a longer UTF-8 sequence, so the
    expression is matched on bytes.  [[^}]+] is greedy and cannot step
    over a right brace: the only candidate is the longest run free of it,
    which has to be non-empty and followed by two right braces. *)
Definition close_brace : ascii := "}"%char.

Definition not_close (a : ascii) : bool := negb (Ascii.eqb a close_brace).

Fixpoint span_inner (s : string) : string * string :=
  match s with
  | EmptyString => (EmptyString, EmptyString)
  | String a r =>
      if Ascii.eqb a close_brace then (EmptyString, s)
      else let '(run, rest) := span_inner r in (String a run, rest)
  end.

(** The text matched by the expression at the head of [s], if any. *)
Definition open_brace : ascii := "{"%char.

Definition match_here (s : string) : option string :=
  match s with
  | String a (String b r) =>
      if Ascii.eqb a open_brace && Ascii.eqb b open_brace then
        match span_inner r with
        | (String x run, String c (String d _)) =>
            if Ascii.eqb c close_brace && Ascii.eqb d close_brace
            then Some ("{{" +:+ String x run +:+ "}}")
            else None
        | _ => None
        end
      else None
  | _ => None
  end.

(** [re.ReplaceAllStringFunc(text, f)]: the successive leftmost matches,
    which never overlap, are replaced by [f match]; the rest is copied.
    [skip] counts the bytes of the current match that remain to be
    passed over. *)
Fixpoint ReplaceAllStringFunc (f : string -> string) (skip : nat) (text : string) : string :=
  match text with
  | EmptyString => EmptyString
  | String a r =>
      match skip with
      | S k => ReplaceAllStringFunc f k r
      | O => match match_here text with
             | Some m => f m +:+ ReplaceAllStringFunc f (String.length m - 1) r
             | None => String a (ReplaceAllStringFunc f 0 r)
             end
      end
  end.

(** The callback of [Interpolate]: [match[2 : len(match)-2]], trimmed,
    spliced between a closing and a reopening quote. *)
Definition splice (m : string) : string :=
  let varName := strings.TrimSpace (String.substring 2 (String.length m - 4) m) in
  dq +:+ " .. tostring(" +:+ varName +:+ ") .. " +:+ dq.

Definition Interpolate (text : string) : string :=
  ReplaceAllStringFunc splice 0 text.

Definition EscapeString (s : string) : string :=
  let s := strings.ReplaceAll s "092" (bslash +:+ bslash) in
  let s := strings.ReplaceAll s "034" (bslash +:+ dq) in
  let s := strings.ReplaceAll s "010" (bslash +:+ "n") in
  let s := strings.ReplaceAll s "009" (bslash +:+ "t") in
  let s := strings.ReplaceAll s "013" (bslash +:+ "r") in
  s.

Definition is_alpha_ (c : ascii) : bool :=
  let n := strings.code c in
  ((97 <=? n) && (n <=? 122) || (65 <=? n) && (n <=? 90) || (n =? 95))%N.

Definition is_alnum_ (c : ascii) : bool :=
  let n := strings.code c in
  ((97 <=? n) && (n <=? 122) || (65 <=? n) && (n <=? 90)
   || (48 <=? n) && (n <=? 57) || (n =? 95))%N.

Fixpoint all_bytes (p : ascii -> bool) (s : string) : bool :=
  match s with
  | EmptyString => true
  | String a r => p a && all_bytes p r
  end.

Definition keywords : list string :=
  [ "and"; "break"; "do"; "else"; "elseif"; "end"; "false"; "for";
    "function"; "if"; "in"; "local"; "nil"; "not"; "or"; "repeat";
    "return"; "then"; "true"; "until"; "while" ].

Definition IsValidIdentifier (s : string) : bool :=
  match s with
  | EmptyString => false
  | String first rest =>
      if negb (is_alpha_ first) then false
      else if negb (all_bytes is_alnum_ rest) then false
      else negb (existsb (String.eqb s) keywords)
  end.

Definition IndentLines (text indent : string) : string :=
  if strings.is_empty text then EmptyString
  else
    let lines := strings.Split text "010" in
    strings.Join
      (map (fun line => if negb (strings.is_empty (strings.TrimSpace line))
                        then indent +:+ line else EmptyString) lines)
      nl.

Definition FormatComment (text : string) : string :=
  if strings.is_empty text then EmptyString
  else
    let lines := strings.Split (strings.TrimSpace text) "010" in
    strings.Join
      (map (fun line => let line := strings.TrimSpace line in
                        if negb (strings.is_empty line) then "-- " +:+ line else "--") lines)
      nl.

Definition first_byte (s : string) : option ascii :=
  match s with EmptyString => None | String a _ => Some a end.

Definition last_byte (s : string) : option ascii := first_byte (strings.rev s).

Definition IsStringLiteral (s : string) : bool :=
  let s := strings.TrimSpace s in
  if (String.length s <? 2)%nat then false
  else
    let has c o := match o with Some a => Ascii.eqb a c | None => false end in
    has "034"%char (first_byte s) && has "034"%char (last_byte s)
    || has "'"%char (first_byte s) && has "'"%char (last_byte s)
    || strings.HasPrefix s "[[" && strings.HasSuffix s "]]".

Definition JoinWithCommas (strs : list string) : string :=
  strings.Join
    (List.filter (fun s => negb (strings.is_empty s)) (map strings.TrimSpace strs))
    ", ".

(** ** Compiler state and handlers *)

(** A Go [Handler] is a closure over [*Compiler], and [Compiler] holds a
    map of handlers.  The registry stores a name for each closure instead:
    one constructor per closure that [registerBuiltins] creates, and
    [HCustom id] for a handler registered by a caller, whose behaviour is
    the function [custom id] of the environment below. *)
Inductive Handler :=
| HSet | HIf | HElseif | HElse | HFor | HWhile | HRepeat | HBreak
| HFunction | HCall | HReturn | HArg
| HTable | HEntry | HArray | HItem
| HPrint | HWarn | HError
| HRaw | HComment | HAssert | HTypeof
| HCustom (id : nat).

(** [type Compiler struct { handlers map[string]Handler; indent int }].
    [indent] is a Go [int], 64 bits wide. *)
Record Compiler := mkCompiler {
  handlers : gmap string Handler;
  indent : Z }.

(** What a call that receives the compiler pointer does: it does not
    return ([Panic]: a panic, or an allocation that the runtime does not
    provide), or it returns the pair [(code, err)] and leaves the compiler
    [c] behind. *)
Inductive outcome :=
| Panic
| Return (code : string) (err : option string) (c : Compiler).

(** What the package takes from outside: the runtime, the XML decoder
    ([xml.Unmarshal] into a [Node], or the decoder's error message),
    whether [strconv.Atoi] and [strconv.ParseFloat] accept a string, and
    the handlers that callers register. *)
Class External := {
  runtime :: Runtime;
  xml_Unmarshal : string -> Node + string;
  strconv_Atoi_ok : string -> bool;
  strconv_ParseFloat_ok : string -> bool;
  custom : nat -> Node -> Compiler -> outcome }.

Definition is_builtin (h : Handler) : bool :=
  match h with HCustom _ => false | _ => true end.

(** The block-introducing handlers. *)
Definition is_block (h : Handler) : bool :=
  match h with
  | HIf | HElseif | HElse | HFor | HWhile | HRepeat | HFunction => true
  | _ => false
  end.

(** Go's [int] arithmetic wraps around at 64 bits. *)
Definition wrap_int (z : Z) : Z := (z + 2 ^ 63) mod 2 ^ 64 - 2 ^ 63.

Definition int_range (z : Z) : Prop := - 2 ^ 63 <= z < 2 ^ 63.

(** [compiler.indent++] and [compiler.indent--]. *)
Definition indent_incr (c : Compiler) : Compiler :=
  {| handlers := handlers c; indent := wrap_int (indent c + 1) |}.

Definition indent_decr (c : Compiler) : Compiler :=
  {| handlers := handlers c; indent := wrap_int (indent c - 1) |}.

Definition Register (c : Compiler) (tag : string) (handler : Handler) : Compiler :=
  {| handlers := <[tag := handler]> (handlers c); indent := indent c |}.

Definition getIndent {rt : Runtime} (c : Compiler) : option string :=
  strings.Repeat "    " (indent c).

(** [return code, nil], and the return of an empty output with the error
    [fmt.Errorf(msg)]. *)
Definition ret (code : string) (c : Compiler) : outcome := Return code None c.
Definition fail (msg : string) (c : Compiler) : outcome := Return EmptyString (Some msg) c.

(** A use of [compiler.getIndent()]. *)
Definition with_indent {rt : Runtime} (c : Compiler) (k : string -> outcome) : outcome :=
  match getIndent c with
  | Some ind => k ind
  | None => Panic
  end.

Definition local_prefix (isLocal : bool) : string :=
  if isLocal then "local " else EmptyString.

Section Handlers.

Context {ext : External}.

Definition IsNumberLiteral (s : string) : bool :=
  let s := strings.TrimSpace s in
  if strings.is_empty s then false
  else if strconv_Atoi_ok s then true
  else if strconv_ParseFloat_ok s then true
  else false.

Definition WrapInQuotes (s : string) : string :=
  if IsStringLiteral s || IsNumberLiteral s then s
  else if IsValidIdentifier s || strings.Contains s "(" || strings.Contains s "." then s
  else dq +:+ EscapeString s +:+ dq.

(** [compileNode], which the block handlers call on their children. *)
Variable compileNode : Compiler -> Node -> outcome.

(** The loop that each of the seven block handlers runs over
    [node.Nodes], written out seven times in the source: compile the
    child with [compiler.compileNode]; on an error return an empty output
    and that error from the handler at once; otherwise append a non-empty
    [childCode] and a line feed to [result].  An outcome with an error is
    the handler's early return. *)
Fixpoint compileChildren (children : list Node) (compiler : Compiler) (result : string)
  : outcome :=
  match children with
  | [] => Return result None compiler
  | child :: rest =>
      match compileNode compiler child with
      | Panic => Panic
      | Return _ (Some err) compiler => Return EmptyString (Some err) compiler
      | Return childCode None compiler =>
          compileChildren rest compiler
            (if negb (strings.is_empty childCode) then result +:+ childCode +:+ nl
             else result)
      end
  end.

(** The end of a block handler: what follows the loop when it has run
    to its end. *)
Definition after_children (o : outcome) (k : string -> Compiler -> outcome) : outcome :=
  match o with
  | Panic => Panic
  | Return _ (Some err) compiler => Return EmptyString (Some err) compiler
  | Return result None compiler => k result compiler
  end.

Definition setHandler (node : Node) (compiler : Compiler) : outcome :=
  let varName := GetAttr node "var" in
  if strings.is_empty varName then fail "set command requires 'var' attribute" compiler
  else if negb (IsValidIdentifier varName)
  then fail ("invalid variable name: " +:+ varName) compiler
  else
    let isLocal := GetBoolAttr node "local" in
    let value := strings.TrimSpace (Content node) in
    if strings.is_empty value then fail "set command requires a value" compiler
    else
      with_indent compiler (fun ind =>
        ret (ind +:+ local_prefix isLocal +:+ varName +:+ " = " +:+ value) compiler).

Definition ifHandler (node : Node) (compiler : Compiler) : outcome :=
  let test := GetAttr node "test" in
  if strings.is_empty test then fail "if command requires 'test' attribute" compiler
  else
    with_indent compiler (fun ind =>
      let result := ind +:+ "if " +:+ test +:+ " then" +:+ nl in
      after_children (compileChildren (Nodes node) (indent_incr compiler) result)
        (fun result compiler =>
           let compiler := indent_decr compiler in
           with_indent compiler (fun ind => ret (result +:+ ind +:+ "end") compiler))).

Definition elseifHandler (node : Node) (compiler : Compiler) : outcome :=
  let test := GetAttr node "test" in
  if strings.is_empty test then fail "elseif command requires 'test' attribute" compiler
  else
    with_indent compiler (fun ind =>
      let result := ind +:+ "elseif " +:+ test +:+ " then" +:+ nl in
      after_children (compileChildren (Nodes node) (indent_incr compiler) result)
        (fun result compiler => ret result (indent_decr compiler))).

Definition elseHandler (node : Node) (compiler : Compiler) : outcome :=
  with_indent compiler (fun ind =>
    let result := ind +:+ "else" +:+ nl in
    after_children (compileChildren (Nodes node) (indent_incr compiler) result)
      (fun result compiler => ret result (indent_decr compiler))).

Definition forHandler (node : Node) (compiler : Compiler) : outcome :=
  let varName := GetAttr node "var" in
  let from := GetAttr node "from" in
  let to := GetAttr node "to" in
  let step := GetAttrWithDefault node "step" "1" in
  if strings.is_empty varName then fail "for command requires 'var' attribute" compiler
  else if negb (IsValidIdentifier varName)
  then fail ("invalid variable name: " +:+ varName) compiler
  else
    let body (result : string) : outcome :=
      after_children (compileChildren (Nodes node) (indent_incr compiler) result)
        (fun result compiler =>
           let compiler := indent_decr compiler in
           with_indent compiler (fun ind => ret (result +:+ ind +:+ "end") compiler)) in
    if negb (strings.is_empty from) && negb (strings.is_empty to) then
      if negb (String.eqb step "1") then
        with_indent compiler (fun ind =>
          body (ind +:+ "for " +:+ varName +:+ " = " +:+ from +:+ ", " +:+ to
                +:+ ", " +:+ step +:+ " do" +:+ nl))
      else
        with_indent compiler (fun ind =>
          body (ind +:+ "for " +:+ varName +:+ " = " +:+ from +:+ ", " +:+ to
                +:+ " do" +:+ nl))
    else
      let iterator := GetAttr node "in" in
      if strings.is_empty iterator
      then fail "for command requires either 'from'/'to' or 'in' attributes" compiler
      else
        with_indent compiler (fun ind =>
          body (ind +:+ "for " +:+ varName +:+ " in " +:+ iterator +:+ " do" +:+ nl)).

Definition whileHandler (node : Node) (compiler : Compiler) : outcome :=
  let test := GetAttr node "test" in
  if strings.is_empty test then fail "while command requires 'test' attribute" compiler
  else
    with_indent compiler (fun ind =>
      let result := ind +:+ "while " +:+ test +:+ " do" +:+ nl in
      after_children (compileChildren (Nodes node) (indent_incr compiler) result)
        (fun result compiler =>
           let compiler := indent_decr compiler in
           with_indent compiler (fun ind => ret (result +:+ ind +:+ "end") compiler))).

Definition repeatHandler (node : Node) (compiler : Compiler) : outcome :=
  let until := GetAttr node "until" in
  if strings.is_empty until then fail "repeat command requires 'until' attribute" compiler
  else
    with_indent compiler (fun ind =>
      let result := ind +:+ "repeat" +:+ nl in
      after_children (compileChildren (Nodes node) (indent_incr compiler) result)
        (fun result compiler =>
           let compiler := indent_decr compiler in
           with_indent compiler (fun ind =>
             ret (result +:+ ind +:+ "until " +:+ until) compiler))).

Definition breakHandler (node : Node) (compiler : Compiler) : outcome :=
  with_indent compiler (fun ind => ret (ind +:+ "break") compiler).

Definition functionHandler (node : Node) (compiler : Compiler) : outcome :=
  let name := GetAttr node "name" in
  let params := GetAttrWithDefault node "params" EmptyString in
  let isLocal := GetBoolAttr node "local" in
  if strings.is_empty name then fail "function command requires 'name' attribute" compiler
  else if negb (IsValidIdentifier name)
  then fail ("invalid function name: " +:+ name) compiler
  else
    with_indent compiler (fun ind =>
      let result := ind +:+ local_prefix isLocal +:+ "function " +:+ name
                    +:+ "(" +:+ params +:+ ")" +:+ nl in
      after_children (compileChildren (Nodes node) (indent_incr compiler) result)
        (fun result compiler =>
           let compiler := indent_decr compiler in
           with_indent compiler (fun ind => ret (result +:+ ind +:+ "end") compiler))).

End Handlers.

Section LeafHandlers.

Context {ext : External}.

(** The trimmed contents of the children with the tag [name], empty
    ones left out ([arg] under [call], [item] under [array]). *)
Fixpoint child_values (name : string) (children : list Node) : list string :=
  match children with
  | [] => []
  | child :: rest =>
      if String.eqb (Local (XMLName child)) name then
        let value := strings.TrimSpace (Content child) in
        if negb (strings.is_empty value) then value :: child_values name rest
        else child_values name rest
      else child_values name rest
  end.

Definition inline_value (content : string) : list string :=
  if negb (strings.is_empty content) then [content] else [].

Definition callHandler (node : Node) (compiler : Compiler) : outcome :=
  let name := GetAttr node "name" in
  if strings.is_empty name then fail "call command requires 'name' attribute" compiler
  else
    let content := strings.TrimSpace (Content node) in
    let args := (inline_value content ++ child_values "arg" (Nodes node))%list in
    let argsStr := JoinWithCommas args in
    with_indent compiler (fun ind =>
      ret (ind +:+ name +:+ "(" +:+ argsStr +:+ ")") compiler).

Definition returnHandler (node : Node) (compiler : Compiler) : outcome :=
  let content := strings.TrimSpace (Content node) in
  if strings.is_empty content
  then with_indent compiler (fun ind => ret (ind +:+ "return") compiler)
  else with_indent compiler (fun ind => ret (ind +:+ "return " +:+ content) compiler).

(** [arg], [entry] and [item] are read by their parent. *)
Definition argHandler (node : Node) (compiler : Compiler) : outcome :=
  ret EmptyString compiler.

Definition entryHandler (node : Node) (compiler : Compiler) : outcome :=
  ret EmptyString compiler.

Definition itemHandler (node : Node) (compiler : Compiler) : outcome :=
  ret EmptyString compiler.

(** Whether the loop of the [table] handler writes a field for [child]:
    its tag is [entry], and its key and its trimmed content are both
    non-empty. *)
Definition writes_field (child : Node) : bool :=
  String.eqb (Local (XMLName child)) "entry"
  && (negb (strings.is_empty (GetAttr child "key"))
      && negb (strings.is_empty (strings.TrimSpace (Content child)))).

(** The field written for a child that passes the test. *)
Definition table_field (ind : string) (child : Node) : string :=
  let key := GetAttr child "key" in
  let value := strings.TrimSpace (Content child) in
  if IsValidIdentifier key
  then ind +:+ key +:+ " = " +:+ value +:+ "," +:+ nl
  else ind +:+ "[" +:+ WrapInQuotes key +:+ "] = " +:+ value +:+ "," +:+ nl.

(** The loop over [node.Nodes] of the [table] handler, the same in its
    two branches; [None] is a call of [getIndent] that does not return. *)
Fixpoint tableEntries (children : list Node) (compiler : Compiler) (result : string)
  : option string :=
  match children with
  | [] => Some result
  | child :: rest =>
      if String.eqb (Local (XMLName child)) "entry" then
        let key := GetAttr child "key" in
        let value := strings.TrimSpace (Content child) in
        if negb (strings.is_empty key) && negb (strings.is_empty value) then
          match getIndent compiler with
          | None => None
          | Some ind => tableEntries rest compiler (result +:+ table_field ind child)
          end
        else tableEntries rest compiler result
      else tableEntries rest compiler result
  end.

Definition tableHandler (node : Node) (compiler : Compiler) : outcome :=
  let varName := GetAttr node "var" in
  let isLocal := GetBoolAttr node "local" in
  let prefix := local_prefix isLocal in
  if negb (strings.is_empty varName) then
    if negb (IsValidIdentifier varName)
    then fail ("invalid variable name: " +:+ varName) compiler
    else
      with_indent compiler (fun ind =>
        let result := ind +:+ prefix +:+ varName +:+ " = {" +:+ nl in
        let compiler := indent_incr compiler in
        match tableEntries (Nodes node) compiler result with
        | None => Panic
        | Some result =>
            let compiler := indent_decr compiler in
            with_indent compiler (fun ind => ret (result +:+ ind +:+ "}") compiler)
        end)
  else
    let result := "{" +:+ nl in
    let compiler := indent_incr compiler in
    match tableEntries (Nodes node) compiler result with
    | None => Panic
    | Some result =>
        let compiler := indent_decr compiler in
        with_indent compiler (fun ind => ret (result +:+ ind +:+ "}") compiler)
    end.

Definition arrayHandler (node : Node) (compiler : Compiler) : outcome :=
  let varName := GetAttr node "var" in
  let isLocal := GetBoolAttr node "local" in
  let prefix := local_prefix isLocal in
  let content := strings.TrimSpace (Content node) in
  let values := (inline_value content ++ child_values "item" (Nodes node))%list in
  let arrayContent := JoinWithCommas values in
  if negb (strings.is_empty varName) then
    if negb (IsValidIdentifier varName)
    then fail ("invalid variable name: " +:+ varName) compiler
    else
      with_indent compiler (fun ind =>
        ret (ind +:+ prefix +:+ varName +:+ " = {" +:+ arrayContent +:+ "}") compiler)
  else ret ("{" +:+ arrayContent +:+ "}") compiler.

Definition printHandler (node : Node) (compiler : Compiler) : outcome :=
  let content := strings.TrimSpace (Content node) in
  if strings.is_empty content then fail "print command requires content" compiler
  else if strings.Contains content "{{" then
    let interpolated := Interpolate content in
    with_indent compiler (fun ind =>
      ret (ind +:+ "print(" +:+ dq +:+ interpolated +:+ dq +:+ ")") compiler)
  else
    with_indent compiler (fun ind => ret (ind +:+ "print(" +:+ content +:+ ")") compiler).

Definition warnHandler (node : Node) (compiler : Compiler) : outcome :=
  let content := strings.TrimSpace (Content node) in
  if strings.is_empty content then fail "warn command requires content" compiler
  else if strings.Contains content "{{" then
    let interpolated := Interpolate content in
    with_indent compiler (fun ind =>
      ret (ind +:+ "warn(" +:+ dq +:+ interpolated +:+ dq +:+ ")") compiler)
  else
    with_indent compiler (fun ind => ret (ind +:+ "warn(" +:+ content +:+ ")") compiler).

Definition errorHandler (node : Node) (compiler : Compiler) : outcome :=
  let content := strings.TrimSpace (Content node) in
  if strings.is_empty content then fail "error command requires content" compiler
  else
    let level := GetAttrWithDefault node "level" "1" in
    if strings.Contains content "{{" then
      let interpolated := Interpolate content in
      with_indent compiler (fun ind =>
        ret (ind +:+ "error(" +:+ dq +:+ interpolated +:+ dq +:+ ", " +:+ level +:+ ")")
            compiler)
    else
      with_indent compiler (fun ind =>
        ret (ind +:+ "error(" +:+ content +:+ ", " +:+ level +:+ ")") compiler).

Definition rawHandler (node : Node) (compiler : Compiler) : outcome :=
  let content := strings.TrimSpace (Content node) in
  if strings.is_empty content then ret EmptyString compiler
  else with_indent compiler (fun ind => ret (IndentLines content ind) compiler).

Definition commentHandler (node : Node) (compiler : Compiler) : outcome :=
  let content := strings.TrimSpace (Content node) in
  if strings.is_empty content then ret EmptyString compiler
  else
    let comment := FormatComment content in
    with_indent compiler (fun ind => ret (IndentLines comment ind) compiler).

Definition assertHandler (node : Node) (compiler : Compiler) : outcome :=
  let condition := GetAttr node "test" in
  if strings.is_empty condition then fail "assert command requires 'test' attribute" compiler
  else
    let message := strings.TrimSpace (Content node) in
    if negb (strings.is_empty message) then
      with_indent compiler (fun ind =>
        ret (ind +:+ "assert(" +:+ condition +:+ ", " +:+ WrapInQuotes message +:+ ")")
            compiler)
    else
      with_indent compiler (fun ind => ret (ind +:+ "assert(" +:+ condition +:+ ")") compiler).

Definition typeofHandler (node : Node) (compiler : Compiler) : outcome :=
  let varName := GetAttr node "var" in
  let value := strings.TrimSpace (Content node) in
  if strings.is_empty varName && strings.is_empty value
  then fail "typeof command requires either 'var' attribute or content" compiler
  else if negb (strings.is_empty varName) then
    if negb (IsValidIdentifier varName)
    then fail ("invalid variable name: " +:+ varName) compiler
    else
      let isLocal := GetBoolAttr node "local" in
      let expr := value in
      if strings.is_empty expr then fail "typeof command with 'var' requires content" compiler
      else
        with_indent compiler (fun ind =>
          ret (ind +:+ local_prefix isLocal +:+ varName +:+ " = typeof(" +:+ expr +:+ ")")
              compiler)
  else ret ("typeof(" +:+ value +:+ ")") compiler.

End LeafHandlers.

Section Engine.

Context {ext : External}.

(** Calling the closure that a registry entry stands for. *)
Definition run_handler (compileNode : Compiler -> Node -> outcome)
    (h : Handler) (node : Node) (compiler : Compiler) : outcome :=
  match h with
  | HSet => setHandler node compiler
  | HIf => ifHandler compileNode node compiler
  | HElseif => elseifHandler compileNode node compiler
  | HElse => elseHandler compileNode node compiler
  | HFor => forHandler compileNode node compiler
  | HWhile => whileHandler compileNode node compiler
  | HRepeat => repeatHandler compileNode node compiler
  | HBreak => breakHandler node compiler
  | HFunction => functionHandler compileNode node compiler
  | HCall => callHandler node compiler
  | HReturn => returnHandler node compiler
  | HArg => argHandler node compiler
  | HTable => tableHandler node compiler
  | HEntry => entryHandler node compiler
  | HArray => arrayHandler node compiler
  | HItem => itemHandler node compiler
  | HPrint => printHandler node compiler
  | HWarn => warnHandler node compiler
  | HError => errorHandler node compiler
  | HRaw => rawHandler node compiler
  | HComment => commentHandler node compiler
  | HAssert => assertHandler node compiler
  | HTypeof => typeofHandler node compiler
  | HCustom id => custom id node compiler
  end.

(** The body of [compileNode], open in its recursive call. *)
Definition compileNode_body (compileNode : Compiler -> Node -> outcome)
    (c : Compiler) (node : Node) : outcome :=
  if strings.is_empty (Local (XMLName node)) then
    let content := strings.TrimSpace (Content node) in
    if strings.is_empty content then ret EmptyString c
    else fail ("unexpected text content: " +:+ content) c
  else
    match handlers c !! Local (XMLName node) with
    | None => fail ("unknown tag: " +:+ Local (XMLName node)) c
    | Some handler => run_handler compileNode handler node c
    end.

Fixpoint compileNode (c : Compiler) (node : Node) {struct node} : outcome :=
  compileNode_body compileNode c node.

(** The loop of [CompileFromString] over the children of a [script]
    root; [results] is the slice it appends to. *)
Fixpoint compileScript (c : Compiler) (children : list Node) (results : list string)
  : outcome :=
  match children with
  | [] => Return (strings.Join results nl) None c
  | child :: rest =>
      match compileNode c child with
      | Panic => Panic
      | Return _ (Some err) c => Return EmptyString (Some err) c
      | Return code None c =>
          compileScript c rest
            (if negb (strings.is_empty code) then (results ++ [code])%list else results)
      end
  end.

Definition CompileFromString (c : Compiler) (s : string) : outcome :=
  match xml_Unmarshal s with
  | inr err => fail ("XML parse error: " +:+ err) c
  | inl root =>
      if String.eqb (Local (XMLName root)) "script"
      then compileScript c (Nodes root) []
      else compileNode c root
  end.

(** [CompileString] runs on the package's [defaultCompiler], a global
    that is passed in and out here. *)
Definition CompileString (defaultCompiler : Compiler) (s : string) : outcome :=
  CompileFromString defaultCompiler s.

End Engine.

(** ** The built-in registry *)

Definition registerVariableCommands (c : Compiler) : Compiler :=
  Register c "set" HSet.

Definition registerControlFlowCommands (c : Compiler) : Compiler :=
  let c := Register c "if" HIf in
  let c := Register c "elseif" HElseif in
  let c := Register c "else" HElse in
  let c := Register c "for" HFor in
  let c := Register c "while" HWhile in
  let c := Register c "repeat" HRepeat in
  Register c "break" HBreak.

Definition registerFunctionCommands (c : Compiler) : Compiler :=
  let c := Register c "function" HFunction in
  let c := Register c "call" HCall in
  let c := Register c "return" HReturn in
  Register c "arg" HArg.

Definition registerDataCommands (c : Compiler) : Compiler :=
  let c := Register c "table" HTable in
  let c := Register c "entry" HEntry in
  let c := Register c "array" HArray in
  Register c "item" HItem.

Definition registerIOCommands (c : Compiler) : Compiler :=
  let c := Register c "print" HPrint in
  let c := Register c "warn" HWarn in
  Register c "error" HError.

Definition registerUtilityCommands (c : Compiler) : Compiler :=
  let c := Register c "raw" HRaw in
  let c := Register c "comment" HComment in
  let c := Register c "assert" HAssert in
  Register c "typeof" HTypeof.

Definition registerBuiltins (c : Compiler) : Compiler :=
  let c := registerVariableCommands c in
  let c := registerControlFlowCommands c in
  let c := registerFunctionCommands c in
  let c := registerDataCommands c in
  let c := registerIOCommands c in
  registerUtilityCommands c.

Definition NewCompiler : Compiler :=
  registerBuiltins {| handlers := ∅; indent := 0 |}.

(** ** Predicates used in the statements *)

(** Every handler of the registry is one of the package's own. *)
Definition builtin_only (c : Compiler) : Prop :=
  forall t h, handlers c !! t = Some h -> is_builtin h = true.

(** The indent counter holds a value of Go's [int]. *)
Definition int_ok (c : Compiler) : Prop := int_range (indent c).

(** Go's convention for [(string, error)]: an error comes with an empty
    output.  The built-in handlers follow it; this says that the handlers
    registered by callers do too. *)
Definition custom_conforms {ext : External} : Prop :=
  forall id node c code e c',
    custom id node c = Return code (Some e) c' -> code = EmptyString.

(** What a call leaves behind: the registry is the one before the call,
    the counter is an [int], and a call that returns no error leaves the
    compiler as it was. *)
Definition frame (c : Compiler) (o : outcome) : Prop :=
  match o with
  | Panic => True
  | Return _ err c' =>
      handlers c' = handlers c /\ int_ok c' /\ (err = None -> c' = c)
  end.

(** An outcome that follows the convention. *)
Definition conv (o : outcome) : Prop :=
  match o with
  | Return code (Some _) _ => code = EmptyString
  | _ => True
  end.

(** Two calls that both return, return the same error (or none). *)
Definition agrees (o1 o2 : outcome) : Prop :=
  match o1, o2 with
  | Return _ e1 _, Return _ e2 _ => e1 = e2
  | _, _ => True
  end.

(** A caller-registered handler that is pure in the sense of the
    specification: it keeps the registry, leaves the compiler as it found
    it when it succeeds, whether it fails (and with what error) does not
    depend on the indent counter, and it follows the convention. *)
Definition pure_custom {ext : External} (id : nat) : Prop :=
  (forall node c, int_ok c -> frame c (custom id node c)) /\
  (forall node c1 c2, handlers c1 = handlers c2 -> int_ok c1 -> int_ok c2 ->
     agrees (custom id node c1) (custom id node c2)) /\
  (forall node c, conv (custom id node c)).

(** Every caller-registered handler of the registry is pure. *)
Definition registry_ok {ext : External} (c : Compiler) : Prop :=
  forall t id, handlers c !! t = Some (HCustom id) -> pure_custom id.

(** [children] are compiled one after the other from [c], each without
    error, giving [codes] and leaving [c'] behind. *)
Inductive compiled_in_order {ext : External} : Compiler -> list Node -> list string -> Compiler -> Prop :=
| cio_nil c : compiled_in_order c [] [] c
| cio_cons c child code c1 rest codes c' :
    compileNode c child = Return code None c1 ->
    compiled_in_order c1 rest codes c' ->
    compiled_in_order c (child :: rest) (code :: codes) c'.

(** The non-empty strings of a list, in order. *)
Definition non_empty (codes : list string) : list string :=
  List.filter (fun s => negb (strings.is_empty s)) codes.

(** The output of an outcome (empty for a panic, which returns nothing). *)
Definition output (o : outcome) : string :=
  match o with
  | Panic => EmptyString
  | Return code _ _ => code
  end.

(** No substring of [s] has the form of a placeholder: two left braces,
    one or more bytes other than a right brace, two right braces. *)
Definition placeholder_free (s : string) : Prop :=
  forall pre inner post,
    inner <> EmptyString ->
    all_bytes not_close inner = true ->
    s <> pre +:+ "{{" +:+ inner +:+ "}}" +:+ post.

(** No placeholder starts at the first byte of [s]. *)
Definition no_placeholder_here (s : string) : Prop :=
  forall inner post,
    inner <> EmptyString ->
    all_bytes not_close inner = true ->
    s <> "{{" +:+ inner +:+ "}}" +:+ post.

(** The node with other children, and with other attributes. *)
Definition with_children (node : Node) (children : list Node) : Node :=
  mkNode (XMLName node) (Attrs node) (Content node) children.


(** The first error of a walk over [node] from [c], depth first and in
    document order: [e] is the error of the node itself, returned
    whatever its children are (so before any of them is looked at) and
    leaving the compiler as it was; or it is the error of a handler that
    a caller registered for the node; or it is the first error of the
    walk over a child, the children before that one having compiled
    without error, one level deeper, and the children after it not
    mattering: with any others there, the outcome is the same.  [c'] is
    the compiler that the walk leaves behind. *)
Inductive first_failure {ext : External} : Compiler -> Node -> string -> Compiler -> Prop :=
| ff_self c node e :
    (forall children,
       compileNode c (with_children node children) = Return EmptyString (Some e) c) ->
    first_failure c node e c
| ff_custom c node id code e c' :
    Local (XMLName node) <> EmptyString ->
    handlers c !! Local (XMLName node) = Some (HCustom id) ->
    custom id node c = Return code (Some e) c' ->
    first_failure c node e c'
| ff_child c node pre child post codes ck e c' :
    Nodes node = (pre ++ child :: post)%list ->
    compiled_in_order (indent_incr c) pre codes ck ->
    first_failure ck child e c' ->
    (forall post',
       compileNode c (with_children node (pre ++ child :: post')%list)
       = Return EmptyString (Some e) c') ->
    first_failure c node e c'.

(** The first error of the compilation of a document: the error of the
    decoder; or the first error of the walk over a root that is not a
    [script]; or, for a [script] root, the first error of the walk over
    one of its children, the children before it having compiled without
    error and the children after it not mattering. *)
Inductive document_failure {ext : External} (c : Compiler) (s e : string) (c' : Compiler)
  : Prop :=
| df_decoder err :
    xml_Unmarshal s = inr err -> e = "XML parse error: " +:+ err -> c' = c ->
    document_failure c s e c'
| df_root root :
    xml_Unmarshal s = inl root -> Local (XMLName root) <> "script" ->
    first_failure c root e c' ->
    document_failure c s e c'
| df_script root pre child post codes ck :
    xml_Unmarshal s = inl root -> Local (XMLName root) = "script" ->
    Nodes root = (pre ++ child :: post)%list ->
    compiled_in_order c pre codes ck ->
    first_failure ck child e c' ->
    (forall s' root' post',
       xml_Unmarshal s' = inl root' -> Local (XMLName root') = "script" ->
       Nodes root' = (pre ++ child :: post')%list ->
       CompileFromString c s' = Return EmptyString (Some e) c') ->
    document_failure c s e c'.

(** The fields of a table literal as the specification has them: one for
    each child that is an [entry] with a non-empty key and a non-empty
    content, in document order. *)
Definition table_fields {ext : External} (ind : string) (children : list Node) : string :=
  fold_right (fun child rest => table_field ind child +:+ rest) EmptyString
    (List.filter writes_field children).


(** ** The remaining helpers (helpers.go) *)

(** A [for ... range] over a Go string decodes UTF-8.  [utf8_width s] is
    the number of bytes of the well-formed encoding at the head of [s],
    as [utf8.DecodeRuneInString] accepts it, and 0 where the loop yields
    [utf8.RuneError] for one byte. *)
Definition byte_in (lo hi : N) (a : ascii) : bool :=
  ((lo <=? strings.code a) && (strings.code a <=? hi))%N.

Definition utf8_width (s : string) : nat :=
  match s with
  | EmptyString => 0
  | String a r =>
      let n := strings.code a in
      if (n <? 128)%N then 1
      else if byte_in 194 223 a then
        match r with
        | String b _ => if byte_in 128 191 b then 2 else 0
        | _ => 0
        end
      else if byte_in 224 239 a then
        match r with
        | String b (String c _) =>
            let lo := if (n =? 224)%N then 160%N else 128%N in
            let hi := if (n =? 237)%N then 159%N else 191%N in
            if byte_in lo hi b && byte_in 128 191 c then 3 else 0
        | _ => 0
        end
      else if byte_in 240 244 a then
        match r with
        | String b (String c (String d _)) =>
            let lo := if (n =? 240)%N then 144%N else 128%N in
            let hi := if (n =? 244)%N then 143%N else 191%N in
            if byte_in lo hi b && byte_in 128 191 c && byte_in 128 191 d then 4 else 0
        | _ => 0
        end
      else 0
  end.

(** The encoding of U+FFFD, which [WriteRune] writes for [utf8.RuneError]. *)
Definition replacement_char : string :=
  String "239" (String "191" (String "189" EmptyString)).

(** The local variables of [SplitParameters]. *)
Record splitter := mkSplitter {
  sp_result : list string;
  sp_current : string;
  sp_inString : bool;
  sp_stringChar : ascii;
  sp_depth : Z }.

Definition sp_write (text : string) (st : splitter) : splitter :=
  mkSplitter (sp_result st) (sp_current st +:+ text) (sp_inString st)
    (sp_stringChar st) (sp_depth st).

Definition sp_byte (a : ascii) : string := String a EmptyString.

Definition is_quote (a : ascii) : bool :=
  Ascii.eqb a "034" || Ascii.eqb a "'".

Definition is_opening (a : ascii) : bool :=
  Ascii.eqb a "(" || Ascii.eqb a "[" || Ascii.eqb a "{".

Definition is_closing (a : ascii) : bool :=
  Ascii.eqb a ")" || Ascii.eqb a "]" || Ascii.eqb a "}".

(** [param := strings.TrimSpace(current.String())], appended when it is
    not empty. *)
Definition sp_flush (st : splitter) : list string :=
  let param := strings.TrimSpace (sp_current st) in
  if negb (strings.is_empty param) then (sp_result st ++ [param])%list
  else sp_result st.

(** The [switch] of the loop, for a rune of one byte. *)
Definition sp_step (a : ascii) (st : splitter) : splitter :=
  if is_quote a then
    sp_write (sp_byte a)
      (if negb (sp_inString st)
       then mkSplitter (sp_result st) (sp_current st) true a (sp_depth st)
       else if Ascii.eqb a (sp_stringChar st)
       then mkSplitter (sp_result st) (sp_current st) false (sp_stringChar st) (sp_depth st)
       else st)
  else if is_opening a then
    sp_write (sp_byte a)
      (if negb (sp_inString st)
       then mkSplitter (sp_result st) (sp_current st) (sp_inString st) (sp_stringChar st)
              (wrap_int (sp_depth st + 1))
       else st)
  else if is_closing a then
    sp_write (sp_byte a)
      (if negb (sp_inString st)
       then mkSplitter (sp_result st) (sp_current st) (sp_inString st) (sp_stringChar st)
              (wrap_int (sp_depth st - 1))
       else st)
  else if Ascii.eqb a "," then
    if negb (sp_inString st) && (sp_depth st =? 0)
    then mkSplitter (sp_flush st) EmptyString (sp_inString st) (sp_stringChar st)
           (sp_depth st)
    else sp_write (sp_byte a) st
  else sp_write (sp_byte a) st.

(** The loop over the runes of [params]; [skip] counts the bytes of the
    current rune that remain to be copied. *)
Fixpoint sp_loop (skip : nat) (params : string) (st : splitter) : splitter :=
  match params with
  | EmptyString => st
  | String a r =>
      match skip with
      | S k => sp_loop k r (sp_write (sp_byte a) st)
      | O =>
          if (strings.code a <? 128)%N then sp_loop 0 r (sp_step a st)
          else match utf8_width params with
               | O => sp_loop 0 r (sp_write replacement_char st)
               | S k => sp_loop k r (sp_write (sp_byte a) st)
               end
      end
  end.

Definition SplitParameters (params : string) : list string :=
  if strings.is_empty params then []
  else sp_flush (sp_loop 0 params (mkSplitter [] EmptyString false "000" 0)).

(** [strconv.Itoa]: the decimal digits, after a minus sign for a negative
    number. *)
Definition strconv_Itoa (i : Z) : string := NilZero.string_of_int (Z.to_int i).

Definition GenerateVariableName (prefix : string) (counter : Z) : string :=
  let prefix := if strings.is_empty prefix then "var" else prefix in
  prefix +:+ strconv_Itoa counter.

(** The class [\s] of Go's regular expressions: tab, line feed, form
    feed, carriage return and space (not the vertical tab). *)
Definition re_space (a : ascii) : bool :=
  let n := strings.code a in
  ((n =? 9) || (n =? 10) || (n =? 12) || (n =? 13) || (n =? 32))%N.

(** [re.ReplaceAllString(s, " ")] for the expression [\s+]: every maximal
    run of [\s] becomes one space.  [in_run] says that the byte before
    was part of a run. *)
Fixpoint collapse_spaces (in_run : bool) (s : string) : string :=
  match s with
  | EmptyString => EmptyString
  | String a r =>
      if re_space a then
        if in_run then collapse_spaces true r
        else String " " (collapse_spaces true r)
      else String a (collapse_spaces false r)
  end.

Definition TrimAndClean (s : string) : string :=
  strings.TrimSpace (collapse_spaces false s).

(** ** More notions used in the statements *)

(** What [EscapeString] makes of one byte. *)
Definition escape_byte (a : ascii) : string :=
  if Ascii.eqb a "092" then bslash +:+ bslash
  else if Ascii.eqb a "034" then bslash +:+ dq
  else if Ascii.eqb a "010" then bslash +:+ "n"
  else if Ascii.eqb a "009" then bslash +:+ "t"
  else if Ascii.eqb a "013" then bslash +:+ "r"
  else String a EmptyString.

Fixpoint escape_bytes (s : string) : string :=
  match s with
  | EmptyString => EmptyString
  | String a r => escape_byte a +:+ escape_bytes r
  end.

(** A line feed, tab or carriage return. *)
Definition raw_control (a : ascii) : bool :=
  Ascii.eqb a "010" || Ascii.eqb a "009" || Ascii.eqb a "013".

(** The number of levels of children below a node. *)
Fixpoint height (node : Node) : nat :=
  match node with
  | mkNode _ _ _ children =>
      fold_right (fun child h => Nat.max (S (height child)) h) 0%nat children
  end.

(** The lines that the loop of a block handler appends for the outputs of
    its children: each non-empty output and a line feed. *)
Definition block_lines (codes : list string) : string :=
  fold_right (fun code rest => code +:+ nl +:+ rest) EmptyString (non_empty codes).

(** An ASCII byte that is not white space. *)
Definition ascii_visible (a : ascii) : bool :=
  (strings.code a <? 128)%N && negb (strings.asciiSpace a).

(** A byte that can belong to the encoding of a white-space rune. *)
Definition space_part (a : ascii) : bool :=
  strings.asciiSpace a || (128 <=? strings.code a)%N.

Definition line_feed : ascii := "010"%char.

Definition no_line_feed (s : string) : bool :=
  all_bytes (fun a => negb (Ascii.eqb a line_feed)) s.

(** The lines of a text. *)
Definition lines_of (s : string) : list string := strings.Split s line_feed.

(** What [IndentLines] makes of one line, and [FormatComment]. *)
Definition indent_line (indent line : string) : string :=
  if negb (strings.is_empty (strings.TrimSpace line)) then indent +:+ line
  else EmptyString.

Definition comment_line (line : string) : string :=
  let line := strings.TrimSpace line in
  if negb (strings.is_empty line) then "-- " +:+ line else "--".

(** A recogniser of runes that only accepts bytes of white-space runes,
    as many as it says. *)
Definition rune_sound (rune : string -> nat) : Prop :=
  forall s n, rune s = S n ->
    exists x y, s = x +:+ y /\ String.length x = S n /\ all_bytes space_part x = true.

(** The compiler that an outcome leaves behind is [c]. *)
Definition keeps (c : Compiler) (o : outcome) : Prop :=
  match o with
  | Panic => True
  | Return _ _ c' => c' = c
  end.

(** The indent that a call leaves behind is that of [c], raised by at
    most [n]. *)
Definition raised_by (n : nat) (c : Compiler) (o : outcome) : Prop :=
  match o with
  | Panic => True
  | Return _ err c' =>
      indent c <= indent c' <= indent c + Z.of_nat n
      /\ (err <> None \/ indent c' = indent c)
  end.


(** The tags that [registerBuiltins] registers. *)
Definition builtin_tags : list string :=
  [ "set"; "if"; "elseif"; "else"; "for"; "while"; "repeat"; "break";
    "function"; "call"; "return"; "arg"; "table"; "entry"; "array"; "item";
    "print"; "warn"; "error"; "raw"; "comment"; "assert"; "typeof" ].

(** A call on [node] raises the indent by at most the height of [node]. *)
Definition bounded (rec : Compiler -> Node -> outcome) (node : Node) : Prop :=
  forall c, int_ok c -> builtin_only c -> raised_by (height node) c (rec c node).


(** The values that [call] and [array] read: the content of the element
    and the contents of its children with the tag [name], trimmed, those
    that are then empty left out. *)
Definition named (name : string) (child : Node) : bool :=
  String.eqb (Local (XMLName child)) name.

Definition values_of (name : string) (node : Node) : list string :=
  non_empty (map strings.TrimSpace
               (Content node :: map Content (List.filter (named name) (Nodes node)))).

(** A parameter as [SplitParameters] returns it: not empty, without
    white space at its ends. *)
Definition trimmed_param (p : string) : Prop :=
  p <> EmptyString /\ strings.TrimSpace p = p.

(** A visible ASCII byte that is no comma, quote or bracket, and a
    non-empty string of such bytes. *)
Definition plain_byte (a : ascii) : bool :=
  ascii_visible a
  && negb (is_quote a || is_opening a || is_closing a || Ascii.eqb a ",").

Definition plain (s : string) : Prop :=
  s <> EmptyString /\ all_bytes plain_byte s = true.

(** A decimal digit, and a letter. *)
Definition is_digit (a : ascii) : bool :=
  ((48 <=? strings.code a) && (strings.code a <=? 57))%N.

Definition is_letter (a : ascii) : bool :=
  let n := strings.code a in
  ((97 <=? n) && (n <=? 122) || (65 <=? n) && (n <=? 90))%N.

(** No byte of [s] is a tab, line feed, form feed or carriage return. *)
Definition no_control_space (s : string) : bool :=
  all_bytes (fun a => negb (re_space a) || Ascii.eqb a " ") s.

(** No two spaces of [s] are adjacent. *)
Definition single_spaced (s : string) : Prop :=
  forall x y, s <> x +:+ "  " +:+ y.

(** ** Concrete inputs used below *)

Definition el (name : string) (attrs : list xml_Attr) (content : string)
    (children : list Node) : Node :=
  mkNode (tag name) attrs content children.

Definition digits_only (s : string) : bool :=
  negb (strings.is_empty s)
  && all_bytes (fun a => (48 <=? strings.code a)%N && (strings.code a <=? 57)%N) s.

Definition break_node : Node := el "break" [] EmptyString [].

Definition bogus_node : Node := el "bogus" [] EmptyString [].

(** [<if test="x"><bogus/></if>] *)
Definition leaky_if : Node := el "if" [attr "test" "x"] EmptyString [bogus_node].

(** A node with the tag [name] that passes the attribute checks of every
    block handler and has one child, which no handler is registered for. *)
Definition leaky_block (name : string) : Node :=
  el name
     [attr "test" "x"; attr "var" "i"; attr "in" "xs"; attr "until" "x"; attr "name" "f"]
     EmptyString [bogus_node].

Definition block_tags : list string :=
  ["if"; "elseif"; "else"; "for"; "while"; "repeat"; "function"].

(** A text fragment and a tag that is not registered. *)
Definition blank_text : Node := el EmptyString [] "  " [].
Definition stray_text : Node := el EmptyString [] " x " [].

(** [<script><break/><arg/><break/></script>] *)
Definition script_doc : Node :=
  el "script" [] EmptyString [break_node; el "arg" [] EmptyString []; break_node].

(** A table with three entries, the second with an empty key:
    [<table><entry key='a'>1</entry><entry key=''>2</entry><entry key='b c'>3</entry></table>] *)
Definition table_doc : Node :=
  el "table" [] EmptyString
     [el "entry" [attr "key" "a"] "1" [];
      el "entry" [attr "key" EmptyString] "2" [];
      el "entry" [attr "key" "b c"] "3" []].




(** [<for var="i" from="1" to="10"><print>{{i}}</print></for>] *)
Definition for_loop : Node :=
  el "for" [attr "var" "i"; attr "from" "1"; attr "to" "10"] EmptyString
     [el "print" [] "{{i}}" []].

(** An environment: a runtime that provides up to a mebibyte at a time, a
    decoder that knows a few documents, number parsers
    that accept digits only, and caller-registered handlers that return
    the content of the node. *)
(** [<if test="x"><break/><bogus/><other/></if>] and
    [<script><break/>] the same [<other/></script>]: the first error of
    the walk is that of [bogus]. *)
Definition nested_if : Node :=
  el "if" [attr "test" "x"] EmptyString
     [break_node; bogus_node; el "other" [] EmptyString []].

Definition nested_doc : Node :=
  el "script" [] EmptyString [break_node; nested_if; el "other" [] EmptyString []].



Definition demo_Unmarshal (s : string) : Node + string :=
  if String.eqb s "<break/>" then inl break_node
  else if String.eqb s "<if test='x'><bogus/></if>" then inl leaky_if
  else if String.eqb s "<script><break/><arg/><break/></script>" then inl script_doc
  else if String.eqb s
            "<script><break/><if test='x'><break/><bogus/><other/></if><other/></script>"
  then inl nested_doc
  else inr "EOF".

Definition demo_allocates (n : Z) : bool := n <=? 2 ^ 20.

Lemma demo_allocates_maxAlloc n : demo_allocates n = true -> n <= maxAlloc.
Proof.
  unfold demo_allocates, maxAlloc. intros H. apply Z.leb_le in H.
  change (2 ^ 20) with 1048576 in H. change (2 ^ 48) with 281474976710656. lia.
Qed.

Definition demo_runtime : Runtime :=
  {| allocates := demo_allocates; allocates_maxAlloc := demo_allocates_maxAlloc |}.

Definition demo_ext : External :=
  {| runtime := demo_runtime;
     xml_Unmarshal := demo_Unmarshal;
     strconv_Atoi_ok := digits_only;
     strconv_ParseFloat_ok := digits_only;
     custom := fun _ node c => Return (Content node) None c |}.

(** [<if test="x"><break/><else><break/></else></if>] *)
Definition if_else : Node :=
  el "if" [attr "test" "x"] EmptyString [break_node; el "else" [] EmptyString [break_node]].

(** [<while test="x"><arg/><break/></while>] *)
Definition while_loop : Node :=
  el "while" [attr "test" "x"] EmptyString [el "arg" [] EmptyString []; break_node].

(** [<call name="f"> 1 <arg>x</arg><break/><arg>  </arg><arg> y</arg></call>] *)
Definition call_args : Node :=
  el "call" [attr "name" "f"] " 1 "
     [el "arg" [] "x" []; break_node; el "arg" [] "  " []; el "arg" [] " y" []].

(** * Properties *)

(** ** Induction over the element tree *)

Section NodeInduction.

Variable P : Node -> Prop.
Hypothesis step : forall name attrs content children,
  Forall P children -> P (mkNode name attrs content children).

Fixpoint Node_ind (node : Node) : P node :=
  match node with
  | mkNode name attrs content children =>
      step name attrs content children
        ((fix all (l : list Node) : Forall P l :=
            match l with
            | [] => List.Forall_nil P
            | child :: rest => @List.Forall_cons _ P child rest (Node_ind child) (all rest)
            end) children)
  end.

End NodeInduction.

(** ** The indent counter *)

Ltac int_consts :=
  unfold int_ok, int_range, wrap_int, strings.maxInt in *;
  change (2 ^ 64) with 18446744073709551616 in *;
  change (2 ^ 63) with 9223372036854775808 in *;
  change (2 ^ 61) with 2305843009213693952 in *.

Lemma wrap_int_id z : int_range z -> wrap_int z = z.
Proof.
  int_consts. intros Hz.
  rewrite Z.mod_small; lia.
Qed.

Lemma wrap_int_range z : int_range (wrap_int z).
Proof.
  int_consts.
  pose proof (Z.mod_pos_bound (z + 9223372036854775808) 18446744073709551616 ltac:(lia)). lia.
Qed.

Section Indent.

Context {rt : Runtime}.

Lemma getIndent_Some c ind :
  getIndent c = Some ind ->
  0 <= indent c < 2 ^ 61 /\ ind = strings.repeat_nat "    " (Z.to_nat (indent c)).
Proof.
  unfold getIndent, strings.Repeat. simpl String.length. int_consts.
  destruct (Z.eqb_spec (indent c) 0) as [->|_];
    [intros [= <-]; split; [lia | reflexivity]|].
  destruct (Z.eqb_spec (indent c) 1) as [->|_];
    [intros [= <-]; split; [lia | reflexivity]|].
  destruct (indent c <? 0) eqn:Hneg; simpl; [discriminate|].
  destruct (_ <? Z.of_nat 4 * indent c) eqn:Hbig; [discriminate|].
  destruct (negb _); [discriminate|].
  intros [= <-]. apply Z.ltb_ge in Hneg, Hbig. split; [lia | reflexivity].
Qed.


Lemma getIndent_int_ok c ind : getIndent c = Some ind -> int_ok c.
Proof.
  intros H. apply getIndent_Some in H as [H _]. int_consts. lia.
Qed.

Lemma indent_incr_decr c ind :
  getIndent c = Some ind -> indent_decr (indent_incr c) = c.
Proof.
  intros H. apply getIndent_Some in H as [H _].
  destruct c as [hs i]. unfold indent_decr, indent_incr. simpl in *.
  f_equal. rewrite (wrap_int_id (i + 1)) by (int_consts; lia).
  replace (i + 1 - 1) with i by lia. apply wrap_int_id. int_consts; lia.
Qed.

Lemma indent_incr_exact c ind :
  getIndent c = Some ind -> indent (indent_incr c) = indent c + 1.
Proof.
  intros H. apply getIndent_Some in H as [H _]. simpl.
  apply wrap_int_id. int_consts; lia.
Qed.

End Indent.

Lemma indent_decr_incr_int c : int_ok c -> indent_decr (indent_incr c) = c.
Proof.
  destruct c as [hs i]. unfold indent_decr, indent_incr.
  simpl. intros Hi. f_equal. int_consts. simpl in Hi.
  destruct (Z.eq_dec i 9223372036854775807) as [->|Hne]; [reflexivity|].
  rewrite (Z.mod_small (i + 1 + _)) by lia.
  rewrite Z.mod_small; lia.
Qed.

Section Engine_facts.

Context {ext : External}.

Lemma compileNode_eq c node :
  compileNode c node = compileNode_body compileNode c node.
Proof. destruct node; reflexivity. Qed.

End Engine_facts.

(** ** The model on the package's own tests *)

Example TrimSpace_ascii :
  strings.TrimSpace ("  " +:+ nl +:+ tab +:+ "a b " +:+ cr) = "a b".
Proof. reflexivity. Qed.

Example TrimSpace_nbsp :
  strings.TrimSpace (String "194" (String "160" "x y" +:+ String "226" (String "128" (String "137" EmptyString))))
  = "x y".
Proof. reflexivity. Qed.

Example Split_lines :
  strings.Split ("a" +:+ nl +:+ nl +:+ "b") "010" = ["a"; EmptyString; "b"].
Proof. reflexivity. Qed.

Example Interpolate_two :
  Interpolate "{{k}}: {{ v }}" =
  dq +:+ " .. tostring(k) .. " +:+ dq +:+ ": " +:+ dq +:+ " .. tostring(v) .. " +:+ dq.
Proof. reflexivity. Qed.

Example Interpolate_nested_open :
  Interpolate "a{{{x}}b{{}}" = "a" +:+ dq +:+ " .. tostring({x) .. " +:+ dq +:+ "b{{}}".
Proof. reflexivity. Qed.

Example IsValidIdentifier_ex :
  (IsValidIdentifier "_x1", IsValidIdentifier "1x", IsValidIdentifier "end", IsValidIdentifier "k, v")
  = (true, false, false, false).
Proof. reflexivity. Qed.

(** [TestTable], with its white space between the entries. *)
Example test_table :
  compileNode (ext := demo_ext) NewCompiler
    (el "table" [attr "var" "config"; attr "local" "true"] (nl +:+ "  " +:+ nl)
       [el "entry" [attr "key" "name"] (dq +:+ "MyApp" +:+ dq) [];
        el "entry" [attr "key" "version"] "1.0" [];
        el "entry" [attr "key" "debug"] "true" []])
  = Return ("local config = {" +:+ nl +:+ "    name = " +:+ dq +:+ "MyApp" +:+ dq +:+ ","
            +:+ nl +:+ "    version = 1.0," +:+ nl +:+ "    debug = true," +:+ nl +:+ "}")
      None NewCompiler.
Proof. vm_compute. reflexivity. Qed.

(** [TestFunctionCall] and [TestAssert]. *)
Example test_call :
  compileNode (ext := demo_ext) NewCompiler
    (el "call" [attr "name" "greet"] (nl +:+ "  ")
       [el "arg" [] (dq +:+ "Alice" +:+ dq) []; el "arg" [] (dq +:+ "Bob" +:+ dq) []])
  = Return ("greet(" +:+ dq +:+ "Alice" +:+ dq +:+ ", " +:+ dq +:+ "Bob" +:+ dq +:+ ")")
      None NewCompiler.
Proof. vm_compute. reflexivity. Qed.

Example test_assert :
  compileNode (ext := demo_ext) NewCompiler
    (el "assert" [attr "test" "x ~= nil"] "Variable x must not be nil" [])
  = Return ("assert(x ~= nil, " +:+ dq +:+ "Variable x must not be nil" +:+ dq +:+ ")")
      None NewCompiler.
Proof. vm_compute. reflexivity. Qed.

(** [TestGenericForLoop] gives [var] two names; [IsValidIdentifier]
    rejects the comma, so the handler returns its error where the test
    expects a loop. *)
Example test_generic_for :
  compileNode (ext := demo_ext) NewCompiler
    (el "for" [attr "var" "k, v"; attr "in" "pairs(table)"] EmptyString
       [el "print" [] "{{k}}: {{v}}" []])
  = Return EmptyString (Some "invalid variable name: k, v") NewCompiler.
Proof. vm_compute. reflexivity. Qed.

(** [TestMultiLineComment]. *)
Example test_comment :
  compileNode (ext := demo_ext) NewCompiler
    (el "comment" [] ("This is a" +:+ nl +:+ "multi-line" +:+ nl +:+ "comment") [])
  = Return ("-- This is a" +:+ nl +:+ "-- multi-line" +:+ nl +:+ "-- comment")
      None NewCompiler.
Proof. vm_compute. reflexivity. Qed.

(** A negative indent makes [strings.Repeat] panic, and so does an indent
    whose bytes the runtime does not provide. *)
Example negative_indent_panics :
  compileNode (ext := demo_ext) (mkCompiler (handlers NewCompiler) (-1)) break_node = Panic.
Proof. vm_compute. reflexivity. Qed.

Example huge_indent_panics :
  compileNode (ext := demo_ext) (mkCompiler (handlers NewCompiler) (2 ^ 50)) break_node
  = Panic.
Proof. vm_compute. reflexivity. Qed.

(** ** What a call leaves behind *)

Section Frame.

Context {ext : External}.

Definition frames (rec : Compiler -> Node -> outcome) (node : Node) : Prop :=
  forall c, int_ok c -> registry_ok c -> frame c (rec c node).

Lemma frame_ret code c : int_ok c -> frame c (ret code c).
Proof. intros; cbn; split; [|split]; auto. Qed.

Lemma frame_fail msg c : int_ok c -> frame c (fail msg c).
Proof. intros; cbn; split; [|split]; auto. Qed.

Lemma frame_with_indent c k :
  (forall ind, getIndent c = Some ind -> frame c (k ind)) ->
  frame c (with_indent c k).
Proof. unfold with_indent. destruct (getIndent c); simpl; auto. Qed.

Lemma registry_ok_same c c' :
  handlers c' = handlers c -> registry_ok c -> registry_ok c'.
Proof. unfold registry_ok. intros ->. auto. Qed.

Lemma builtin_only_registry_ok c : builtin_only c -> registry_ok c.
Proof. intros Hb t id Hl. apply Hb in Hl. discriminate. Qed.

Lemma int_ok_incr c : int_ok (indent_incr c).
Proof. apply wrap_int_range. Qed.

Lemma int_ok_decr c : int_ok (indent_decr c).
Proof. apply wrap_int_range. Qed.

Variable rec : Compiler -> Node -> outcome.

Lemma compileChildren_frame children :
  Forall (frames rec) children ->
  forall c result, int_ok c -> registry_ok c ->
    frame c (compileChildren rec children c result).
Proof.
  induction 1 as [|child rest Hchild _ IH]; intros c result Hint Hreg; simpl.
  - split; [|split]; auto.
  - specialize (Hchild c Hint Hreg).
    unfold frame in *.
    destruct (rec c child) as [|code [e|] c1]; simpl in *; [exact I| |].
    + destruct Hchild as (Hh & Hi & _). split; [|split]; auto. discriminate.
    + destruct Hchild as (_ & _ & Heq). rewrite (Heq eq_refl). apply IH; auto.
Qed.

(** A block: the counter goes up, the children are compiled, and what
    follows the loop brings the counter down again. *)
Lemma block_frame children c ind result k :
  getIndent c = Some ind ->
  registry_ok c ->
  Forall (frames rec) children ->
  (forall r, frame c (k r (indent_incr c))) ->
  frame c (after_children (compileChildren rec children (indent_incr c) result) k).
Proof.
  intros Hind Hreg Hch Hk.
  pose proof (compileChildren_frame children Hch (indent_incr c) result
                (int_ok_incr c) (registry_ok_same _ _ eq_refl Hreg)) as Hf.
  unfold frame in Hf |- *.
  destruct (compileChildren rec children (indent_incr c) result) as [|code [e|] c1];
    simpl in *; [exact I| |].
  - destruct Hf as (Hh & Hi & _). split; [|split]; auto. discriminate.
  - destruct Hf as (_ & _ & Heq). rewrite (Heq eq_refl). apply Hk.
Qed.

Lemma close_block_frame c ind (tail : string -> string) :
  getIndent c = Some ind ->
  frame c (let compiler := indent_decr (indent_incr c) in
           with_indent compiler (fun ind => ret (tail ind) compiler)).
Proof.
  intros Hind. cbv zeta. rewrite (indent_incr_decr c ind Hind).
  apply frame_with_indent. intros. apply frame_ret. eapply getIndent_int_ok; eauto.
Qed.

Lemma close_branch_frame c ind r :
  getIndent c = Some ind -> frame c (ret r (indent_decr (indent_incr c))).
Proof.
  intros Hind. rewrite (indent_incr_decr c ind Hind).
  apply frame_ret. eapply getIndent_int_ok; eauto.
Qed.

Lemma tableHandler_frame node c : int_ok c -> frame c (tableHandler node c).
Proof.
  intros Hint. unfold tableHandler.
  destruct (negb (strings.is_empty (GetAttr node "var"))).
  - destruct (negb (IsValidIdentifier (GetAttr node "var"))); [now apply frame_fail|].
    apply frame_with_indent. intros ind Hind. cbv zeta.
    destruct (tableEntries _ _ _); simpl; auto.
    rewrite (indent_incr_decr c ind Hind).
    apply frame_with_indent. intros. now apply frame_ret.
  - cbv zeta. destruct (tableEntries _ _ _); simpl; auto.
    rewrite (indent_decr_incr_int c Hint).
    apply frame_with_indent. intros. now apply frame_ret.
Qed.

Ltac frame_leaf :=
  repeat first
    [ apply frame_fail; assumption
    | apply frame_ret; assumption
    | apply frame_with_indent; intros
    | match goal with |- frame _ (if ?b then _ else _) => destruct b end
    | progress cbv zeta ].

Ltac frame_block :=
  repeat first
    [ apply frame_fail; assumption
    | match goal with |- frame _ (if ?b then _ else _) => destruct b end
    | apply frame_with_indent; intros
    | progress cbv zeta
    | eapply block_frame; [eassumption | assumption | assumption | intros]
    | eapply close_block_frame; eassumption
    | eapply close_branch_frame; eassumption ].

Lemma run_handler_frame h node c :
  (forall id, h = HCustom id -> pure_custom id) ->
  Forall (frames rec) (Nodes node) ->
  int_ok c -> registry_ok c ->
  frame c (run_handler rec h node c).
Proof.
  intros Hb Hch Hint Hreg.
  destruct h; simpl; [..|now apply (proj1 (Hb id eq_refl))];
    try apply tableHandler_frame; auto;
    try (unfold setHandler, breakHandler, callHandler, returnHandler, argHandler,
           entryHandler, itemHandler, arrayHandler, printHandler, warnHandler,
           errorHandler, rawHandler, commentHandler, assertHandler, typeofHandler;
         frame_leaf; fail).
  all: unfold ifHandler, elseifHandler, elseHandler, forHandler, whileHandler,
         repeatHandler, functionHandler; frame_block.
Qed.

End Frame.

Section Frame_compileNode.

Context {ext : External}.

Lemma compileNode_frame node : frames compileNode node.
Proof.
  induction node as [name attrs content children IH] using Node_ind.
  intros c Hint Hreg. rewrite compileNode_eq. unfold compileNode_body.
  destruct (strings.is_empty _).
  - cbv zeta. destruct (strings.is_empty _); [now apply frame_ret | now apply frame_fail].
  - destruct (handlers c !! _) as [h|] eqn:Hh; [|now apply frame_fail].
    apply run_handler_frame; auto. intros id ->. eapply Hreg; eauto.
Qed.

Lemma compileNode_ok_same c node code c' :
  int_ok c -> registry_ok c ->
  compileNode c node = Return code None c' -> c' = c.
Proof.
  intros Hint Hreg H. pose proof (compileNode_frame node c Hint Hreg) as Hf.
  rewrite H in Hf. simpl in Hf. tauto.
Qed.

Lemma compileScript_frame children :
  forall c results, int_ok c -> registry_ok c ->
    frame c (compileScript c children results).
Proof.
  induction children as [|child rest IH]; intros c results Hint Hreg; simpl.
  - split; [|split]; auto.
  - pose proof (compileNode_frame child c Hint Hreg) as Hchild.
    unfold frame in *.
    destruct (compileNode c child) as [|code [e|] c1]; simpl in *; [exact I| |].
    + destruct Hchild as (Hh & Hi & _). split; [|split]; auto. discriminate.
    + destruct Hchild as (_ & _ & Heq). rewrite (Heq eq_refl). apply IH; auto.
Qed.

Lemma CompileFromString_frame c s :
  int_ok c -> registry_ok c -> frame c (CompileFromString c s).
Proof.
  intros Hint Hreg. unfold CompileFromString.
  destruct (xml_Unmarshal s) as [root|err]; [|now apply frame_fail].
  destruct (String.eqb _ _); [now apply compileScript_frame | now apply compileNode_frame].
Qed.

End Frame_compileNode.

(** ** Errors come with an empty output *)

Section Convention.

Context {ext : External}.

Lemma conv_with_indent c k : (forall ind, conv (k ind)) -> conv (with_indent c k).
Proof. unfold with_indent. destruct (getIndent c); simpl; auto. Qed.

Lemma conv_after_children o k :
  (forall r c, conv (k r c)) -> conv (after_children o k).
Proof. intros Hk. destruct o as [|code [e|] c]; simpl; auto. Qed.

Ltac conv_tac :=
  repeat first
    [ exact I
    | reflexivity
    | apply conv_with_indent; intros
    | apply conv_after_children; intros
    | match goal with
      | |- conv (if ?b then _ else _) => destruct b
      | |- conv (match ?o with Some _ => _ | None => _ end) => destruct o
      end
    | progress cbv zeta
    | progress unfold ret, fail, conv ].

Lemma custom_conforms_conv id node c : custom_conforms -> conv (custom id node c).
Proof.
  intros Hc. unfold conv.
  destruct (custom id node c) as [|code [e|] c'] eqn:H; auto.
  eapply Hc; eauto.
Qed.

Lemma run_handler_conv rec h node c :
  (forall id, h = HCustom id -> conv (custom id node c)) ->
  conv (run_handler rec h node c).
Proof.
  intros Hc. destruct h; simpl; [..|now apply Hc];
    try (unfold setHandler, ifHandler, elseifHandler, elseHandler, forHandler,
           whileHandler, repeatHandler, functionHandler, breakHandler, callHandler,
           returnHandler, argHandler, tableHandler, entryHandler, itemHandler,
           arrayHandler, printHandler, warnHandler, errorHandler, rawHandler,
           commentHandler, assertHandler, typeofHandler;
         conv_tac; fail).
Qed.

Lemma compileNode_conv c node :
  (registry_ok c \/ custom_conforms) -> conv (compileNode c node).
Proof.
  intros Hc. rewrite compileNode_eq. unfold compileNode_body.
  destruct (strings.is_empty _).
  - cbv zeta. destruct (strings.is_empty _); simpl; auto.
  - destruct (handlers c !! _) as [h|] eqn:Hh; simpl; auto.
    apply run_handler_conv. intros id ->. destruct Hc as [Hc|Hc].
    + apply (Hc _ _ Hh).
    + now apply custom_conforms_conv.
Qed.

Lemma compileScript_conv c children results : conv (compileScript c children results).
Proof.
  revert c results. induction children as [|child rest IH]; intros; simpl; auto.
  destruct (compileNode c child) as [|code [e|] c1]; simpl; auto.
Qed.

Lemma CompileFromString_conv c s :
  (registry_ok c \/ custom_conforms) -> conv (CompileFromString c s).
Proof.
  intros Hc. unfold CompileFromString.
  destruct (xml_Unmarshal s) as [root|err]; simpl; auto.
  destruct (String.eqb _ _); [apply compileScript_conv | now apply compileNode_conv].
Qed.

End Convention.

(** ** The error does not depend on the indent counter *)

Section Agreement.

Context {ext : External}.

Definition related (c1 c2 : Compiler) : Prop :=
  handlers c1 = handlers c2 /\ registry_ok c1 /\ int_ok c1 /\ int_ok c2.

Definition indifferent (rec : Compiler -> Node -> outcome) (node : Node) : Prop :=
  forall c1 c2, related c1 c2 -> agrees (rec c1 node) (rec c2 node).

Lemma agrees_panic_r o : agrees o Panic.
Proof. destruct o; exact I. Qed.

Lemma agrees_panic_l o : agrees Panic o.
Proof. exact I. Qed.

Lemma related_incr c1 c2 : related c1 c2 -> related (indent_incr c1) (indent_incr c2).
Proof.
  intros (Hh & Hb & _ & _).
  split; [exact Hh | split; [exact Hb | split; apply wrap_int_range]].
Qed.

Lemma related_registry_r c1 c2 : related c1 c2 -> registry_ok c2.
Proof. intros (Hh & Hb & _ & _) t h. rewrite <- Hh. apply Hb. Qed.

Lemma agrees_with_indent c1 c2 k1 k2 :
  (forall i1 i2, agrees (k1 i1) (k2 i2)) ->
  agrees (with_indent c1 k1) (with_indent c2 k2).
Proof.
  unfold with_indent. intros Hk.
  destruct (getIndent c1), (getIndent c2); simpl; auto using agrees_panic_r.
Qed.

Lemma agrees_after_children o1 o2 k1 k2 :
  agrees o1 o2 ->
  (forall r1 r2 c1 c2, agrees (k1 r1 c1) (k2 r2 c2)) ->
  agrees (after_children o1 k1) (after_children o2 k2).
Proof.
  intros Ho Hk.
  destruct o1 as [|code1 [e1|] c1], o2 as [|code2 [e2|] c2]; simpl in *;
    auto using agrees_panic_r; try discriminate.
Qed.

Variable rec : Compiler -> Node -> outcome.

Lemma compileChildren_agrees children :
  Forall (frames rec) children ->
  Forall (indifferent rec) children ->
  forall c1 c2 r1 r2, related c1 c2 ->
    agrees (compileChildren rec children c1 r1) (compileChildren rec children c2 r2).
Proof.
  induction children as [|child rest IH]; intros Hf Hi c1 c2 r1 r2 Hrel; simpl; auto.
  apply Forall_cons_1 in Hf as [Hf1 Hf], Hi as [Hi1 Hi].
  pose proof (Hi1 c1 c2 Hrel) as Hag.
  pose proof Hrel as (Hh & Hb & Hint1 & Hint2).
  pose proof (Hf1 c1 Hint1 Hb) as F1.
  pose proof (Hf1 c2 Hint2 (related_registry_r _ _ Hrel)) as F2.
  unfold frame in F1, F2.
  destruct (rec c1 child) as [|code1 [e1|] c1'], (rec c2 child) as [|code2 [e2|] c2'];
    simpl in *; auto using agrees_panic_r; try discriminate.
  destruct F1 as (_ & _ & E1), F2 as (_ & _ & E2).
  rewrite (E1 eq_refl), (E2 eq_refl). auto.
Qed.

Ltac agrees_tac :=
  repeat first
    [ exact I
    | reflexivity
    | apply agrees_panic_r
    | apply agrees_with_indent; intros
    | match goal with
      | |- agrees (if ?b then _ else _) _ => destruct b
      | |- agrees (match ?o with Some _ => _ | None => _ end) _ => destruct o
      | |- agrees _ (match ?o with Some _ => _ | None => _ end) => destruct o
      end
    | progress cbv zeta
    | progress unfold ret, fail, agrees ].

Ltac agrees_block Hf Hi Hrel :=
  repeat first
    [ exact I
    | reflexivity
    | match goal with
      | |- agrees (if ?b then _ else _) _ => destruct b
      end
    | apply agrees_after_children;
      [ apply compileChildren_agrees;
        [exact Hf | exact Hi | exact (related_incr _ _ Hrel)]
      | intros ]
    | apply agrees_with_indent; intros
    | progress cbv zeta
    | progress unfold ret, fail, agrees ].

Lemma run_handler_agrees h node c1 c2 :
  (forall id, h = HCustom id -> pure_custom id) ->
  Forall (frames rec) (Nodes node) ->
  Forall (indifferent rec) (Nodes node) ->
  related c1 c2 ->
  agrees (run_handler rec h node c1) (run_handler rec h node c2).
Proof.
  intros Hb Hf Hi Hrel.
  destruct h; simpl;
    [..|destruct Hrel as (Hh & _ & H1 & H2); now apply (proj1 (proj2 (Hb id eq_refl)))];
    try (unfold setHandler, breakHandler, callHandler,
           returnHandler, argHandler, tableHandler, entryHandler, itemHandler,
           arrayHandler, printHandler, warnHandler, errorHandler, rawHandler,
           commentHandler, assertHandler, typeofHandler;
         agrees_tac; fail).
  all: unfold ifHandler, elseifHandler, elseHandler, forHandler, whileHandler,
         repeatHandler, functionHandler; agrees_block Hf Hi Hrel.
Qed.

End Agreement.

Section Agreement_compileNode.

Context {ext : External}.

Lemma compileNode_agrees node : indifferent compileNode node.
Proof.
  induction node as [name attrs content children IH] using Node_ind.
  intros c1 c2 Hrel. rewrite !compileNode_eq. unfold compileNode_body.
  destruct (strings.is_empty _).
  - cbv zeta. destruct (strings.is_empty _); reflexivity.
  - pose proof Hrel as (Hh & Hb & _ & _). rewrite <- Hh.
    destruct (handlers c1 !! _) as [h|] eqn:Hl; [|reflexivity].
    apply run_handler_agrees; auto.
    + intros id ->. eapply Hb; eauto.
    + simpl. clear. induction children; constructor; auto using compileNode_frame.
Qed.

Lemma compileScript_agrees children :
  forall c1 c2 r1 r2, related c1 c2 ->
    agrees (compileScript c1 children r1) (compileScript c2 children r2).
Proof.
  induction children as [|child rest IH]; intros c1 c2 r1 r2 Hrel; simpl; auto.
  pose proof (compileNode_agrees child c1 c2 Hrel) as Hag.
  pose proof Hrel as (Hh & Hb & Hint1 & Hint2).
  pose proof (compileNode_frame child c1 Hint1 Hb) as F1.
  pose proof (compileNode_frame child c2 Hint2 (related_registry_r _ _ Hrel)) as F2.
  unfold frame in F1, F2.
  destruct (compileNode c1 child) as [|code1 [e1|] c1'],
           (compileNode c2 child) as [|code2 [e2|] c2'];
    simpl in *; auto using agrees_panic_r; try discriminate.
  destruct F1 as (_ & _ & E1), F2 as (_ & _ & E2).
  rewrite (E1 eq_refl), (E2 eq_refl). auto.
Qed.

Lemma CompileFromString_agrees c1 c2 s :
  related c1 c2 -> agrees (CompileFromString c1 s) (CompileFromString c2 s).
Proof.
  intros Hrel. unfold CompileFromString.
  destruct (xml_Unmarshal s) as [root|err]; [|reflexivity].
  destruct (String.eqb _ _); [now apply compileScript_agrees | now apply compileNode_agrees].
Qed.

End Agreement_compileNode.

(** ** The two loops stop at the first error *)

Section FailFast.

Context {ext : External}.

Lemma compileChildren_fail_fast children :
  forall c result code e c',
    compileChildren compileNode children c result = Return code (Some e) c' ->
    exists pre child post codes ck code',
      children = (pre ++ child :: post)%list /\
      compiled_in_order c pre codes ck /\
      compileNode ck child = Return code' (Some e) c' /\
      forall post' result',
        compileChildren compileNode (pre ++ child :: post')%list c result'
        = Return EmptyString (Some e) c'.
Proof.
  induction children as [|ch rest IH]; intros c result code e c' H; simpl in H.
  - discriminate.
  - destruct (compileNode c ch) as [|code0 [e0|] c1] eqn:Hch; try discriminate.
    + injection H as _ -> ->.
      exists [], ch, rest, [], c, code0. repeat split.
      * constructor.
      * exact Hch.
      * intros post' result'. simpl. now rewrite Hch.
    + apply IH in H as (pre & child & post & codes & ck & code' & -> & Hpre & Hbad & Hany).
      exists (ch :: pre), child, post, (code0 :: codes), ck, code'. repeat split.
      * econstructor; eauto.
      * exact Hbad.
      * intros post' result'. simpl. rewrite Hch. apply Hany.
Qed.

Lemma compileScript_fail_fast children :
  forall c results code e c',
    compileScript c children results = Return code (Some e) c' ->
    exists pre child post codes ck code',
      children = (pre ++ child :: post)%list /\
      compiled_in_order c pre codes ck /\
      compileNode ck child = Return code' (Some e) c' /\
      forall post' results',
        compileScript c (pre ++ child :: post')%list results'
        = Return EmptyString (Some e) c'.
Proof.
  induction children as [|ch rest IH]; intros c results code e c' H; simpl in H.
  - discriminate.
  - destruct (compileNode c ch) as [|code0 [e0|] c1] eqn:Hch; try discriminate.
    + injection H as _ -> ->.
      exists [], ch, rest, [], c, code0. repeat split.
      * constructor.
      * exact Hch.
      * intros post' results'. simpl. now rewrite Hch.
    + apply IH in H as (pre & child & post & codes & ck & code' & -> & Hpre & Hbad & Hany).
      exists (ch :: pre), child, post, (code0 :: codes), ck, code'. repeat split.
      * econstructor; eauto.
      * exact Hbad.
      * intros post' results'. simpl. rewrite Hch. apply Hany.
Qed.

(** The loop over a [script] root when no child fails. *)
Lemma compileScript_in_order c children codes c' :
  compiled_in_order c children codes c' ->
  forall results,
    compileScript c children results
    = Return (strings.Join (results ++ non_empty codes)%list nl) None c'.
Proof.
  induction 1 as [c|c child code c1 rest codes c' Hch _ IH]; intros results; simpl.
  - now rewrite app_nil_r.
  - rewrite Hch, IH. unfold non_empty. simpl.
    destruct (negb (strings.is_empty code)); [|reflexivity].
    now rewrite <- app_assoc.
Qed.

(** Children that compile without error one by one, each from [c], also
    do so one after the other. *)
Lemma compiled_separately c children :
  int_ok c -> registry_ok c ->
  (forall child, In child children ->
     exists code c', compileNode c child = Return code None c') ->
  compiled_in_order c children
    (map (fun child => output (compileNode c child)) children) c.
Proof.
  intros Hint Hreg. induction children as [|child rest IH]; intros Hall; simpl.
  - constructor.
  - destruct (Hall child (or_introl eq_refl)) as (code & c' & Hch).
    pose proof (compileNode_ok_same _ _ _ _ Hint Hreg Hch) as ->.
    rewrite Hch. simpl. econstructor; [exact Hch|].
    apply IH. intros ch Hin. apply Hall. now right.
Qed.

End FailFast.

(** ** The engine *)

(** A block handler that returns no error leaves the compiler as it found
    it: the increment before the children is undone after them. *)
Lemma block_handler_restores_indent {ext : External} h node c code c' :
  is_block h = true -> int_ok c -> registry_ok c ->
  run_handler compileNode h node c = Return code None c' -> c' = c.
Proof.
  intros Hb Hint Hreg H.
  assert (Hf : frame c (run_handler compileNode h node c)).
  { apply run_handler_frame; auto.
    - intros id ->. discriminate.
    - clear. induction (Nodes node); constructor; auto using compileNode_frame. }
  rewrite H in Hf. simpl in Hf. tauto.
Qed.

(** C1 (not met by the code).  When compiling a child returns an error,
    each of the seven block handlers returns from inside its loop, before
    its decrement: on a fresh compiler (indent 0), a node of each of the
    seven tags with a child of unknown tag returns the child's error and
    leaves the indent counter at 1. *)
Theorem block_handlers_leak_indent_on_child_error :
  Forall (fun name =>
            is_block <$> (handlers NewCompiler !! name) = Some true
            /\ compileNode (ext := demo_ext) NewCompiler (leaky_block name)
               = Return EmptyString (Some "unknown tag: bogus") (indent_incr NewCompiler))
         block_tags
  /\ indent NewCompiler = 0
  /\ indent (indent_incr NewCompiler) = 1.
Proof.
  split; [|split; reflexivity].
  repeat (apply List.Forall_cons; [split; vm_compute; reflexivity|]).
  apply List.Forall_nil.
Qed.

(** The leak is visible in what the shared compiler writes next. *)
Example leaked_indent_shows_in_next_compile :
  exists c,
    CompileString (ext := demo_ext) NewCompiler "<if test='x'><bogus/></if>"
    = Return EmptyString (Some "unknown tag: bogus") c
    /\ CompileString (ext := demo_ext) NewCompiler "<break/>" = Return "break" None NewCompiler
    /\ CompileString (ext := demo_ext) c "<break/>" = Return "    break" None c.
Proof.
  exists (indent_incr NewCompiler). repeat split; vm_compute; reflexivity.
Qed.

(** ** The error of a failed compilation is the first of the walk *)

Section FirstFailure.

Context {ext : External}.

Lemma no_error_with_indent c k code e c' :
  (forall ind, k ind <> Return code (Some e) c') ->
  with_indent c k <> Return code (Some e) c'.
Proof. unfold with_indent. destruct (getIndent c); [auto | discriminate]. Qed.

(** A built-in handler that opens no block returns an error without
    looking at the children. *)
Lemma leaf_error_without_children rec h node c code e c' :
  is_builtin h = true -> is_block h = false ->
  run_handler rec h node c = Return code (Some e) c' ->
  c' = c /\
  forall children,
    run_handler rec h (with_children node children) c = Return EmptyString (Some e) c.
Proof.
  intros Hb Hl.
  destruct h; try discriminate Hb; try discriminate Hl; simpl;
    unfold setHandler, breakHandler, callHandler, returnHandler, argHandler,
      tableHandler, entryHandler, itemHandler, arrayHandler, printHandler, warnHandler,
      errorHandler, rawHandler, commentHandler, assertHandler, typeofHandler,
      with_indent, ret, fail, GetAttrWithDefault, GetBoolAttr, GetAttr;
    cbv zeta; cbn [Attrs Content with_children];
    repeat match goal with
           | |- context [if ?b then _ else _] => destruct b
           | |- context [match getIndent ?c with _ => _ end] => destruct (getIndent c)
           | |- context [match tableEntries ?a ?b ?d with _ => _ end] =>
               destruct (tableEntries a b d)
           end;
    try discriminate; intros [= <- <- <-]; (split; [reflexivity | intros; reflexivity]).
Qed.

(** A block handler returns an error of its own without looking at the
    children, or the error of the loop over them. *)
Lemma block_error_origin h node c code e c' :
  is_block h = true ->
  run_handler compileNode h node c = Return code (Some e) c' ->
  (c' = c /\
   forall children,
     run_handler compileNode h (with_children node children) c
     = Return EmptyString (Some e) c)
  \/ (exists header code0,
        compileChildren compileNode (Nodes node) (indent_incr c) header
        = Return code0 (Some e) c'
        /\ forall children,
             (forall result,
                compileChildren compileNode children (indent_incr c) result
                = Return EmptyString (Some e) c') ->
             run_handler compileNode h (with_children node children) c
             = Return EmptyString (Some e) c').
Proof.
  intros Hb.
  destruct h; try discriminate Hb; simpl;
    unfold ifHandler, elseifHandler, elseHandler, forHandler, whileHandler,
      repeatHandler, functionHandler, fail, with_indent, GetAttrWithDefault,
      GetBoolAttr, GetAttr;
    cbv zeta; cbn [Attrs Content Nodes with_children];
    repeat match goal with
           | |- context [if ?b then _ else _] => destruct b
           end;
    try (intros [= <- <- <-]; left; split; [reflexivity | intros; reflexivity]);
    destruct (getIndent c) as [ind|]; try discriminate;
    match goal with
    | |- after_children (compileChildren _ _ _ ?header) _ = _ -> _ =>
        destruct (compileChildren compileNode (Nodes node) (indent_incr c) header)
          as [|code0 [e0|] c1] eqn:Hloop; simpl;
        [ discriminate
        | intros [= <- <- <-]; right; exists header, code0; split;
          [ exact Hloop | intros children Hch; rewrite Hch; reflexivity ]
        | unfold ret; intros H; exfalso; revert H;
          repeat match goal with
                 | |- context [match getIndent ?c with _ => _ end] =>
                     destruct (getIndent c)
                 end; discriminate ]
    end.
Qed.

Lemma compileNode_with_children c node children :
  compileNode c (with_children node children)
  = compileNode_body compileNode c (with_children node children).
Proof. apply compileNode_eq. Qed.

Lemma first_failure_found node :
  forall c code e c',
    compileNode c node = Return code (Some e) c' -> first_failure c node e c'.
Proof.
  induction node as [name attrs content children IH] using Node_ind.
  intros c code e c'. set (node := mkNode name attrs content children).
  rewrite compileNode_eq. unfold compileNode_body, ret, fail.
  destruct (strings.is_empty (Local (XMLName node))) eqn:Hname.
  - cbv zeta.
    destruct (strings.is_empty (strings.TrimSpace (Content node))) eqn:Htext;
      [discriminate|].
    intros [= <- <- <-]. apply ff_self. intros children'.
    rewrite compileNode_eq. unfold compileNode_body.
    cbn [XMLName Content with_children]. now rewrite Hname, Htext.
  - destruct (handlers c !! Local (XMLName node)) as [h|] eqn:Hh.
    2:{ intros [= <- <- <-]. apply ff_self. intros children'.
        rewrite compileNode_eq. unfold compileNode_body.
        cbn [XMLName with_children]. now rewrite Hname, Hh. }
    assert (Hrun : forall children',
              compileNode c (with_children node children')
              = run_handler compileNode h (with_children node children') c).
    { intros children'. rewrite compileNode_eq. unfold compileNode_body.
      cbn [XMLName with_children]. now rewrite Hname, Hh. }
    destruct (is_builtin h) eqn:Hb.
    2:{ destruct h; try discriminate Hb. simpl. intros Hc.
        eapply ff_custom; eauto.
        intros E. rewrite E in Hname. discriminate Hname. }
    destruct (is_block h) eqn:Hblock.
    + intros Hcall.
      destruct (block_error_origin h node c code e c' Hblock Hcall) as [[-> Hself]|Hloop].
      * apply ff_self. intros children'. rewrite Hrun. apply Hself.
      * destruct Hloop as (header & code0 & Hloop & Hany).
        apply compileChildren_fail_fast in Hloop
          as (pre & child & post & codes & ck & code' & Hsplit & Hpre & Hbad & Hpost).
        cbn [Nodes node] in Hsplit.
        eapply ff_child; [exact Hsplit | exact Hpre | |].
        -- rewrite Hsplit in IH. apply Forall_app in IH as [_ IH].
           apply Forall_cons_1 in IH as [IH _]. eapply IH; eauto.
        -- intros post'. rewrite Hrun. apply Hany. intros result. apply Hpost.
    + intros Hcall.
      destruct (leaf_error_without_children _ h node c code e c' Hb Hblock Hcall)
        as [-> Hself].
      apply ff_self. intros children'. rewrite Hrun. apply Hself.
Qed.

Lemma document_failure_found c s code e c' :
  CompileFromString c s = Return code (Some e) c' -> document_failure c s e c'.
Proof.
  unfold CompileFromString.
  destruct (xml_Unmarshal s) as [root|err] eqn:Hs.
  - destruct (String.eqb_spec (Local (XMLName root)) "script") as [Hroot|Hroot].
    + intros H. apply compileScript_fail_fast in H
        as (pre & child & post & codes & ck & code' & Hsplit & Hpre & Hbad & Hpost).
      apply (df_script c s e c' root pre child post codes ck); auto.
      * eapply first_failure_found; eauto.
      * intros s' root' post' Hs' Hroot' Hnodes. unfold CompileFromString.
        rewrite Hs', Hroot', Hnodes. simpl String.eqb. apply Hpost.
    + intros H. apply (df_root c s e c' root); auto.
      eapply first_failure_found; eauto.
  - intros [= <- <- <-]. now apply (df_decoder c s _ c err).
Qed.

End FirstFailure.

(** C2.  A failed compilation returns an empty output, from [compileNode]
    on any node and from [CompileFromString], and its error is the first
    one of the walk over the tree, depth first and in document order
    ([first_failure], [document_failure]): the error of the node itself,
    returned before any child is looked at, or the first error of the
    walk over a child, the children before it having compiled, in order
    and without error, and the children after it not being looked at
    (with any others there, the outcome is the same).  The same is said
    of the two loops themselves, that of the block handlers and that
    over a [script] root. *)
Theorem failure_is_first_error_without_output {ext : External}
    (Hconv : custom_conforms) :
  (forall c node code e c',
     compileNode c node = Return code (Some e) c' ->
     code = EmptyString /\ first_failure c node e c')
  /\ (forall c s code e c',
        CompileFromString c s = Return code (Some e) c' ->
        code = EmptyString /\ document_failure c s e c')
  /\ (forall children c result code e c',
        compileChildren compileNode children c result = Return code (Some e) c' ->
        exists pre child post codes ck code',
          children = (pre ++ child :: post)%list /\
          compiled_in_order c pre codes ck /\
          compileNode ck child = Return code' (Some e) c' /\
          forall post' result',
            compileChildren compileNode (pre ++ child :: post')%list c result'
            = Return EmptyString (Some e) c')
  /\ (forall children c results code e c',
        compileScript c children results = Return code (Some e) c' ->
        exists pre child post codes ck code',
          children = (pre ++ child :: post)%list /\
          compiled_in_order c pre codes ck /\
          compileNode ck child = Return code' (Some e) c' /\
          forall post' results',
            compileScript c (pre ++ child :: post')%list results'
            = Return EmptyString (Some e) c').
Proof.
  split; [|split; [|split]].
  - intros c node code e c' H. split.
    + pose proof (compileNode_conv c node (or_intror Hconv)) as Hc.
      now rewrite H in Hc.
    + eapply first_failure_found; eauto.
  - intros c s code e c' H. split.
    + pose proof (CompileFromString_conv c s (or_intror Hconv)) as Hc.
      now rewrite H in Hc.
    + eapply document_failure_found; eauto.
  - intros children. apply compileChildren_fail_fast.
  - intros children. apply compileScript_fail_fast.
Qed.

Lemma demo_ext_conforms : custom_conforms (ext := demo_ext).
Proof. intros id node c code e c' H. discriminate H. Qed.

Lemma failure_is_first_error_without_output_witness :
  (EmptyString = EmptyString
   /\ first_failure (ext := demo_ext) NewCompiler nested_if "unknown tag: bogus"
        (indent_incr NewCompiler))
  /\ (EmptyString = EmptyString
      /\ document_failure (ext := demo_ext) NewCompiler
           "<script><break/><if test='x'><break/><bogus/><other/></if><other/></script>"
           "unknown tag: bogus" (indent_incr NewCompiler)).
Proof.
  split.
  - apply (proj1 (failure_is_first_error_without_output demo_ext_conforms)
             NewCompiler nested_if EmptyString).
    vm_compute. reflexivity.
  - apply (proj1 (proj2 (failure_is_first_error_without_output demo_ext_conforms))
             NewCompiler _ EmptyString).
    vm_compute. reflexivity.
Defined.

(** C3.  The dispatch of [compileNode]: a text fragment that is only white
    space gives an empty output and no error; any other text fragment
    gives the error "unexpected text content" (followed by a colon and the
    trimmed text); a tag without a handler gives "unknown tag: " followed
    by the tag; otherwise the outcome is that of the registered handler,
    called with the node and the current compiler. *)
Theorem compileNode_dispatch {ext : External} (c : Compiler) (node : Node) :
  (Local (XMLName node) = EmptyString ->
   strings.TrimSpace (Content node) = EmptyString ->
   compileNode c node = Return EmptyString None c)
  /\ (Local (XMLName node) = EmptyString ->
      strings.TrimSpace (Content node) <> EmptyString ->
      compileNode c node
      = Return EmptyString
          (Some ("unexpected text content" +:+ ": " +:+ strings.TrimSpace (Content node))) c)
  /\ (Local (XMLName node) <> EmptyString ->
      handlers c !! Local (XMLName node) = None ->
      compileNode c node
      = Return EmptyString (Some ("unknown tag: " +:+ Local (XMLName node))) c)
  /\ (forall handler,
      Local (XMLName node) <> EmptyString ->
      handlers c !! Local (XMLName node) = Some handler ->
      compileNode c node = run_handler compileNode handler node c).
Proof.
  rewrite compileNode_eq. unfold compileNode_body.
  split; [|split; [|split]].
  - intros -> ->. reflexivity.
  - intros -> Hne. simpl.
    destruct (strings.TrimSpace (Content node)); [congruence | reflexivity].
  - intros Hne ->. destruct (Local (XMLName node)); [congruence | reflexivity].
  - intros handler Hne ->. destruct (Local (XMLName node)); [congruence | reflexivity].
Qed.

Lemma compileNode_dispatch_witness :
  compileNode (ext := demo_ext) NewCompiler blank_text = Return EmptyString None NewCompiler
  /\ compileNode (ext := demo_ext) NewCompiler stray_text
     = Return EmptyString (Some "unexpected text content: x") NewCompiler
  /\ compileNode (ext := demo_ext) NewCompiler bogus_node
     = Return EmptyString (Some "unknown tag: bogus") NewCompiler
  /\ compileNode (ext := demo_ext) NewCompiler break_node
     = run_handler (ext := demo_ext) (compileNode (ext := demo_ext)) HBreak break_node
         NewCompiler.
Proof.
  split; [|split; [|split]].
  - apply (proj1 (compileNode_dispatch NewCompiler blank_text)); reflexivity.
  - apply (proj1 (proj2 (compileNode_dispatch NewCompiler stray_text)));
      [reflexivity | discriminate].
  - apply (proj1 (proj2 (proj2 (compileNode_dispatch NewCompiler bogus_node))));
      [discriminate | vm_compute; reflexivity].
  - apply (proj2 (proj2 (proj2 (compileNode_dispatch NewCompiler break_node))));
      [discriminate | vm_compute; reflexivity].
Defined.

(** C4.  Two successive calls of [CompileString] (or of
    [CompileFromString] on the same compiler) with the same input return
    the same output and the same error, whatever the compiler's indent;
    the handlers that callers have registered are taken to be pure. *)
Theorem compile_twice_same_result {ext : External}
    (c : Compiler) (s : string) code1 err1 c1 code2 err2 c2 :
  int_ok c -> registry_ok c ->
  CompileFromString c s = Return code1 err1 c1 ->
  CompileFromString c1 s = Return code2 err2 c2 ->
  code1 = code2 /\ err1 = err2
  /\ CompileString c s = Return code1 err1 c1
  /\ CompileString c1 s = Return code1 err1 c2.
Proof.
  intros Hint Hreg H1 H2. unfold CompileString.
  pose proof (CompileFromString_frame c s Hint Hreg) as Hf.
  rewrite H1 in Hf. destruct Hf as (Hh & Hint1 & Hsame).
  assert (Hreg1 : registry_ok c1) by (eapply registry_ok_same; eauto).
  assert (Herr : err1 = err2).
  { pose proof (CompileFromString_agrees c c1 s) as Hag.
    rewrite H1, H2 in Hag. apply Hag. split; [|split; [|split]]; auto. }
  subst err2.
  assert (Hcode : code1 = code2).
  { destruct err1 as [e|].
    - pose proof (CompileFromString_conv c s (or_introl Hreg)) as C1.
      pose proof (CompileFromString_conv c1 s (or_introl Hreg1)) as C2.
      rewrite H1 in C1. rewrite H2 in C2. simpl in *. congruence.
    - rewrite (Hsame eq_refl) in H2. congruence. }
  subst code2. auto.
Qed.

Lemma builtin_only_Register c name h :
  is_builtin h = true -> builtin_only c -> builtin_only (Register c name h).
Proof.
  intros Hh Hc t h' H. unfold Register in H. cbn [handlers] in H.
  apply lookup_insert_Some in H as [[_ <-]|[_ H]]; [exact Hh | exact (Hc t h' H)].
Qed.

Lemma NewCompiler_builtin_only : builtin_only NewCompiler.
Proof.
  unfold NewCompiler, registerBuiltins, registerUtilityCommands,
    registerIOCommands, registerDataCommands, registerFunctionCommands,
    registerControlFlowCommands, registerVariableCommands.
  cbv zeta.
  repeat (apply builtin_only_Register; [reflexivity|]).
  intros t h H. cbn [handlers] in H. rewrite lookup_empty in H. discriminate.
Qed.

Lemma NewCompiler_int_ok : int_ok NewCompiler.
Proof. int_consts. simpl. lia. Qed.

Lemma compile_twice_same_result_witness :
  CompileString (ext := demo_ext) NewCompiler "<if test='x'><bogus/></if>"
  = Return EmptyString (Some "unknown tag: bogus") (indent_incr NewCompiler)
  /\ CompileString (ext := demo_ext) (indent_incr NewCompiler) "<if test='x'><bogus/></if>"
     = Return EmptyString (Some "unknown tag: bogus") (indent_incr (indent_incr NewCompiler)).
Proof.
  apply (compile_twice_same_result (ext := demo_ext) NewCompiler
           "<if test='x'><bogus/></if>"
           EmptyString (Some "unknown tag: bogus") (indent_incr NewCompiler)
           EmptyString (Some "unknown tag: bogus") (indent_incr (indent_incr NewCompiler))).
  - exact NewCompiler_int_ok.
  - apply builtin_only_registry_ok, NewCompiler_builtin_only.
  - vm_compute. reflexivity.
  - vm_compute. reflexivity.
Defined.

(** C5.  With a root whose tag is "script", the children are compiled one
    after the other in document order and their non-empty outputs are
    joined with one line feed between them; where the compiler's handlers
    are pure this is the join of what each child gives when compiled on
    its own.  With any other root, the outcome is that of compiling the
    root itself. *)
Theorem script_root_joins_children {ext : External}
    (c : Compiler) (s : string) (root : Node) :
  xml_Unmarshal s = inl root ->
  (Local (XMLName root) = "script" ->
   forall codes c',
     compiled_in_order c (Nodes root) codes c' ->
     CompileFromString c s = Return (strings.Join (non_empty codes) nl) None c')
  /\ (Local (XMLName root) = "script" ->
      int_ok c -> registry_ok c ->
      (forall child, In child (Nodes root) ->
         exists code c', compileNode c child = Return code None c') ->
      CompileFromString c s
      = Return (strings.Join
                  (non_empty (map (fun child => output (compileNode c child)) (Nodes root)))
                  nl) None c)
  /\ (Local (XMLName root) <> "script" ->
      CompileFromString c s = compileNode c root).
Proof.
  intros Hparse. unfold CompileFromString. rewrite Hparse.
  split; [|split].
  - intros -> codes c' Hall. simpl.
    apply (compileScript_in_order _ _ _ _ Hall []).
  - intros -> Hint Hreg Hall. simpl.
    apply (compileScript_in_order _ _ _ _ (compiled_separately c _ Hint Hreg Hall) []).
  - intros Hne. destruct (String.eqb_spec (Local (XMLName root)) "script"); congruence.
Qed.

Lemma script_root_joins_children_witness :
  CompileFromString (ext := demo_ext) NewCompiler "<script><break/><arg/><break/></script>"
  = Return ("break" +:+ nl +:+ "break") None NewCompiler
  /\ CompileFromString (ext := demo_ext) NewCompiler "<break/>"
     = compileNode (ext := demo_ext) NewCompiler break_node.
Proof.
  split.
  - apply (proj1 (proj2 (script_root_joins_children (ext := demo_ext) NewCompiler
                           "<script><break/><arg/><break/></script>" script_doc eq_refl)));
      [ reflexivity
      | exact NewCompiler_int_ok
      | apply builtin_only_registry_ok, NewCompiler_builtin_only
      | ].
    intros child [<-|[<-|[<-|[]]]]; eexists _, _; vm_compute; reflexivity.
  - apply (proj2 (proj2 (script_root_joins_children (ext := demo_ext) NewCompiler
                           "<break/>" break_node eq_refl))).
    discriminate.
Defined.

(** ** Strings *)

#[local] Arguments String.append !s1 s2 : simpl nomatch.

Lemma append_nil_r s : s +:+ EmptyString = s.
Proof. induction s as [|a s IH]; [reflexivity | cbn; f_equal; exact IH]. Qed.

Lemma append_assoc s t u : (s +:+ t) +:+ u = s +:+ t +:+ u.
Proof. induction s as [|a s IH]; [reflexivity | cbn; f_equal; exact IH]. Qed.

Lemma length_append s t :
  String.length (s +:+ t) = (String.length s + String.length t)%nat.
Proof. induction s as [|a s IH]; [reflexivity | cbn; f_equal; exact IH]. Qed.

Lemma length_repeat_nat s n :
  String.length (strings.repeat_nat s n) = (n * String.length s)%nat.
Proof.
  induction n as [|n IH]; [reflexivity|].
  cbn [strings.repeat_nat]. rewrite length_append, IH. reflexivity.
Qed.

Lemma substring_prefix s t : String.substring 0 (String.length s) (s +:+ t) = s.
Proof.
  induction s as [|a s IH].
  - now destruct t.
  - cbn. f_equal. exact IH.
Qed.


Lemma is_empty_false s : strings.is_empty s = false <-> s <> EmptyString.
Proof. destruct s; simpl; split; congruence. Qed.

(** ** Attribute lookup *)

(** C10.  [GetAttrWithDefault] gives the value that [GetAttr] finds when
    that value is not empty, and the default otherwise, so also when the
    attribute is there with an empty value. *)
Theorem GetAttrWithDefault_empty_means_default (node : Node) (name d : string) :
  (GetAttr node name <> EmptyString ->
   GetAttrWithDefault node name d = GetAttr node name)
  /\ (GetAttr node name = EmptyString -> GetAttrWithDefault node name d = d)
  /\ (HasAttr node name = true -> GetAttr node name = EmptyString ->
      GetAttrWithDefault node name d = d).
Proof.
  unfold GetAttrWithDefault. cbv zeta.
  destruct (GetAttr node name) eqn:Hv; simpl; repeat split; congruence.
Qed.

Lemma GetAttrWithDefault_empty_means_default_witness :
  GetAttrWithDefault (el "for" [attr "step" "2"] EmptyString []) "step" "1" = "2"
  /\ GetAttrWithDefault (el "for" [] EmptyString []) "step" "1" = "1"
  /\ GetAttrWithDefault (el "for" [attr "step" EmptyString] EmptyString []) "step" "1" = "1".
Proof.
  split; [|split].
  - apply (proj1 (GetAttrWithDefault_empty_means_default
                    (el "for" [attr "step" "2"] EmptyString []) "step" "1")).
    discriminate.
  - apply (proj1 (proj2 (GetAttrWithDefault_empty_means_default
                           (el "for" [] EmptyString []) "step" "1"))).
    reflexivity.
  - apply (proj2 (proj2 (GetAttrWithDefault_empty_means_default
                           (el "for" [attr "step" EmptyString] EmptyString []) "step" "1")));
      reflexivity.
Defined.

(** ** Interpolation *)

Lemma span_inner_spec s :
  forall run rest, span_inner s = (run, rest) ->
    s = run +:+ rest /\ all_bytes not_close run = true.
Proof.
  induction s as [|a s IH]; simpl; intros run rest H.
  - injection H as <- <-. auto.
  - destruct (Ascii.eqb a close_brace) eqn:Ha.
    + injection H as <- <-. auto.
    + destruct (span_inner s) as [run' rest']. injection H as <- <-.
      destruct (IH run' rest' eq_refl) as [-> Hrun]. simpl.
      unfold not_close at 1. rewrite Ha. auto.
Qed.

Lemma span_inner_run inner post :
  all_bytes not_close inner = true ->
  span_inner (inner +:+ String close_brace post) = (inner, String close_brace post).
Proof.
  induction inner as [|a s IH]; simpl; intros H.
  - reflexivity.
  - apply andb_true_iff in H as [Ha Hs]. unfold not_close in Ha.
    apply negb_true_iff in Ha. rewrite Ha, (IH Hs). reflexivity.
Qed.

Lemma match_here_placeholder inner post :
  inner <> EmptyString -> all_bytes not_close inner = true ->
  match_here ("{{" +:+ inner +:+ "}}" +:+ post) = Some ("{{" +:+ inner +:+ "}}").
Proof.
  intros Hne Hrun. simpl.
  change ("}}" +:+ post) with (String close_brace (String close_brace post)).
  rewrite (span_inner_run inner _ Hrun).
  destruct inner as [|a run]; [congruence | reflexivity].
Qed.

Lemma match_here_Some s m :
  match_here s = Some m ->
  exists inner post,
    inner <> EmptyString /\ all_bytes not_close inner = true /\
    s = "{{" +:+ inner +:+ "}}" +:+ post.
Proof.
  unfold match_here. intros H.
  destruct s as [|a [|b r]]; try discriminate.
  destruct (Ascii.eqb_spec a open_brace) as [->|]; [|discriminate].
  destruct (Ascii.eqb_spec b open_brace) as [->|]; [|discriminate].
  simpl in H.
  destruct (span_inner r) as [run rest] eqn:Hs.
  apply span_inner_spec in Hs as [-> Hrun].
  destruct run as [|x run]; try discriminate.
  destruct rest as [|c [|d post]]; try discriminate.
  destruct (Ascii.eqb_spec c close_brace) as [->|]; [|discriminate].
  destruct (Ascii.eqb_spec d close_brace) as [->|]; [|discriminate].
  exists (String x run), post. repeat split; [discriminate | exact Hrun].
Qed.

Lemma match_here_None s : no_placeholder_here s -> match_here s = None.
Proof.
  intros Hfree. destruct (match_here s) as [m|] eqn:H; [|reflexivity].
  apply match_here_Some in H as (inner & post & Hne & Hrun & ->).
  now destruct (Hfree inner post Hne Hrun).
Qed.

Lemma ReplaceAllStringFunc_skip f x rest :
  ReplaceAllStringFunc f (String.length x) (x +:+ rest) = ReplaceAllStringFunc f 0 rest.
Proof. induction x as [|a x IH]; simpl; [reflexivity | exact IH]. Qed.

Lemma splice_placeholder inner :
  splice ("{{" +:+ inner +:+ "}}")
  = dq +:+ " .. tostring(" +:+ strings.TrimSpace inner +:+ ") .. " +:+ dq.
Proof.
  unfold splice. cbv zeta. simpl String.length.
  rewrite length_append. simpl String.length.
  replace (S (S (String.length inner + 2)) - 4)%nat with (String.length inner) by lia.
  simpl String.substring. now rewrite substring_prefix.
Qed.

Lemma Interpolate_placeholder inner post :
  inner <> EmptyString -> all_bytes not_close inner = true ->
  Interpolate ("{{" +:+ inner +:+ "}}" +:+ post)
  = dq +:+ " .. tostring(" +:+ strings.TrimSpace inner +:+ ") .. " +:+ dq
    +:+ Interpolate post.
Proof.
  intros Hne Hrun. unfold Interpolate.
  change ("{{" +:+ inner +:+ "}}" +:+ post)
    with (String "{" (String "{" (inner +:+ "}}" +:+ post))).
  cbn [ReplaceAllStringFunc].
  change (String "{" (String "{" (inner +:+ "}}" +:+ post)))
    with ("{{" +:+ inner +:+ "}}" +:+ post).
  rewrite (match_here_placeholder inner post Hne Hrun), splice_placeholder.
  rewrite !append_assoc. do 5 f_equal.
  replace (String.length ("{{" +:+ inner +:+ "}}") - 1)%nat
    with (String.length ("{" +:+ inner +:+ "}}")) by (simpl; lia).
  rewrite <- (ReplaceAllStringFunc_skip splice ("{" +:+ inner +:+ "}}") post).
  simpl. now rewrite append_assoc.
Qed.

Lemma Interpolate_copy a r :
  no_placeholder_here (String a r) ->
  Interpolate (String a r) = String a (Interpolate r).
Proof.
  intros Hfree. unfold Interpolate. cbn [ReplaceAllStringFunc].
  now rewrite (match_here_None _ Hfree).
Qed.

Lemma Interpolate_free s : placeholder_free s -> Interpolate s = s.
Proof.
  induction s as [|a s IH]; intros Hfree; [reflexivity|].
  rewrite Interpolate_copy.
  - rewrite IH; [reflexivity|].
    intros pre inner post Hne Hrun ->.
    now apply (Hfree (String a pre) inner post Hne Hrun).
  - intros inner post Hne Hrun. apply (Hfree EmptyString inner post Hne Hrun).
Qed.

(** C7.  [Interpolate] returns a text without placeholder unchanged.  A
    placeholder at the point the scan has reached is replaced by a closing
    quote, [.. tostring(], the trimmed text between the braces, [) ..] and
    an opening quote, and the scan goes on after it; a byte at which no
    placeholder starts is copied. *)
Theorem Interpolate_replaces_placeholders :
  (forall s, placeholder_free s -> Interpolate s = s)
  /\ (forall inner post,
        inner <> EmptyString -> all_bytes not_close inner = true ->
        Interpolate ("{{" +:+ inner +:+ "}}" +:+ post)
        = dq +:+ " .. tostring(" +:+ strings.TrimSpace inner +:+ ") .. " +:+ dq
          +:+ Interpolate post)
  /\ (forall a r,
        no_placeholder_here (String a r) ->
        Interpolate (String a r) = String a (Interpolate r)).
Proof.
  split; [|split].
  - exact Interpolate_free.
  - exact Interpolate_placeholder.
  - exact Interpolate_copy.
Qed.

Lemma no_placeholder_at_other_byte a r :
  a <> "{"%char -> no_placeholder_here (String a r).
Proof. intros Ha inner post _ _ H. injection H as -> _. congruence. Qed.

Lemma placeholder_free_without_brace s :
  all_bytes (fun a => negb (Ascii.eqb a "{")) s = true -> placeholder_free s.
Proof.
  intros Hs pre. revert s Hs.
  induction pre as [|p pre IH]; intros s Hs inner post Hne Hrun ->.
  - simpl in Hs. discriminate.
  - simpl in Hs. apply andb_true_iff in Hs as [_ Hs].
    now apply (IH _ Hs inner post Hne Hrun).
Qed.

Lemma Interpolate_replaces_placeholders_witness :
  Interpolate "Hello, World!" = "Hello, World!"
  /\ Interpolate "{{ name }}!"
     = dq +:+ " .. tostring(" +:+ strings.TrimSpace " name " +:+ ") .. " +:+ dq
       +:+ Interpolate "!"
  /\ Interpolate "a{{b}}" = String "a" (Interpolate "{{b}}").
Proof.
  split; [|split].
  - apply (proj1 Interpolate_replaces_placeholders).
    apply placeholder_free_without_brace. reflexivity.
  - apply (proj1 (proj2 Interpolate_replaces_placeholders) " name " "!");
      [discriminate | reflexivity].
  - apply (proj2 (proj2 Interpolate_replaces_placeholders)).
    apply no_placeholder_at_other_byte. discriminate.
Defined.

(** A text of white-space bytes only is trimmed to nothing. *)
Lemma TrimSpace_ascii_spaces s :
  all_bytes strings.asciiSpace s = true -> strings.TrimSpace s = EmptyString.
Proof.
  intros H. unfold strings.TrimSpace, strings.TrimLeftSpace.
  assert (Hl : strings.drop_while strings.space_rune 0 s = EmptyString).
  { induction s as [|a s IH]; [reflexivity|].
    simpl in H. apply andb_true_iff in H as [Ha Hs].
    cbn [strings.drop_while strings.space_rune]. rewrite Ha. cbn [strings.drop_while].
    destruct s; [reflexivity | exact (IH Hs)]. }
  rewrite Hl. reflexivity.
Qed.

(** ** The built-in handlers *)

(** C6.  On a fresh compiler (indent 0), the loop from 1 to 10 over [i]
    with a [print] of the placeholder [i] inside compiles to the three
    lines that the specification lists; and the indentation written at any level is the
    unit of four spaces repeated that many times. *)
Theorem for_loop_example {ext : External} :
  indent NewCompiler = 0
  /\ compileNode NewCompiler for_loop
     = Return ("for i = 1, 10 do" +:+ nl
               +:+ "    print(" +:+ dq +:+ dq +:+ " .. tostring(i) .. " +:+ dq +:+ dq +:+ ")"
               +:+ nl +:+ "end")
         None NewCompiler
  /\ (forall c ind,
        getIndent c = Some ind ->
        ind = strings.repeat_nat "    " (Z.to_nat (indent c))
        /\ Z.of_nat (String.length ind) = 4 * indent c).
Proof.
  split; [reflexivity | split; [vm_compute; reflexivity|]].
  intros c ind H. apply getIndent_Some in H as [Hr ->].
  split; [reflexivity|]. rewrite length_repeat_nat. simpl String.length. lia.
Qed.

Lemma for_loop_example_witness :
  getIndent (rt := demo_runtime) (indent_incr NewCompiler) = Some "    "
  /\ Z.of_nat (String.length "    ") = 4 * indent (indent_incr NewCompiler).
Proof.
  split; [reflexivity|].
  apply (proj2 (proj2 (for_loop_example (ext := demo_ext))) (indent_incr NewCompiler) "    ").
  reflexivity.
Defined.

Section Table.

Context {ext : External}.

Lemma tableEntries_skip pre child post c :
  writes_field child = false ->
  forall result,
    tableEntries (pre ++ child :: post)%list c result
    = tableEntries (pre ++ post)%list c result.
Proof.
  intros Hskip. induction pre as [|x pre IH]; intros result; simpl.
  - unfold writes_field in Hskip.
    destruct (String.eqb _ _); [|reflexivity].
    simpl in Hskip. now rewrite Hskip.
  - destruct (String.eqb _ _); [|apply IH].
    destruct (_ && _); [|apply IH].
    destruct (getIndent c); [apply IH | reflexivity].
Qed.

Lemma tableEntries_fields children c ind :
  getIndent c = Some ind ->
  forall result,
    tableEntries children c result = Some (result +:+ table_fields ind children).
Proof.
  intros Hind. unfold table_fields.
  induction children as [|x rest IH]; intros result; simpl.
  - now rewrite append_nil_r.
  - unfold writes_field at 1.
    destruct (String.eqb _ _); simpl; [|apply IH].
    destruct (_ && _); simpl; [|apply IH].
    rewrite Hind, IH. now rewrite append_assoc.
Qed.

Lemma writes_field_incomplete child :
  GetAttr child "key" = EmptyString \/ strings.TrimSpace (Content child) = EmptyString ->
  writes_field child = false.
Proof.
  unfold writes_field. intros [->| ->]; simpl.
  - apply andb_false_r.
  - rewrite andb_false_r. apply andb_false_r.
Qed.

(** C9.  The [table] handler leaves out, without an error, every child
    whose [key] attribute is empty or whose content is only white space:
    the outcome is that of the same node without that child.  Where the
    handler writes a literal, its body has one field for each child that
    is an [entry] with a non-empty key and a non-empty content, and
    nothing else. *)
Theorem table_skips_incomplete_entries (node : Node) (c : Compiler) :
  (forall pre child post,
     Nodes node = (pre ++ child :: post)%list ->
     GetAttr child "key" = EmptyString
     \/ strings.TrimSpace (Content child) = EmptyString ->
     tableHandler node c = tableHandler (with_children node (pre ++ post)%list) c)
  /\ (forall ind ind1,
        getIndent c = Some ind ->
        getIndent (indent_incr c) = Some ind1 ->
        GetAttr node "var" = EmptyString ->
        tableHandler node c
        = Return (("{" +:+ nl) +:+ table_fields ind1 (Nodes node) +:+ ind +:+ "}") None c)
  /\ (forall ind ind1,
        getIndent c = Some ind ->
        getIndent (indent_incr c) = Some ind1 ->
        IsValidIdentifier (GetAttr node "var") = true ->
        tableHandler node c
        = Return ((ind +:+ local_prefix (GetBoolAttr node "local") +:+ GetAttr node "var"
                   +:+ " = {" +:+ nl)
                  +:+ table_fields ind1 (Nodes node) +:+ ind +:+ "}") None c).
Proof.
  split; [|split].
  - intros pre child post Hn Hinc. unfold tableHandler.
    change (GetAttr (with_children node (pre ++ post)%list)) with (GetAttr node).
    change (GetBoolAttr (with_children node (pre ++ post)%list)) with (GetBoolAttr node).
    change (Nodes (with_children node (pre ++ post)%list)) with (pre ++ post)%list.
    rewrite Hn. cbv zeta.
    pose proof (tableEntries_skip pre child post (indent_incr c)
                  (writes_field_incomplete _ Hinc)) as Hskip.
    destruct (negb (strings.is_empty _)).
    + destruct (negb (IsValidIdentifier _)); [reflexivity|].
      unfold with_indent at 1 3. destruct (getIndent c); [|reflexivity].
      now rewrite Hskip.
    + now rewrite Hskip.
  - intros ind ind1 Hind Hind1 Hvar. unfold tableHandler. rewrite Hvar. simpl negb.
    cbv iota zeta.
    rewrite (tableEntries_fields _ _ _ Hind1).
    rewrite (indent_incr_decr c ind Hind). unfold with_indent. rewrite Hind.
    unfold ret. now rewrite !append_assoc.
  - intros ind ind1 Hind Hind1 Hvar. unfold tableHandler.
    assert (Hne : strings.is_empty (GetAttr node "var") = false)
      by (destruct (GetAttr node "var"); [discriminate Hvar | reflexivity]).
    rewrite Hne, Hvar. simpl negb. cbv iota zeta.
    unfold with_indent at 1. rewrite Hind.
    rewrite (tableEntries_fields _ _ _ Hind1).
    rewrite (indent_incr_decr c ind Hind). unfold with_indent. rewrite Hind.
    unfold ret. now rewrite !append_assoc.
Qed.

End Table.

Lemma table_skips_incomplete_entries_witness :
  tableHandler (ext := demo_ext) table_doc NewCompiler
  = tableHandler (ext := demo_ext)
      (with_children table_doc
         [el "entry" [attr "key" "a"] "1" []; el "entry" [attr "key" "b c"] "3" []])
      NewCompiler
  /\ tableHandler (ext := demo_ext) table_doc NewCompiler
     = Return ("{" +:+ nl +:+ "    a = 1," +:+ nl
               +:+ "    [" +:+ dq +:+ "b c" +:+ dq +:+ "] = 3," +:+ nl +:+ "}")
         None NewCompiler.
Proof.
  split.
  - apply (proj1 (table_skips_incomplete_entries (ext := demo_ext) table_doc NewCompiler)
             [el "entry" [attr "key" "a"] "1" []]
             (el "entry" [attr "key" EmptyString] "2" [])
             [el "entry" [attr "key" "b c"] "3" []]);
      [reflexivity | left; reflexivity].
  - apply (proj1 (proj2 (table_skips_incomplete_entries (ext := demo_ext) table_doc
                           NewCompiler)) EmptyString "    ");
      reflexivity.
Defined.

Section For.

Context {ext : External}.

Variable rec : Compiler -> Node -> outcome.




End For.

Section Loops.

Context {ext : External}.

Lemma compileChildren_in_order c children codes c' :
  compiled_in_order c children codes c' ->
  forall result,
    compileChildren compileNode children c result
    = Return (result +:+ block_lines codes) None c'.
Proof.
  induction 1 as [c|c child code c1 rest codes c' Hch _ IH]; intros result; simpl.
  - unfold block_lines. simpl. now rewrite append_nil_r.
  - rewrite Hch, IH. unfold block_lines, non_empty. simpl.
    destruct (negb (strings.is_empty code)); [|reflexivity].
    simpl. now rewrite !append_assoc.
Qed.

Lemma compiled_in_order_same c children codes c' :
  int_ok c -> registry_ok c -> compiled_in_order c children codes c' -> c' = c.
Proof.
  intros Hint Hreg H. induction H as [c|c child code c1 rest codes c' Hch _ IH]; [reflexivity|].
  pose proof (compileNode_ok_same _ _ _ _ Hint Hreg Hch) as ->. now apply IH.
Qed.

Lemma block_body c node ind codes c1 header k :
  registry_ok c ->
  getIndent c = Some ind ->
  compiled_in_order (indent_incr c) (Nodes node) codes c1 ->
  after_children (compileChildren compileNode (Nodes node) (indent_incr c) header) k
  = k (header +:+ block_lines codes) (indent_incr c).
Proof.
  intros Hreg Hind Hch.
  rewrite (compileChildren_in_order _ _ _ _ Hch). simpl.
  now rewrite (compiled_in_order_same _ _ _ _ (int_ok_incr c)
                 (registry_ok_same c (indent_incr c) eq_refl Hreg) Hch).
Qed.



End Loops.



(** ** More about strings *)

Lemma rev_onto_app s acc : strings.rev_onto s acc = strings.rev s +:+ acc.
Proof.
  unfold strings.rev. revert acc.
  induction s as [|a s IH]; intros acc; simpl; [reflexivity|].
  rewrite IH, (IH (String a EmptyString)), append_assoc. reflexivity.
Qed.

Lemma rev_cons a s : strings.rev (String a s) = strings.rev s +:+ String a EmptyString.
Proof. unfold strings.rev at 1. simpl. apply rev_onto_app. Qed.

Lemma rev_app s t : strings.rev (s +:+ t) = strings.rev t +:+ strings.rev s.
Proof.
  induction s as [|a s IH]; simpl.
  - now rewrite append_nil_r.
  - now rewrite !rev_cons, IH, append_assoc.
Qed.

Lemma rev_involutive s : strings.rev (strings.rev s) = s.
Proof.
  induction s as [|a s IH]; [reflexivity|].
  now rewrite rev_cons, rev_app, IH.
Qed.

Lemma all_bytes_app p s t : all_bytes p (s +:+ t) = all_bytes p s && all_bytes p t.
Proof.
  induction s as [|a s IH]; simpl; [reflexivity|].
  now rewrite IH, andb_assoc.
Qed.

Lemma all_bytes_rev p s : all_bytes p (strings.rev s) = all_bytes p s.
Proof.
  induction s as [|a s IH]; [reflexivity|].
  rewrite rev_cons, all_bytes_app, IH. simpl. rewrite andb_true_r. apply andb_comm.
Qed.

Lemma drop_while_suffix rune s :
  forall skip, exists pre, s = pre +:+ strings.drop_while rune skip s.
Proof.
  induction s as [|a s IH]; intros skip.
  - exists EmptyString. now destruct skip.
  - destruct skip as [|k]; cbn [strings.drop_while].
    + destruct (rune (String a s)) as [|k].
      * now exists EmptyString.
      * destruct (IH k) as [pre Hpre]. exists (String a pre). simpl. now rewrite <- Hpre.
    + destruct (IH k) as [pre Hpre]. exists (String a pre). simpl. now rewrite <- Hpre.
Qed.

Lemma drop_while_all_bytes p rune skip s :
  all_bytes p s = true -> all_bytes p (strings.drop_while rune skip s) = true.
Proof.
  intros H. destruct (drop_while_suffix rune s skip) as [pre Hpre].
  rewrite Hpre, all_bytes_app in H. now apply andb_true_iff in H.
Qed.

Lemma TrimSpace_all_bytes p s :
  all_bytes p s = true -> all_bytes p (strings.TrimSpace s) = true.
Proof.
  intros H. unfold strings.TrimSpace, strings.TrimRightSpace, strings.TrimLeftSpace.
  rewrite all_bytes_rev. apply drop_while_all_bytes.
  rewrite all_bytes_rev. now apply drop_while_all_bytes.
Qed.

(** Where the dropping stops, nothing more is dropped. *)
Lemma drop_while_stops rune s :
  forall skip,
    strings.drop_while rune 0 (strings.drop_while rune skip s)
    = strings.drop_while rune skip s.
Proof.
  induction s as [|a s IH]; intros skip.
  - now destruct skip.
  - destruct skip as [|k]; cbn [strings.drop_while].
    + destruct (rune (String a s)) as [|k] eqn:Hr.
      * cbn [strings.drop_while]. now rewrite Hr.
      * apply IH.
    + apply IH.
Qed.

Lemma space_rune_visible a r : ascii_visible a = true -> strings.space_rune (String a r) = 0%nat.
Proof.
  unfold ascii_visible, strings.space_rune. intros H.
  apply andb_true_iff in H as [Hlt Hsp]. apply negb_true_iff in Hsp. rewrite Hsp.
  apply N.ltb_lt in Hlt.
  destruct r as [|b [|c r]]; try reflexivity.
  - destruct (_ && _)%N eqn:E; [|reflexivity].
    apply andb_true_iff in E as [E _]. apply N.eqb_eq in E. lia.
  - destruct (strings.code a =? 194)%N eqn:E1; [apply N.eqb_eq in E1; lia|].
    destruct (strings.code a =? 225)%N eqn:E2; [apply N.eqb_eq in E2; lia|].
    destruct (strings.code a =? 226)%N eqn:E3; [apply N.eqb_eq in E3; lia|].
    destruct (strings.code a =? 227)%N eqn:E4; [apply N.eqb_eq in E4; lia|].
    reflexivity.
Qed.

Lemma space_rune_rev_visible a r :
  ascii_visible a = true -> strings.space_rune_rev (String a r) = 0%nat.
Proof.
  unfold ascii_visible, strings.space_rune_rev. intros H.
  apply andb_true_iff in H as [Hlt Hsp]. apply negb_true_iff in Hsp. rewrite Hsp.
  apply N.ltb_lt in Hlt.
  destruct r as [|b [|c r]]; try reflexivity.
  - destruct (_ && _)%N eqn:E; [|reflexivity].
    apply andb_true_iff in E as [_ E]. apply orb_true_iff in E as [E|E];
      apply N.eqb_eq in E; lia.
  - destruct ((strings.code b =? 194)%N && _) eqn:E.
    { apply andb_true_iff in E as [_ E]. apply orb_true_iff in E as [E|E];
        apply N.eqb_eq in E; lia. }
    unfold strings.space_rune.
    destruct (strings.asciiSpace c); [reflexivity|].
    destruct ((strings.code c =? 194)%N && _); [reflexivity|].
    assert (Hc : forall n, (128 <= n)%N -> (strings.code a =? n)%N = false)
      by (intros n Hn; apply N.eqb_neq; lia).
    assert (Hr : ((128 <=? strings.code a) && (strings.code a <=? 138))%N = false)
      by (apply andb_false_iff; left; apply N.leb_gt; lia).
    rewrite Hr, !Hc by lia. rewrite !andb_false_r. reflexivity.
Qed.

(** A text whose first and last bytes are visible ASCII is its own trim. *)
Lemma TrimSpace_visible_ends s a z :
  first_byte s = Some a -> ascii_visible a = true ->
  last_byte s = Some z -> ascii_visible z = true ->
  strings.TrimSpace s = s.
Proof.
  intros Ha Hva Hz Hvz.
  unfold strings.TrimSpace, strings.TrimLeftSpace, strings.TrimRightSpace.
  destruct s as [|a' r]; [discriminate|]. injection Ha as ->.
  cbn [strings.drop_while]. rewrite (space_rune_visible a r Hva).
  unfold last_byte in Hz.
  destruct (strings.rev (String a r)) as [|z' r'] eqn:Hrev; [discriminate|].
  injection Hz as ->.
  cbn [strings.drop_while]. rewrite (space_rune_rev_visible z r' Hvz).
  rewrite <- Hrev. apply rev_involutive.
Qed.

(** The rune found at the head of a text is found at the head of any
    extension of it. *)
Lemma space_rune_prefix v w :
  v <> EmptyString -> strings.space_rune (v +:+ w) = 0%nat -> strings.space_rune v = 0%nat.
Proof.
  intros Hv. destruct v as [|a [|b [|c v]]]; [congruence|..]; simpl; intros H.
  - destruct (strings.asciiSpace a); [discriminate | reflexivity].
  - destruct (strings.asciiSpace a); [discriminate|].
    destruct w as [|c w]; simpl in H.
    + exact H.
    + destruct ((strings.code a =? 194)%N && _); [discriminate | reflexivity].
  - exact H.
Qed.

Lemma TrimLeftSpace_fixed s :
  s = EmptyString \/ strings.space_rune s = 0%nat -> strings.TrimLeftSpace s = s.
Proof.
  unfold strings.TrimLeftSpace. intros [->|H]; [reflexivity|].
  destruct s as [|a r]; [reflexivity|]. cbn [strings.drop_while]. now rewrite H.
Qed.

Lemma drop_while_result rune s :
  forall skip,
    strings.drop_while rune skip s = EmptyString
    \/ rune (strings.drop_while rune skip s) = 0%nat.
Proof.
  induction s as [|a s IH]; intros skip.
  - left. now destruct skip.
  - destruct skip as [|k]; cbn [strings.drop_while].
    + destruct (rune (String a s)) as [|k] eqn:Hr; [now right | apply IH].
    + apply IH.
Qed.

Lemma TrimSpace_idempotent s :
  strings.TrimSpace (strings.TrimSpace s) = strings.TrimSpace s.
Proof.
  unfold strings.TrimSpace.
  remember (strings.TrimLeftSpace s) as u eqn:Eu.
  assert (Hu : u = EmptyString \/ strings.space_rune u = 0%nat)
    by (subst u; apply drop_while_result).
  remember (strings.TrimRightSpace u) as v eqn:Ev.
  assert (Hv : strings.TrimLeftSpace v = v).
  { apply TrimLeftSpace_fixed.
    destruct v as [|a r]; [now left | right].
    destruct Hu as [Hu|Hu].
    - rewrite Hu in Ev. discriminate Ev.
    - destruct (drop_while_suffix strings.space_rune_rev (strings.rev u) 0) as [pre Hpre].
      apply (f_equal strings.rev) in Hpre. rewrite rev_involutive, rev_app in Hpre.
      fold (strings.TrimRightSpace u) in Hpre. rewrite <- Ev in Hpre.
      rewrite Hpre in Hu.
      apply (space_rune_prefix (String a r) (strings.rev pre)); [discriminate | exact Hu]. }
  rewrite Hv. subst v. unfold strings.TrimRightSpace.
  now rewrite rev_involutive, drop_while_stops.
Qed.

(** [strings.Split] and [strings.Join]. *)

Lemma Split_not_nil s sep : strings.Split s sep <> [].
Proof.
  destruct s as [|a r]; simpl; [discriminate|].
  destruct (Ascii.eqb a sep); [discriminate|].
  destruct (strings.Split r sep); discriminate.
Qed.

Lemma Join_Split s sep :
  strings.Join (strings.Split s sep) (String sep EmptyString) = s.
Proof.
  unfold strings.Join. induction s as [|a r IH]; [reflexivity|].
  simpl. destruct (Ascii.eqb_spec a sep) as [->|Hne].
  - pose proof (Split_not_nil r sep) as Hnn.
    destruct (strings.Split r sep) as [|w ws]; [congruence|].
    cbn [String.concat]. simpl. simpl in IH. now rewrite IH.
  - pose proof (Split_not_nil r sep) as Hnn.
    destruct (strings.Split r sep) as [|w ws]; [congruence|].
    destruct ws as [|w' ws]; simpl in *; now rewrite IH.
Qed.

Lemma Split_without_sep s sep :
  all_bytes (fun a => negb (Ascii.eqb a sep)) s = true -> strings.Split s sep = [s].
Proof.
  induction s as [|a r IH]; simpl; [reflexivity|].
  intros H. apply andb_true_iff in H as [Ha Hr]. apply negb_true_iff in Ha.
  now rewrite Ha, (IH Hr).
Qed.

Lemma Split_app_sep s t sep :
  all_bytes (fun a => negb (Ascii.eqb a sep)) s = true ->
  strings.Split (s +:+ String sep t) sep = s :: strings.Split t sep.
Proof.
  induction s as [|a r IH]; simpl.
  - intros _. now rewrite Ascii.eqb_refl.
  - intros H. apply andb_true_iff in H as [Ha Hr]. apply negb_true_iff in Ha.
    now rewrite Ha, (IH Hr).
Qed.

Lemma Split_Join l sep :
  l <> [] ->
  Forall (fun s => all_bytes (fun a => negb (Ascii.eqb a sep)) s = true) l ->
  strings.Split (strings.Join l (String sep EmptyString)) sep = l.
Proof.
  unfold strings.Join. intros Hne Hall. induction Hall as [|x l Hx Hl IH]; [congruence|].
  destruct l as [|y l].
  - simpl. now apply Split_without_sep.
  - cbn [String.concat]. simpl. rewrite (Split_app_sep _ _ _ Hx).
    f_equal. apply IH. discriminate.
Qed.

Lemma Split_parts_without_sep s sep :
  Forall (fun w => all_bytes (fun a => negb (Ascii.eqb a sep)) w = true)
         (strings.Split s sep).
Proof.
  induction s as [|a r IH]; simpl.
  - now constructor.
  - destruct (Ascii.eqb a sep) eqn:Ha.
    + now constructor.
    + destruct (strings.Split r sep) as [|w ws]; constructor.
      * simpl. now rewrite Ha.
      * constructor.
      * apply Forall_cons_1 in IH as [Hw _]. simpl. now rewrite Ha.
      * now apply Forall_cons_1 in IH as [_ Hws].
Qed.

(** ** More about the helpers *)

Lemma lookup_attr_first attrs name pre a post :
  attrs = (pre ++ a :: post)%list ->
  Local (Name a) = name ->
  Forall (fun b => Local (Name b) <> name) pre ->
  lookup_attr attrs name = Some (Value a).
Proof.
  intros -> Hname Hpre. induction Hpre as [|b pre Hb _ IH]; simpl.
  - rewrite Hname, String.eqb_refl. reflexivity.
  - apply String.eqb_neq in Hb. now rewrite Hb.
Qed.

Lemma lookup_attr_none attrs name :
  Forall (fun b => Local (Name b) <> name) attrs -> lookup_attr attrs name = None.
Proof.
  induction 1 as [|b rest Hb _ IH]; simpl; [reflexivity|].
  apply String.eqb_neq in Hb. now rewrite Hb.
Qed.

Lemma lookup_attr_Some attrs name v :
  lookup_attr attrs name = Some v ->
  exists pre a post,
    attrs = (pre ++ a :: post)%list /\ Local (Name a) = name /\ Value a = v
    /\ Forall (fun b => Local (Name b) <> name) pre.
Proof.
  induction attrs as [|b rest IH]; simpl; [discriminate|].
  destruct (String.eqb_spec (Local (Name b)) name) as [Hb|Hb].
  - intros [= <-]. exists [], b, rest. repeat split; auto.
  - intros H. destruct (IH H) as (pre & a & post & -> & Ha & Hv & Hpre).
    exists (b :: pre), a, post. repeat split; auto.
Qed.

Lemma GetAttr_non_empty_HasAttr node name :
  GetAttr node name <> EmptyString -> HasAttr node name = true.
Proof.
  unfold GetAttr, HasAttr.
  destruct (lookup_attr (Attrs node) name); [reflexivity | congruence].
Qed.

(** X1.  Attribute lookup takes the first attribute whose local name is
    the one asked for, whatever its name space and whatever comes after
    it; when there is none, [GetAttr] gives the empty string and
    [HasAttr] is false.  A non-empty value is always that of an attribute
    of the node. *)
Theorem attribute_lookup_first_match (node : Node) (name : string) :
  (forall pre a post,
     Attrs node = (pre ++ a :: post)%list ->
     Local (Name a) = name ->
     Forall (fun b => Local (Name b) <> name) pre ->
     GetAttr node name = Value a /\ HasAttr node name = true)
  /\ (Forall (fun b => Local (Name b) <> name) (Attrs node) ->
      GetAttr node name = EmptyString /\ HasAttr node name = false)
  /\ (GetAttr node name <> EmptyString ->
      HasAttr node name = true
      /\ exists a, In a (Attrs node) /\ Local (Name a) = name
                   /\ Value a = GetAttr node name).
Proof.
  unfold GetAttr, HasAttr. split; [|split].
  - intros pre a post Hattrs Hname Hpre.
    now rewrite (lookup_attr_first _ _ _ _ _ Hattrs Hname Hpre).
  - intros Hnone. now rewrite (lookup_attr_none _ _ Hnone).
  - destruct (lookup_attr (Attrs node) name) as [v|] eqn:Hl; [|congruence].
    intros _. split; [reflexivity|].
    apply lookup_attr_Some in Hl as (pre & a & post & Hattrs & Ha & Hv & _).
    exists a. rewrite Hattrs. split; [apply in_elt | auto].
Qed.

Lemma attribute_lookup_first_match_witness :
  GetAttr (el "set" [attr "local" "no"; Build_xml_Attr (Build_xml_Name "ns" "var") "x";
                     attr "var" "y"] EmptyString []) "var" = "x"
  /\ GetAttr (el "set" [attr "local" "no"] EmptyString []) "var" = EmptyString
  /\ HasAttr (el "set" [attr "var" "y"] EmptyString []) "var" = true.
Proof.
  split; [|split].
  - apply (proj1 (attribute_lookup_first_match _ "var")
             [attr "local" "no"] (Build_xml_Attr (Build_xml_Name "ns" "var") "x")
             [attr "var" "y"]); [reflexivity | reflexivity|].
    constructor; [discriminate | constructor].
  - apply (proj1 (proj2 (attribute_lookup_first_match _ "var"))).
    constructor; [discriminate | constructor].
  - apply (proj2 (proj2 (attribute_lookup_first_match
                           (el "set" [attr "var" "y"] EmptyString []) "var"))).
    discriminate.
Defined.

(** X2.  [GetBoolAttr] is true exactly when the value found is "true",
    "1" or "yes"; so it is false for an attribute that is missing or
    empty, and true only for a node that has the attribute. *)
Theorem GetBoolAttr_true_values (node : Node) (name : string) :
  (GetBoolAttr node name = true <->
   GetAttr node name = "true" \/ GetAttr node name = "1" \/ GetAttr node name = "yes")
  /\ (GetBoolAttr node name = true -> HasAttr node name = true)
  /\ (GetAttr node name = EmptyString -> GetBoolAttr node name = false).
Proof.
  assert (Hiff : GetBoolAttr node name = true <->
                 GetAttr node name = "true" \/ GetAttr node name = "1"
                 \/ GetAttr node name = "yes").
  { unfold GetBoolAttr. cbv zeta. rewrite !orb_true_iff, !String.eqb_eq. tauto. }
  split; [exact Hiff | split].
  - intros H. apply Hiff in H.
    apply GetAttr_non_empty_HasAttr.
    destruct H as [->|[->| ->]]; discriminate.
  - intros H. unfold GetBoolAttr. now rewrite H.
Qed.

Lemma GetBoolAttr_true_values_witness :
  HasAttr (el "set" [attr "local" "yes"] EmptyString []) "local" = true
  /\ GetBoolAttr (el "set" [attr "local" EmptyString] EmptyString []) "local" = false.
Proof.
  split.
  - apply (proj1 (proj2 (GetBoolAttr_true_values _ "local"))). reflexivity.
  - apply (proj2 (proj2 (GetBoolAttr_true_values _ "local"))). reflexivity.
Defined.

(** [EscapeString] *)

Lemma ReplaceAll_app s t old new :
  strings.ReplaceAll (s +:+ t) old new
  = strings.ReplaceAll s old new +:+ strings.ReplaceAll t old new.
Proof.
  induction s as [|a s IH]; simpl; [reflexivity|].
  destruct (Ascii.eqb a old); rewrite IH; [now rewrite append_assoc | reflexivity].
Qed.

Lemma EscapeString_app s t : EscapeString (s +:+ t) = EscapeString s +:+ EscapeString t.
Proof. unfold EscapeString. cbv zeta. now rewrite !ReplaceAll_app. Qed.

Lemma EscapeString_byte a : EscapeString (String a EmptyString) = escape_byte a.
Proof.
  unfold EscapeString, escape_byte. cbv zeta.
  destruct (Ascii.eqb_spec a "092") as [->|H1]; [reflexivity|].
  destruct (Ascii.eqb_spec a "034") as [->|H2]; [reflexivity|].
  destruct (Ascii.eqb_spec a "010") as [->|H3]; [reflexivity|].
  destruct (Ascii.eqb_spec a "009") as [->|H4]; [reflexivity|].
  destruct (Ascii.eqb_spec a "013") as [->|H5]; [reflexivity|].
  apply Ascii.eqb_neq in H1, H2, H3, H4, H5.
  cbn [strings.ReplaceAll]. rewrite H1. cbn [strings.ReplaceAll]. rewrite H2.
  cbn [strings.ReplaceAll]. rewrite H3. cbn [strings.ReplaceAll]. rewrite H4.
  cbn [strings.ReplaceAll]. rewrite H5. reflexivity.
Qed.

Lemma EscapeString_bytes s : EscapeString s = escape_bytes s.
Proof.
  induction s as [|a s IH]; [reflexivity|].
  change (String a s) with (String a EmptyString +:+ s).
  rewrite EscapeString_app, EscapeString_byte, IH. reflexivity.
Qed.

Lemma escape_byte_no_control a : all_bytes (fun b => negb (raw_control b)) (escape_byte a) = true.
Proof.
  unfold escape_byte.
  destruct (Ascii.eqb a "092"); [reflexivity|].
  destruct (Ascii.eqb a "034"); [reflexivity|].
  destruct (Ascii.eqb a "010") eqn:E1; [reflexivity|].
  destruct (Ascii.eqb a "009") eqn:E2; [reflexivity|].
  destruct (Ascii.eqb a "013") eqn:E3; [reflexivity|].
  simpl. unfold raw_control. now rewrite E1, E2, E3.
Qed.

(** X3.  [EscapeString] escapes byte by byte: each backslash, quote, line
    feed, tab and carriage return becomes its two-byte escape and every
    other byte is kept, the backslashes that the later replacements write
    not being escaped again.  So escaping goes through concatenation, and
    the result holds no raw line feed, tab or carriage return. *)
Theorem EscapeString_bytewise (s t : string) :
  EscapeString s = escape_bytes s
  /\ EscapeString (s +:+ t) = EscapeString s +:+ EscapeString t
  /\ all_bytes (fun b => negb (raw_control b)) (EscapeString s) = true.
Proof.
  split; [apply EscapeString_bytes | split; [apply EscapeString_app|]].
  rewrite EscapeString_bytes. induction s as [|a s IH]; [reflexivity|].
  simpl. rewrite all_bytes_app, escape_byte_no_control. exact IH.
Qed.

(** [WrapInQuotes] *)

Lemma visible_dq : ascii_visible "034" = true.
Proof. reflexivity. Qed.

Lemma last_byte_snoc s a : last_byte (s +:+ String a EmptyString) = Some a.
Proof. unfold last_byte. rewrite rev_app. reflexivity. Qed.

Lemma quoted_is_literal x : IsStringLiteral (dq +:+ x +:+ dq) = true.
Proof.
  unfold IsStringLiteral. cbv zeta.
  assert (Hlast : last_byte (dq +:+ x +:+ dq) = Some "034"%char).
  { rewrite <- append_assoc. apply last_byte_snoc. }
  rewrite (TrimSpace_visible_ends (dq +:+ x +:+ dq) "034" "034" eq_refl visible_dq
             Hlast visible_dq).
  rewrite Hlast. simpl first_byte. rewrite Ascii.eqb_refl. simpl andb.
  rewrite !length_append. simpl String.length.
  destruct (Nat.ltb_spec (1 + (String.length x + 1)) 2); [lia | reflexivity].
Qed.

Section Quoting.

Context {ext : External}.

(** X4.  [WrapInQuotes] either returns its argument or puts the escaped
    argument between two quotes, and what it returns then is a string
    literal for [IsStringLiteral]; wrapping twice is wrapping once. *)
Theorem WrapInQuotes_idempotent (s : string) :
  (WrapInQuotes s = s
   \/ WrapInQuotes s = dq +:+ EscapeString s +:+ dq
      /\ IsStringLiteral (WrapInQuotes s) = true)
  /\ WrapInQuotes (WrapInQuotes s) = WrapInQuotes s.
Proof.
  assert (Hcases : WrapInQuotes s = s
                   \/ WrapInQuotes s = dq +:+ EscapeString s +:+ dq
                      /\ IsStringLiteral (WrapInQuotes s) = true).
  { unfold WrapInQuotes.
    destruct (IsStringLiteral s || IsNumberLiteral s); [now left|].
    destruct (IsValidIdentifier s || strings.Contains s "(" || strings.Contains s ".");
      [now left|].
    right. split; [reflexivity | apply quoted_is_literal]. }
  split; [exact Hcases|].
  destruct Hcases as [Hsame | [_ Hlit]].
  - now rewrite !Hsame.
  - unfold WrapInQuotes at 1. now rewrite Hlit.
Qed.

End Quoting.

(** [JoinWithCommas] *)

Lemma trimmed_non_empty_app l1 l2 :
  List.filter (fun s => negb (strings.is_empty s)) (map strings.TrimSpace (l1 ++ l2)%list)
  = (List.filter (fun s => negb (strings.is_empty s)) (map strings.TrimSpace l1)
     ++ List.filter (fun s => negb (strings.is_empty s)) (map strings.TrimSpace l2))%list.
Proof. now rewrite List.map_app, List.filter_app. Qed.

Lemma Join_not_empty x rest sep :
  x <> EmptyString -> strings.Join (x :: rest) sep <> EmptyString.
Proof.
  unfold strings.Join. intros Hx. simpl.
  destruct x as [|a x]; [congruence|]. now destruct rest.
Qed.

Lemma trimmed_non_empty_nil l :
  List.filter (fun s => negb (strings.is_empty s)) (map strings.TrimSpace l) = [] ->
  Forall (fun s => strings.TrimSpace s = EmptyString) l.
Proof.
  induction l as [|s l IH]; simpl; [constructor|].
  destruct (strings.TrimSpace s) eqn:Hs; simpl; [|discriminate].
  intros H. constructor; [exact Hs | exact (IH H)].
Qed.

(** X5.  [JoinWithCommas] leaves out the items that are only white
    space, wherever they stand, and joins the trimmed others with a
    comma and a space: a first item that is not blank comes out trimmed,
    followed by the separator and the join of the rest when the rest has
    an item that is not blank; the result is empty only when every item
    is blank; and items may be trimmed beforehand or not. *)
Theorem JoinWithCommas_ignores_blank_items (l1 l2 : list string) (x : string) :
  (strings.TrimSpace x = EmptyString ->
   JoinWithCommas (l1 ++ x :: l2)%list = JoinWithCommas (l1 ++ l2)%list)
  /\ (Forall (fun s => strings.TrimSpace s = EmptyString) l1 ->
      JoinWithCommas l1 = EmptyString)
  /\ JoinWithCommas (map strings.TrimSpace l1) = JoinWithCommas l1
  /\ JoinWithCommas [x] = strings.TrimSpace x
  /\ (strings.TrimSpace x <> EmptyString -> JoinWithCommas l2 <> EmptyString ->
      JoinWithCommas (x :: l2) = strings.TrimSpace x +:+ ", " +:+ JoinWithCommas l2)
  /\ (strings.TrimSpace x <> EmptyString -> JoinWithCommas l2 = EmptyString ->
      JoinWithCommas (x :: l2) = strings.TrimSpace x)
  /\ (JoinWithCommas l1 = EmptyString ->
      Forall (fun s => strings.TrimSpace s = EmptyString) l1).
Proof.
  unfold JoinWithCommas. split; [|split; [|split; [|split; [|split; [|split]]]]].
  - intros Hx. rewrite !trimmed_non_empty_app. simpl. now rewrite Hx.
  - intros Hall. induction Hall as [|s l Hs _ IH]; [reflexivity|].
    simpl. rewrite Hs. simpl. exact IH.
  - rewrite List.map_map. f_equal. f_equal. apply List.map_ext. apply TrimSpace_idempotent.
  - simpl. destruct (strings.TrimSpace x); reflexivity.
  - intros Hx Hl2. simpl. apply is_empty_false in Hx. rewrite Hx. simpl.
    destruct (List.filter _ (map strings.TrimSpace l2)); [now contradiction Hl2|reflexivity].
  - intros Hx Hl2. simpl. apply is_empty_false in Hx. rewrite Hx. simpl.
    destruct (List.filter _ (map strings.TrimSpace l2)) as [|y rest] eqn:Hf;
      [reflexivity|].
    exfalso. revert Hl2. apply Join_not_empty.
    assert (Hin : In y (List.filter (fun s => negb (strings.is_empty s))
                          (map strings.TrimSpace l2))) by (rewrite Hf; now left).
    apply List.filter_In in Hin as [_ Hy]. apply is_empty_false.
    now destruct (strings.is_empty y).
  - intros Hempty. apply trimmed_non_empty_nil.
    destruct (List.filter _ (map strings.TrimSpace l1)) as [|y rest] eqn:Hf;
      [reflexivity|].
    exfalso. revert Hempty. apply Join_not_empty.
    assert (Hin : In y (List.filter (fun s => negb (strings.is_empty s))
                          (map strings.TrimSpace l1))) by (rewrite Hf; now left).
    apply List.filter_In in Hin as [_ Hy]. apply is_empty_false.
    now destruct (strings.is_empty y).
Qed.

Lemma JoinWithCommas_ignores_blank_items_witness :
  JoinWithCommas ["a"; "  "; " b"] = JoinWithCommas ["a"; " b"]
  /\ JoinWithCommas [" "; EmptyString] = EmptyString
  /\ JoinWithCommas [" a"; "b "; "c"] = "a" +:+ ", " +:+ JoinWithCommas ["b "; "c"].
Proof.
  split; [|split].
  - apply (proj1 (JoinWithCommas_ignores_blank_items ["a"] [" b"] "  ")). reflexivity.
  - apply (proj1 (proj2 (JoinWithCommas_ignores_blank_items [" "; EmptyString] [] "x"))).
    repeat constructor.
  - apply (proj1 (proj2 (proj2 (proj2 (proj2
             (JoinWithCommas_ignores_blank_items [] ["b "; "c"] " a"))))));
      discriminate.
Defined.

(** [IndentLines] and [FormatComment] *)

Lemma nl_line_feed : nl = String line_feed EmptyString.
Proof. reflexivity. Qed.

Lemma no_line_feed_app s t : no_line_feed (s +:+ t) = no_line_feed s && no_line_feed t.
Proof. apply all_bytes_app. Qed.

Lemma lines_have_no_line_feed s : Forall (fun l => no_line_feed l = true) (lines_of s).
Proof. apply Split_parts_without_sep. Qed.

Lemma lines_of_Join l :
  l <> [] -> Forall (fun s => no_line_feed s = true) l ->
  lines_of (strings.Join l nl) = l.
Proof. intros Hne Hall. apply (Split_Join l line_feed Hne Hall). Qed.

Lemma map_not_nil {A B} (f : A -> B) l : l <> [] -> map f l <> [].
Proof. destruct l; [congruence | discriminate]. Qed.

Lemma IndentLines_lines text indent :
  text <> EmptyString -> no_line_feed indent = true ->
  lines_of (IndentLines text indent) = map (indent_line indent) (lines_of text).
Proof.
  intros Hne Hind. unfold IndentLines.
  destruct text as [|a r]; [congruence|]. cbn [strings.is_empty].
  cbv zeta. apply lines_of_Join.
  - apply map_not_nil, Split_not_nil.
  - apply List.Forall_map. eapply List.Forall_impl; [|apply lines_have_no_line_feed].
    intros l Hl. simpl. unfold indent_line.
    destruct (negb _); [|reflexivity]. now rewrite no_line_feed_app, Hind, Hl.
Qed.

(** X6.  [IndentLines] works line by line: for a non-empty text and an
    indent without line feed, the result has as many lines as the text,
    each line that is only white space emptied and each other line
    preceded by the indent.  With the empty indent the text comes back
    unchanged when its blank lines are empty. *)
Theorem IndentLines_line_by_line (text indent : string) :
  (text <> EmptyString -> no_line_feed indent = true ->
   lines_of (IndentLines text indent) = map (indent_line indent) (lines_of text))
  /\ (Forall (fun l => strings.TrimSpace l = EmptyString -> l = EmptyString)
             (lines_of text) ->
      IndentLines text EmptyString = text)
  /\ IndentLines EmptyString indent = EmptyString.
Proof.
  split; [apply IndentLines_lines | split; [|reflexivity]].
  intros Hblank. unfold IndentLines.
  destruct text as [|a r]; [reflexivity|]. cbn [strings.is_empty]. cbv zeta.
  assert (Hmap : map (fun line => if negb (strings.is_empty (strings.TrimSpace line))
                                  then EmptyString +:+ line else EmptyString)
                     (lines_of (String a r)) = lines_of (String a r)).
  { induction Hblank as [|l ls Hl _ IH]; [reflexivity|].
    simpl. f_equal; [|exact IH].
    destruct (strings.TrimSpace l) eqn:Ht; simpl; [now rewrite Hl | reflexivity]. }
  unfold lines_of, line_feed in Hmap. rewrite Hmap. apply (Join_Split (String a r) "010").
Qed.

Lemma IndentLines_line_by_line_witness :
  lines_of (IndentLines ("a" +:+ nl +:+ "  " +:+ nl +:+ " b") "--")
  = ["--a"; EmptyString; "-- b"]
  /\ IndentLines ("a" +:+ nl +:+ nl +:+ " b") EmptyString = "a" +:+ nl +:+ nl +:+ " b".
Proof.
  split.
  - apply (proj1 (IndentLines_line_by_line ("a" +:+ nl +:+ "  " +:+ nl +:+ " b") "--"));
      [discriminate | reflexivity].
  - apply (proj1 (proj2 (IndentLines_line_by_line ("a" +:+ nl +:+ nl +:+ " b")
                           EmptyString))).
    repeat constructor; discriminate.
Defined.

(** Only bytes that belong to white-space runes are trimmed. *)

Lemma space_part_ascii a : strings.asciiSpace a = true -> space_part a = true.
Proof. unfold space_part. now intros ->. Qed.

Lemma space_part_high a n : strings.code a = n -> (128 <= n)%N -> space_part a = true.
Proof.
  unfold space_part. intros <- H. apply N.leb_le in H. rewrite H. apply orb_true_r.
Qed.

Lemma space_rune_sound : rune_sound strings.space_rune.
Proof.
  intros s n. unfold strings.space_rune.
  destruct s as [|a r]; [discriminate|].
  destruct (strings.asciiSpace a) eqn:Ha.
  { intros [= <-]. exists (String a EmptyString), r. repeat split.
    simpl. now rewrite (space_part_ascii a Ha). }
  destruct r as [|b r]; [discriminate|].
  destruct ((strings.code a =? 194)%N && _) eqn:E2.
  { intros [= <-]. exists (String a (String b EmptyString)), r. repeat split.
    apply andb_true_iff in E2 as [Ea Eb]. apply N.eqb_eq in Ea.
    simpl. rewrite (space_part_high a 194 Ea) by lia.
    apply orb_true_iff in Eb as [Eb|Eb]; apply N.eqb_eq in Eb;
      now rewrite (space_part_high b _ Eb) by lia. }
  destruct r as [|c r]; [discriminate|].
  match goal with |- (if ?cond then _ else _) = _ -> _ => destruct cond eqn:E3 end;
    [|discriminate].
  intros [= <-]. exists (String a (String b (String c EmptyString))), r. repeat split.
  assert (Habc : (128 <= strings.code a /\ 128 <= strings.code b /\ 128 <= strings.code c)%N).
  { repeat (apply orb_true_iff in E3 as [E3|E3]);
      repeat (apply andb_true_iff in E3 as [E3 ?]);
      repeat match goal with
             | H : (_ =? _)%N = true |- _ => apply N.eqb_eq in H
             | H : (_ <=? _)%N = true |- _ => apply N.leb_le in H
             | H : (_ || _)%bool = true |- _ => apply orb_true_iff in H as [H|H]
             | H : (_ && _)%bool = true |- _ => apply andb_true_iff in H as [H ?]
             end; lia. }
  destruct Habc as (A & B & C). simpl.
  now rewrite (space_part_high a _ eq_refl A), (space_part_high b _ eq_refl B),
    (space_part_high c _ eq_refl C).
Qed.

Lemma space_rune_rev_sound : rune_sound strings.space_rune_rev.
Proof.
  intros s n. unfold strings.space_rune_rev.
  destruct s as [|c r]; [discriminate|].
  destruct (strings.asciiSpace c) eqn:Hc.
  { intros [= <-]. exists (String c EmptyString), r. repeat split.
    simpl. now rewrite (space_part_ascii c Hc). }
  destruct r as [|b r]; [discriminate|].
  destruct ((strings.code b =? 194)%N && _) eqn:E2.
  { intros [= <-]. exists (String c (String b EmptyString)), r. repeat split.
    apply andb_true_iff in E2 as [Eb Ec]. apply N.eqb_eq in Eb.
    simpl. rewrite (space_part_high b 194 Eb) by lia.
    apply orb_true_iff in Ec as [Ec|Ec]; apply N.eqb_eq in Ec;
      now rewrite (space_part_high c _ Ec) by lia. }
  destruct r as [|a r]; [discriminate|].
  destruct (strings.space_rune (String a (String b (String c EmptyString))))
    as [|[|[|[|m]]]] eqn:E3; try discriminate.
  intros [= <-].
  destruct (space_rune_sound _ _ E3) as (x & y & Hxy & Hlen & Hall).
  destruct x as [|x1 [|x2 [|x3 [|x4 x]]]]; try discriminate Hlen.
  injection Hxy as <- <- <- _.
  exists (String c (String b (String a EmptyString))), r. repeat split.
  simpl in *. apply andb_true_iff in Hall as [Ha Hall].
  apply andb_true_iff in Hall as [Hb Hall]. apply andb_true_iff in Hall as [Hc' _].
  now rewrite Ha, Hb, Hc'.
Qed.

Lemma drop_while_dropped rune :
  rune_sound rune ->
  forall s k x y,
    s = x +:+ y -> String.length x = k -> all_bytes space_part x = true ->
    exists pre, s = pre +:+ strings.drop_while rune k s
                /\ all_bytes space_part pre = true.
Proof.
  intros Hr. induction s as [|a r IH]; intros k x y Hs Hlen Hall.
  - exists EmptyString. now destruct k.
  - destruct k as [|k]; cbn [strings.drop_while].
    + destruct (rune (String a r)) as [|n] eqn:Hn.
      * now exists EmptyString.
      * destruct (Hr _ _ Hn) as (x' & y' & Hs' & Hlen' & Hall').
        destruct x' as [|a' x']; [discriminate|].
        simpl in Hs'. injection Hs' as <- Hr'. simpl in Hlen'. injection Hlen' as Hlen'.
        simpl in Hall'. apply andb_true_iff in Hall' as [Ha Hx'].
        destruct (IH n x' y' Hr' Hlen' Hx') as (pre & Hpre & Hsp).
        exists (String a pre). split; [simpl; now rewrite <- Hpre|]. simpl. now rewrite Ha.
    + destruct x as [|a' x]; [discriminate|].
      simpl in Hs. injection Hs as <- Hr'. simpl in Hlen. injection Hlen as Hlen.
      simpl in Hall. apply andb_true_iff in Hall as [Ha Hx].
      destruct (IH k x y Hr' Hlen Hx) as (pre & Hpre & Hsp).
      exists (String a pre). split; [simpl; now rewrite <- Hpre|]. simpl. now rewrite Ha.
Qed.

Lemma rev_empty s : strings.rev s = EmptyString -> s = EmptyString.
Proof. intros H. apply (f_equal strings.rev) in H. now rewrite rev_involutive in H. Qed.

Lemma TrimSpace_empty_space_parts s :
  strings.TrimSpace s = EmptyString -> all_bytes space_part s = true.
Proof.
  unfold strings.TrimSpace, strings.TrimRightSpace, strings.TrimLeftSpace. intros H.
  apply rev_empty in H.
  destruct (drop_while_dropped _ space_rune_sound s 0 EmptyString s eq_refl eq_refl eq_refl)
    as (pre & Hpre & Hsp).
  set (u := strings.drop_while strings.space_rune 0 s) in *.
  destruct (drop_while_dropped _ space_rune_rev_sound (strings.rev u) 0 EmptyString
              (strings.rev u) eq_refl eq_refl eq_refl) as (pre2 & Hpre2 & Hsp2).
  rewrite H, append_nil_r in Hpre2.
  rewrite Hpre, all_bytes_app, Hsp. simpl.
  rewrite <- all_bytes_rev, Hpre2. exact Hsp2.
Qed.

Lemma visible_not_space_part a : ascii_visible a = true -> space_part a = false.
Proof.
  unfold ascii_visible, space_part. intros H. apply andb_true_iff in H as [Hlt Hsp].
  apply negb_true_iff in Hsp. rewrite Hsp. apply N.ltb_lt in Hlt.
  simpl. apply N.leb_gt. exact Hlt.
Qed.

Lemma TrimSpace_visible_head a r :
  ascii_visible a = true -> strings.TrimSpace (String a r) <> EmptyString.
Proof.
  intros Ha H. apply TrimSpace_empty_space_parts in H. simpl in H.
  rewrite (visible_not_space_part a Ha) in H. discriminate.
Qed.

Lemma HasPrefix_app p rest : strings.HasPrefix (p +:+ rest) p = true.
Proof.
  unfold strings.HasPrefix. induction p as [|a p IH]; simpl.
  - now destruct rest.
  - destruct (Ascii.ascii_dec a a); [exact IH | congruence].
Qed.

(** The indent is made of spaces. *)
Lemma repeat_nat_no_line_feed n : no_line_feed (strings.repeat_nat "    " n) = true.
Proof.
  induction n as [|n IH]; [reflexivity|].
  cbn [strings.repeat_nat]. rewrite no_line_feed_app, IH. reflexivity.
Qed.

Lemma getIndent_no_line_feed {rt : Runtime} c ind :
  getIndent c = Some ind -> no_line_feed ind = true.
Proof. intros H. apply getIndent_Some in H as [_ ->]. apply repeat_nat_no_line_feed. Qed.

Lemma comment_line_dashes line : exists rest, comment_line line = "--" +:+ rest.
Proof.
  unfold comment_line. cbv zeta. destruct (negb _).
  - now exists (" " +:+ strings.TrimSpace line).
  - now exists EmptyString.
Qed.

Lemma comment_line_no_line_feed line :
  no_line_feed line = true -> no_line_feed (comment_line line) = true.
Proof.
  intros H. unfold comment_line. cbv zeta. destruct (negb _); [|reflexivity].
  rewrite no_line_feed_app. simpl. now apply TrimSpace_all_bytes.
Qed.

Lemma FormatComment_lines text :
  text <> EmptyString ->
  lines_of (FormatComment text) = map comment_line (lines_of (strings.TrimSpace text)).
Proof.
  intros Hne. unfold FormatComment.
  destruct text as [|a r]; [congruence|]. cbn [strings.is_empty]. cbv zeta.
  apply lines_of_Join.
  - apply map_not_nil, Split_not_nil.
  - apply List.Forall_map. eapply List.Forall_impl; [|apply lines_have_no_line_feed].
    intros l Hl. now apply comment_line_no_line_feed.
Qed.

Lemma FormatComment_not_empty text : text <> EmptyString -> FormatComment text <> EmptyString.
Proof.
  intros Hne H. pose proof (FormatComment_lines text Hne) as Hl. rewrite H in Hl.
  pose proof (Split_not_nil (strings.TrimSpace text) line_feed) as Hnn.
  fold (lines_of (strings.TrimSpace text)) in Hnn.
  destruct (lines_of (strings.TrimSpace text)) as [|l ls]; [congruence|].
  simpl in Hl. injection Hl as Hl _.
  destruct (comment_line_dashes l) as [rest Hrest]. rewrite Hrest in Hl. discriminate.
Qed.

(** X7.  [FormatComment] turns every line of the trimmed text into a
    comment line: the result has as many lines, and each one starts with
    two dashes.  The [comment] handler writes these lines behind the
    indent, so every line of its output is a comment. *)
Theorem comment_lines_are_comments {ext : External} (node : Node) (c : Compiler)
    (text ind : string) :
  (text <> EmptyString ->
   lines_of (FormatComment text) = map comment_line (lines_of (strings.TrimSpace text))
   /\ Forall (fun l => strings.HasPrefix l "--" = true) (lines_of (FormatComment text)))
  /\ (strings.TrimSpace (Content node) <> EmptyString ->
      getIndent c = Some ind ->
      exists out,
        commentHandler node c = Return out None c
        /\ Forall (fun l => strings.HasPrefix l (ind +:+ "--") = true) (lines_of out)).
Proof.
  split.
  - intros Hne. split; [now apply FormatComment_lines|].
    rewrite (FormatComment_lines text Hne). apply List.Forall_map.
    apply List.Forall_forall. intros l _.
    destruct (comment_line_dashes l) as [rest ->]. apply HasPrefix_app.
  - intros Hne Hind. unfold commentHandler. cbv zeta.
    destruct (strings.TrimSpace (Content node)) as [|a r] eqn:Ht; [congruence|].
    cbn [strings.is_empty]. unfold with_indent. rewrite Hind. unfold ret.
    eexists. split; [reflexivity|].
    rewrite IndentLines_lines;
      [| apply FormatComment_not_empty; discriminate
       | now apply (getIndent_no_line_feed c)].
    rewrite FormatComment_lines by discriminate.
    rewrite List.map_map. apply List.Forall_map. apply List.Forall_forall. intros l _.
    destruct (comment_line_dashes l) as [rest Hrest]. rewrite Hrest.
    unfold indent_line.
    destruct (strings.TrimSpace ("--" +:+ rest)) eqn:Htrim.
    + exfalso. revert Htrim. apply TrimSpace_visible_head. reflexivity.
    + cbn [strings.is_empty negb]. rewrite <- append_assoc. apply HasPrefix_app.
Qed.

Lemma comment_lines_are_comments_witness :
  Forall (fun l => strings.HasPrefix l "--" = true)
         (lines_of (FormatComment ("a" +:+ nl +:+ nl +:+ " b")))
  /\ exists out,
       commentHandler (ext := demo_ext) (el "comment" [] (" x" +:+ nl +:+ "y ") [])
         (indent_incr NewCompiler)
       = Return out None (indent_incr NewCompiler)
       /\ Forall (fun l => strings.HasPrefix l ("    " +:+ "--") = true) (lines_of out).
Proof.
  split.
  - apply (proj1 (comment_lines_are_comments (ext := demo_ext) break_node NewCompiler
                    ("a" +:+ nl +:+ nl +:+ " b") EmptyString)).
    discriminate.
  - apply (proj2 (comment_lines_are_comments (ext := demo_ext)
                    (el "comment" [] (" x" +:+ nl +:+ "y ") []) (indent_incr NewCompiler)
                    EmptyString "    ")); [discriminate | reflexivity].
Defined.

(** ** More about the engine *)

Section Leaves.

Context {ext : External}.

Lemma keeps_ret code c : keeps c (ret code c).
Proof. reflexivity. Qed.

Lemma keeps_fail msg c : keeps c (fail msg c).
Proof. reflexivity. Qed.

Lemma keeps_with_indent c k : (forall ind, keeps c (k ind)) -> keeps c (with_indent c k).
Proof. unfold with_indent. destruct (getIndent c); simpl; auto. Qed.

Lemma tableHandler_keeps node c : int_ok c -> keeps c (tableHandler node c).
Proof.
  intros Hint. unfold tableHandler. cbv zeta.
  rewrite (indent_decr_incr_int c Hint).
  destruct (negb (strings.is_empty _)).
  - destruct (negb (IsValidIdentifier _)); [reflexivity|].
    apply keeps_with_indent. intros ind.
    destruct (tableEntries _ _ _); [|exact I].
    apply keeps_with_indent. intros. reflexivity.
  - destruct (tableEntries _ _ _); [|exact I].
    apply keeps_with_indent. intros. reflexivity.
Qed.

Ltac keeps_leaf :=
  repeat first
    [ reflexivity
    | apply keeps_with_indent; intros
    | match goal with |- keeps _ (if ?b then _ else _) => destruct b end
    | progress cbv zeta ].

Lemma run_handler_leaf_keeps rec h node c :
  is_builtin h = true -> is_block h = false -> int_ok c ->
  keeps c (run_handler rec h node c).
Proof.
  intros Hb Hl Hint.
  destruct h; try discriminate Hb; try discriminate Hl; simpl;
    try (now apply tableHandler_keeps);
    unfold setHandler, breakHandler, callHandler, returnHandler, argHandler,
      entryHandler, itemHandler, arrayHandler, printHandler, warnHandler,
      errorHandler, rawHandler, commentHandler, assertHandler, typeofHandler;
    keeps_leaf.
Qed.

(** X8.  A handler that opens no block leaves the compiler exactly as it
    found it, whether it returns an output or an error: only the block
    handlers can leave the indent changed. *)
Theorem leaf_handlers_keep_compiler rec (h : Handler) (node : Node) (c : Compiler)
    code err c' :
  is_builtin h = true -> is_block h = false -> int_ok c ->
  run_handler rec h node c = Return code err c' ->
  c' = c.
Proof.
  intros Hb Hl Hint H.
  pose proof (run_handler_leaf_keeps rec h node c Hb Hl Hint) as Hk.
  now rewrite H in Hk.
Qed.

End Leaves.

Lemma leaf_handlers_keep_compiler_witness :
  indent_incr NewCompiler = indent_incr NewCompiler.
Proof.
  apply (leaf_handlers_keep_compiler (ext := demo_ext) (compileNode (ext := demo_ext))
           HSet (el "set" [attr "var" "1x"] "1" []) (indent_incr NewCompiler)
           EmptyString (Some "invalid variable name: 1x") (indent_incr NewCompiler)
           eq_refl eq_refl).
  - apply int_ok_incr.
  - reflexivity.
Defined.

(** X9.  Compiling never changes the registry, and a compilation that
    returns no error leaves the compiler exactly as it was; the handlers
    that callers have registered are taken to be pure. *)
Theorem compile_keeps_registry_and_restores_on_success {ext : External}
    (c : Compiler) (s : string) code err c' :
  int_ok c -> registry_ok c ->
  CompileFromString c s = Return code err c' ->
  handlers c' = handlers c /\ int_ok c' /\ (err = None -> c' = c).
Proof.
  intros Hint Hreg H. pose proof (CompileFromString_frame c s Hint Hreg) as Hf.
  now rewrite H in Hf.
Qed.

Lemma compile_keeps_registry_and_restores_on_success_witness :
  handlers NewCompiler = handlers NewCompiler /\ int_ok NewCompiler
  /\ (None = None :> option string -> NewCompiler = NewCompiler).
Proof.
  apply (compile_keeps_registry_and_restores_on_success (ext := demo_ext) NewCompiler
           "<script><break/><arg/><break/></script>" ("break" +:+ nl +:+ "break") None
           NewCompiler NewCompiler_int_ok
           (builtin_only_registry_ok _ NewCompiler_builtin_only)).
  vm_compute. reflexivity.
Defined.

(** The indent after a call *)

Lemma height_child node child :
  In child (Nodes node) -> (S (height child) <= height node)%nat.
Proof.
  destruct node as [name attrs content children]. simpl.
  induction children as [|x rest IH]; simpl; [tauto|].
  intros [->|Hin]; [lia|]. specialize (IH Hin). lia.
Qed.

Section Bound.

Context {ext : External}.

Lemma raised_by_keeps n c o : keeps c o -> raised_by n c o.
Proof. destruct o as [|code err c']; simpl; [auto|]. intros ->. split; [lia | now right]. Qed.

Variable rec : Compiler -> Node -> outcome.

Lemma compileChildren_raised children :
  Forall (frames rec) children ->
  Forall (bounded rec) children ->
  forall n, (forall child, In child children -> (height child <= n)%nat) ->
  forall c result, int_ok c -> builtin_only c ->
    raised_by n c (compileChildren rec children c result).
Proof.
  intros Hf Hb n. revert Hb.
  induction Hf as [|child rest Hchild _ IH]; intros Hb Hn c result Hint Hreg; simpl.
  - split; [lia | now right].
  - apply Forall_cons_1 in Hb as [Hb1 Hb].
    specialize (Hchild c Hint (builtin_only_registry_ok c Hreg)).
    specialize (Hb1 c Hint Hreg).
    unfold frame in Hchild.
    destruct (rec c child) as [|code [e|] c1]; simpl in *; [exact I| |].
    + destruct Hb1 as [Hb1 _]. pose proof (Hn child (or_introl eq_refl)).
      split; [lia | now left].
    + destruct Hchild as (_ & _ & Heq). rewrite (Heq eq_refl). apply IH; auto.
Qed.

Lemma block_raised node c ind result k :
  getIndent c = Some ind -> builtin_only c ->
  Forall (frames rec) (Nodes node) ->
  Forall (bounded rec) (Nodes node) ->
  (forall r, keeps c (k r (indent_incr c))) ->
  raised_by (height node) c
    (after_children (compileChildren rec (Nodes node) (indent_incr c) result) k).
Proof.
  intros Hind Hreg Hf Hb Hk.
  destruct (Nodes node) as [|x xs] eqn:Hn.
  { simpl. apply raised_by_keeps, Hk. }
  assert (Hpos : height node <> 0%nat).
  { destruct node as [? ? ? children]. simpl in Hn. subst children. simpl. lia. }
  rewrite <- Hn in *. clear Hn x xs.
  pose proof (compileChildren_frame rec _ Hf (indent_incr c) result (int_ok_incr c)
                (builtin_only_registry_ok (indent_incr c) Hreg)) as Hfr.
  assert (Hh : forall child, In child (Nodes node) ->
                 (height child <= Nat.pred (height node))%nat).
  { intros ch Hin. apply height_child in Hin. lia. }
  pose proof (compileChildren_raised _ Hf Hb (Nat.pred (height node)) Hh
                (indent_incr c) result (int_ok_incr c) Hreg) as Hr.
  pose proof (indent_incr_exact c ind Hind) as Hinc.
  unfold frame in Hfr.
  destruct (compileChildren rec (Nodes node) (indent_incr c) result) as [|code [e|] c1];
    simpl in *; [exact I| |].
  - destruct Hr as [Hr _]. split; [lia | now left].
  - destruct Hfr as (_ & _ & Heq). rewrite (Heq eq_refl).
    apply raised_by_keeps, Hk.
Qed.

Ltac raised_block Hf Hb Hreg :=
  repeat first
    [ match goal with |- raised_by _ _ (if ?b then _ else _) => destruct b end
    | progress cbv zeta
    | apply raised_by_keeps; reflexivity
    | match goal with
      | |- raised_by _ ?c (with_indent ?c _) =>
          let ind := fresh "ind" in
          let Hind := fresh "Hind" in
          unfold with_indent at 1; destruct (getIndent c) as [ind|] eqn:Hind;
          [|exact I]
      end
    | eapply block_raised;
      [ eassumption | exact Hreg | exact Hf | exact Hb
      | intros; cbv zeta; erewrite indent_incr_decr by eassumption;
        repeat first [reflexivity | apply keeps_with_indent; intros] ] ].

Lemma run_handler_raised h node c :
  is_builtin h = true ->
  Forall (frames rec) (Nodes node) ->
  Forall (bounded rec) (Nodes node) ->
  int_ok c -> builtin_only c ->
  raised_by (height node) c (run_handler rec h node c).
Proof.
  intros Hb Hf Hbd Hint Hreg.
  destruct (is_block h) eqn:Hblock.
  - destruct h; try discriminate Hblock; simpl;
      unfold ifHandler, elseifHandler, elseHandler, forHandler, whileHandler,
        repeatHandler, functionHandler; raised_block Hf Hbd Hreg.
  - apply raised_by_keeps. now apply run_handler_leaf_keeps.
Qed.

End Bound.

Section Bound_compileNode.

Context {ext : External}.

Lemma all_children_frame children : Forall (frames compileNode) children.
Proof. induction children; constructor; auto using compileNode_frame. Qed.

Lemma compileNode_raised node : bounded compileNode node.
Proof.
  induction node as [name attrs content children IH] using Node_ind.
  intros c Hint Hreg. rewrite compileNode_eq. unfold compileNode_body.
  destruct (strings.is_empty _).
  - cbv zeta. destruct (strings.is_empty _); apply raised_by_keeps; reflexivity.
  - destruct (handlers c !! _) as [h|] eqn:Hh; [|apply raised_by_keeps; reflexivity].
    apply run_handler_raised; auto.
    + eapply Hreg; eauto.
    + apply all_children_frame.
Qed.

(** X10.  With the built-in handlers, a call of [compileNode] that
    returns leaves the registry as it was and the indent where it was or
    higher, by at most the height of the tree; the indent is higher only
    when an error is returned. *)
Theorem compileNode_raises_indent_by_at_most_height (c : Compiler) (node : Node)
    code err c' :
  int_ok c -> builtin_only c ->
  compileNode c node = Return code err c' ->
  handlers c' = handlers c
  /\ indent c <= indent c' <= indent c + Z.of_nat (height node)
  /\ (indent c' <> indent c -> err <> None).
Proof.
  intros Hint Hreg H.
  pose proof (compileNode_raised node c Hint Hreg) as Hr.
  pose proof (compileNode_frame node c Hint (builtin_only_registry_ok c Hreg)) as Hf.
  rewrite H in Hr, Hf. destruct Hr as [Hr Hor], Hf as (Hh & _ & _).
  split; [exact Hh | split; [exact Hr|]]. intros Hne. destruct Hor; congruence.
Qed.

End Bound_compileNode.

Lemma compileNode_raises_indent_by_at_most_height_witness :
  handlers (indent_incr NewCompiler) = handlers NewCompiler
  /\ indent NewCompiler <= indent (indent_incr NewCompiler)
     <= indent NewCompiler + Z.of_nat (height leaky_if)
  /\ (indent (indent_incr NewCompiler) <> indent NewCompiler ->
      Some "unknown tag: bogus" <> None).
Proof.
  apply (compileNode_raises_indent_by_at_most_height (ext := demo_ext) NewCompiler
           leaky_if EmptyString (Some "unknown tag: bogus") (indent_incr NewCompiler)
           NewCompiler_int_ok NewCompiler_builtin_only).
  vm_compute. reflexivity.
Defined.


(** No panic *)

Section Room.

Context {rt : Runtime}.







End Room.

Section NoPanic.

Context {ext : External}.






Variable rec : Compiler -> Node -> outcome.





End NoPanic.

Section NoPanic_compileNode.

Context {ext : External}.




End NoPanic_compileNode.


(** The registry *)

Lemma lookup_Register c t h tag :
  handlers (Register c t h) !! tag
  = if String.eqb t tag then Some h else handlers c !! tag.
Proof.
  unfold Register. cbn [handlers].
  destruct (String.eqb_spec t tag) as [->|Hne].
  - apply lookup_insert_eq.
  - now apply lookup_insert_ne.
Qed.

Lemma NewCompiler_lookup tag :
  handlers NewCompiler !! tag
  = if String.eqb "typeof" tag then Some HTypeof
    else if String.eqb "assert" tag then Some HAssert
    else if String.eqb "comment" tag then Some HComment
    else if String.eqb "raw" tag then Some HRaw
    else if String.eqb "error" tag then Some HError
    else if String.eqb "warn" tag then Some HWarn
    else if String.eqb "print" tag then Some HPrint
    else if String.eqb "item" tag then Some HItem
    else if String.eqb "array" tag then Some HArray
    else if String.eqb "entry" tag then Some HEntry
    else if String.eqb "table" tag then Some HTable
    else if String.eqb "arg" tag then Some HArg
    else if String.eqb "return" tag then Some HReturn
    else if String.eqb "call" tag then Some HCall
    else if String.eqb "function" tag then Some HFunction
    else if String.eqb "break" tag then Some HBreak
    else if String.eqb "repeat" tag then Some HRepeat
    else if String.eqb "while" tag then Some HWhile
    else if String.eqb "for" tag then Some HFor
    else if String.eqb "else" tag then Some HElse
    else if String.eqb "elseif" tag then Some HElseif
    else if String.eqb "if" tag then Some HIf
    else if String.eqb "set" tag then Some HSet
    else None.
Proof.
  unfold NewCompiler, registerBuiltins, registerUtilityCommands, registerIOCommands,
    registerDataCommands, registerFunctionCommands, registerControlFlowCommands,
    registerVariableCommands.
  cbv zeta. rewrite !lookup_Register. cbn [handlers]. now rewrite lookup_empty.
Qed.

Lemma NewCompiler_registers tag :
  In tag builtin_tags <-> handlers NewCompiler !! tag <> None.
Proof.
  rewrite NewCompiler_lookup. split.
  - unfold builtin_tags. cbn [In].
    intros H; repeat (destruct H as [<-|H]; [vm_compute; discriminate|]); destruct H.
  - repeat match goal with
           | |- (if String.eqb ?t tag then _ else _) <> None -> _ =>
               destruct (String.eqb_spec t tag) as [<-|_];
               [intros _; unfold builtin_tags; cbn [In];
                repeat (first [left; reflexivity | right])|]
           end.
    congruence.
Qed.

Section Registry.

Context {ext : External}.

(** X12.  A fresh compiler knows the 23 built-in tags and no other: an
    element with one of these names is handed to a handler of the
    package, any other named element is refused as an unknown tag, and
    the compiler is left as it was. *)
Theorem NewCompiler_knows_the_builtin_tags_only (node : Node) :
  Local (XMLName node) <> EmptyString ->
  (In (Local (XMLName node)) builtin_tags ->
     exists h, is_builtin h = true
       /\ compileNode NewCompiler node = run_handler compileNode h node NewCompiler)
  /\ (~ In (Local (XMLName node)) builtin_tags ->
     compileNode NewCompiler node
     = Return EmptyString (Some ("unknown tag: " +:+ Local (XMLName node))) NewCompiler).
Proof.
  intros Hname. rewrite compileNode_eq. unfold compileNode_body.
  rewrite (proj2 (is_empty_false _) Hname).
  split; intros Hin.
  - apply NewCompiler_registers in Hin.
    destruct (handlers NewCompiler !! _) as [h|] eqn:Hh; [|congruence].
    exists h. split; [|reflexivity].
    exact (NewCompiler_builtin_only _ _ Hh).
  - destruct (handlers NewCompiler !! _) as [h|] eqn:Hh; [|reflexivity].
    exfalso. apply Hin, NewCompiler_registers. congruence.
Qed.

(** X13.  [Register] replaces: of two handlers registered under one tag
    the second one is called, also where the first is a built-in; an
    element with another name is handed to the handler it had. *)
Theorem Register_replaces_the_handler (c : Compiler) (tag : string) (h : Handler)
    (node : Node) :
  Local (XMLName node) <> EmptyString ->
  (forall h0, Register (Register c tag h0) tag h = Register c tag h)
  /\ (Local (XMLName node) = tag ->
      compileNode (Register c tag h) node
      = run_handler compileNode h node (Register c tag h))
  /\ (Local (XMLName node) <> tag ->
      forall h1, handlers c !! Local (XMLName node) = Some h1 ->
      compileNode (Register c tag h) node
      = run_handler compileNode h1 node (Register c tag h)).
Proof.
  intros Hname. split; [|split].
  - intros h0. unfold Register. cbn [handlers indent]. f_equal. apply insert_insert_eq.
  - intros <-. rewrite compileNode_eq. unfold compileNode_body.
    rewrite (proj2 (is_empty_false _) Hname), lookup_Register, String.eqb_refl. reflexivity.
  - intros Hne h1 Hh1. rewrite compileNode_eq. unfold compileNode_body.
    rewrite (proj2 (is_empty_false _) Hname), lookup_Register.
    destruct (String.eqb_spec tag (Local (XMLName node))) as [E|_]; [congruence|].
    now rewrite Hh1.
Qed.

End Registry.

Lemma NewCompiler_knows_the_builtin_tags_only_witness :
  compileNode (ext := demo_ext) NewCompiler bogus_node
  = Return EmptyString (Some "unknown tag: bogus") NewCompiler.
Proof.
  apply (proj2 (NewCompiler_knows_the_builtin_tags_only (ext := demo_ext) bogus_node
                  ltac:(discriminate))).
  vm_compute. intuition discriminate.
Defined.

Lemma Register_replaces_the_handler_witness :
  compileNode (ext := demo_ext) (Register NewCompiler "break" (HCustom 0)) break_node
  = @custom demo_ext 0 break_node (Register NewCompiler "break" (HCustom 0)).
Proof.
  apply (proj1 (proj2 (Register_replaces_the_handler (ext := demo_ext) NewCompiler "break"
                         (HCustom 0) break_node ltac:(discriminate)))).
  reflexivity.
Defined.

(** The output of the block handlers *)

Section Blocks.

Context {ext : External}.

Ltac block_output Hreg Hind Hch :=
  unfold with_indent; rewrite Hind;
  rewrite (block_body _ _ _ _ _ _ _ Hreg Hind Hch); cbv zeta;
  rewrite ?(indent_incr_decr _ _ Hind); unfold with_indent; rewrite ?Hind;
  unfold ret; rewrite ?append_assoc; reflexivity.

(** X14.  The conditional handlers, when the children compile: [if]
    writes its header at the indent of the compiler, the non-empty
    outputs of the children (compiled one level deeper) each followed by
    a line feed, and [end] at the same indent; [elseif] and [else] write
    a header and the children in the same way and no [end], so their
    output ends with a line feed.  Each leaves the compiler as it was. *)
Theorem conditional_blocks_output (c : Compiler) (node : Node) (ind : string)
    (codes : list string) (c1 : Compiler) :
  registry_ok c ->
  getIndent c = Some ind ->
  compiled_in_order (indent_incr c) (Nodes node) codes c1 ->
  GetAttr node "test" <> EmptyString ->
  ifHandler compileNode node c
  = Return (ind +:+ "if " +:+ GetAttr node "test" +:+ " then" +:+ nl
            +:+ block_lines codes +:+ ind +:+ "end") None c
  /\ elseifHandler compileNode node c
     = Return (ind +:+ "elseif " +:+ GetAttr node "test" +:+ " then" +:+ nl
               +:+ block_lines codes) None c
  /\ elseHandler compileNode node c
     = Return (ind +:+ "else" +:+ nl +:+ block_lines codes) None c.
Proof.
  intros Hreg Hind Hch Htest. apply is_empty_false in Htest.
  unfold ifHandler, elseifHandler, elseHandler. cbv zeta. rewrite Htest.
  split; [|split]; block_output Hreg Hind Hch.
Qed.

(** X15.  The loops and the function definition, when the children
    compile: the header, the non-empty outputs of the children each
    followed by a line feed, and the closing line ([end], or [until] and
    the condition) at the indent of the header; the compiler is left as
    it was. *)
Theorem loop_and_function_blocks_output (c : Compiler) (node : Node) (ind : string)
    (codes : list string) (c1 : Compiler) :
  registry_ok c ->
  getIndent c = Some ind ->
  compiled_in_order (indent_incr c) (Nodes node) codes c1 ->
  (GetAttr node "test" <> EmptyString ->
   whileHandler compileNode node c
   = Return (ind +:+ "while " +:+ GetAttr node "test" +:+ " do" +:+ nl
             +:+ block_lines codes +:+ ind +:+ "end") None c)
  /\ (GetAttr node "until" <> EmptyString ->
      repeatHandler compileNode node c
      = Return (ind +:+ "repeat" +:+ nl +:+ block_lines codes
                +:+ ind +:+ "until " +:+ GetAttr node "until") None c)
  /\ (IsValidIdentifier (GetAttr node "name") = true ->
      functionHandler compileNode node c
      = Return (ind +:+ local_prefix (GetBoolAttr node "local") +:+ "function "
                +:+ GetAttr node "name" +:+ "("
                +:+ GetAttrWithDefault node "params" EmptyString +:+ ")" +:+ nl
                +:+ block_lines codes +:+ ind +:+ "end") None c).
Proof.
  intros Hreg Hind Hch. split; [|split].
  - intros Htest. apply is_empty_false in Htest.
    unfold whileHandler. cbv zeta. rewrite Htest. block_output Hreg Hind Hch.
  - intros Huntil. apply is_empty_false in Huntil.
    unfold repeatHandler. cbv zeta. rewrite Huntil. block_output Hreg Hind Hch.
  - intros Hname. unfold functionHandler. cbv zeta. rewrite Hname.
    assert (Hne : strings.is_empty (GetAttr node "name") = false)
      by (destruct (GetAttr node "name"); [discriminate Hname | reflexivity]).
    rewrite Hne. simpl negb. cbv iota. block_output Hreg Hind Hch.
Qed.

End Blocks.

Lemma conditional_blocks_output_witness :
  compileNode (ext := demo_ext) NewCompiler if_else
  = Return ("if x then" +:+ nl +:+ "    break" +:+ nl
            +:+ "    else" +:+ nl +:+ "        break" +:+ nl +:+ nl +:+ "end")
      None NewCompiler.
Proof.
  refine (eq_trans
            (proj1 (conditional_blocks_output (ext := demo_ext) NewCompiler if_else
                      EmptyString
                      ["    break"; "    else" +:+ nl +:+ "        break" +:+ nl]
                      (indent_incr NewCompiler)
                      (builtin_only_registry_ok _ NewCompiler_builtin_only)
                      eq_refl _ ltac:(discriminate)))
            eq_refl).
  econstructor; [vm_compute; reflexivity|].
  econstructor; [vm_compute; reflexivity|].
  constructor.
Defined.

Lemma loop_and_function_blocks_output_witness :
  compileNode (ext := demo_ext) NewCompiler while_loop
  = Return ("while x do" +:+ nl +:+ "    break" +:+ nl +:+ "end") None NewCompiler.
Proof.
  refine (eq_trans
            (proj1 (loop_and_function_blocks_output (ext := demo_ext) NewCompiler while_loop
                      EmptyString [EmptyString; "    break"] (indent_incr NewCompiler)
                      (builtin_only_registry_ok _ NewCompiler_builtin_only)
                      eq_refl _) ltac:(discriminate))
            eq_refl).
  econstructor; [vm_compute; reflexivity|].
  econstructor; [vm_compute; reflexivity|].
  constructor.
Defined.

(** [call] and [array] *)

Lemma non_empty_trimmed_fixed l :
  Forall (fun s => strings.TrimSpace s = s) l ->
  JoinWithCommas (non_empty l) = strings.Join (non_empty l) ", ".
Proof.
  intros Hall. unfold JoinWithCommas. f_equal.
  induction Hall as [|s l Hs _ IH]; [reflexivity|].
  unfold non_empty in *. simpl.
  destruct (negb (strings.is_empty s)) eqn:Es; [|exact IH].
  simpl. rewrite Hs, Es. now rewrite IH.
Qed.

Lemma trimmed_fixed l : Forall (fun s => strings.TrimSpace s = s) (map strings.TrimSpace l).
Proof.
  induction l as [|s l IH]; simpl; constructor; [apply TrimSpace_idempotent | exact IH].
Qed.

Lemma child_values_filter name children :
  child_values name children
  = non_empty (map strings.TrimSpace (map Content (List.filter (named name) children))).
Proof.
  induction children as [|child rest IH]; [reflexivity|].
  simpl. unfold named at 1.
  destruct (String.eqb _ name); [|exact IH].
  unfold non_empty in *. simpl.
  destruct (negb (strings.is_empty _)); now rewrite IH.
Qed.

Lemma values_joined name node :
  JoinWithCommas
    (inline_value (strings.TrimSpace (Content node)) ++ child_values name (Nodes node))%list
  = strings.Join (values_of name node) ", ".
Proof.
  assert (E : (inline_value (strings.TrimSpace (Content node))
               ++ child_values name (Nodes node))%list = values_of name node).
  { rewrite child_values_filter. unfold values_of, inline_value, non_empty. simpl.
    destruct (negb (strings.is_empty _)); reflexivity. }
  rewrite E. unfold values_of. apply non_empty_trimmed_fixed, trimmed_fixed.
Qed.

Section Values.

Context {ext : External}.

(** X16.  The arguments of [call] and the items of [array] are the
    content of the element followed by the contents of its [arg] (resp.
    [item]) children in document order, each trimmed, the empty ones
    left out, joined by a comma and a space.  Children with another tag
    are not read and not compiled. *)
Theorem call_and_array_values (node : Node) (c : Compiler) (ind : string) :
  getIndent c = Some ind ->
  (GetAttr node "name" <> EmptyString ->
   callHandler node c
   = Return (ind +:+ GetAttr node "name" +:+ "("
             +:+ strings.Join (values_of "arg" node) ", " +:+ ")") None c)
  /\ (IsValidIdentifier (GetAttr node "var") = true ->
      arrayHandler node c
      = Return (ind +:+ local_prefix (GetBoolAttr node "local") +:+ GetAttr node "var"
                +:+ " = {" +:+ strings.Join (values_of "item" node) ", " +:+ "}") None c)
  /\ (GetAttr node "var" = EmptyString ->
      arrayHandler node c
      = Return ("{" +:+ strings.Join (values_of "item" node) ", " +:+ "}") None c).
Proof.
  intros Hind. split; [|split].
  - intros Hname. apply is_empty_false in Hname.
    unfold callHandler. cbv zeta. rewrite Hname, values_joined.
    unfold with_indent. now rewrite Hind.
  - intros Hvar. unfold arrayHandler. cbv zeta. rewrite Hvar, values_joined.
    assert (Hne : strings.is_empty (GetAttr node "var") = false)
      by (destruct (GetAttr node "var"); [discriminate Hvar | reflexivity]).
    rewrite Hne. simpl negb. cbv iota. unfold with_indent. now rewrite Hind.
  - intros Hvar. unfold arrayHandler. cbv zeta. rewrite Hvar, values_joined.
    reflexivity.
Qed.

End Values.

Lemma call_and_array_values_witness :
  callHandler (ext := demo_ext) call_args NewCompiler
  = Return "f(1, x, y)" None NewCompiler.
Proof.
  exact (proj1 (call_and_array_values (ext := demo_ext) call_args NewCompiler EmptyString
                  eq_refl) ltac:(discriminate)).
Defined.

(** [SplitParameters] *)

Lemma sp_flush_trimmed st :
  Forall trimmed_param (sp_result st) -> Forall trimmed_param (sp_flush st).
Proof.
  intros H. unfold sp_flush. cbv zeta.
  destruct (strings.is_empty _) eqn:E; simpl; [exact H|].
  apply Forall_app. split; [exact H|].
  constructor; [|constructor]. split.
  - now apply is_empty_false.
  - apply TrimSpace_idempotent.
Qed.

Lemma sp_step_trimmed a st :
  Forall trimmed_param (sp_result st) -> Forall trimmed_param (sp_result (sp_step a st)).
Proof.
  intros H. unfold sp_step.
  repeat match goal with
         | |- context [if ?b then _ else _] => destruct b
         end; simpl; auto using sp_flush_trimmed.
Qed.

Lemma sp_loop_trimmed params :
  forall skip st,
    Forall trimmed_param (sp_result st) ->
    Forall trimmed_param (sp_result (sp_loop skip params st)).
Proof.
  induction params as [|a r IH]; intros skip st H; [exact H|].
  cbn [sp_loop]. destruct skip as [|k]; [|now apply IH].
  destruct (_ <? _)%N; [apply IH, sp_step_trimmed, H|].
  destruct (utf8_width _); now apply IH.
Qed.

(** X17.  Every parameter that [SplitParameters] returns is non-empty
    and has no white space at its ends, whatever the input (quotes that
    are not closed, brackets that do not match, bytes that are not
    UTF-8). *)
Theorem SplitParameters_gives_trimmed_parameters (params : string) :
  Forall trimmed_param (SplitParameters params).
Proof.
  unfold SplitParameters. destruct (strings.is_empty params); [constructor|].
  apply sp_flush_trimmed, sp_loop_trimmed. constructor.
Qed.

Lemma plain_byte_step a st :
  plain_byte a = true ->
  (strings.code a <? 128)%N = true /\ sp_step a st = sp_write (sp_byte a) st.
Proof.
  unfold plain_byte, ascii_visible, sp_step. intros H.
  apply andb_prop in H as [H1 H2]. apply andb_prop in H1 as [H1 _].
  apply negb_true_iff in H2.
  apply orb_false_elim in H2 as [H2 Hc]. apply orb_false_elim in H2 as [H2 Hcl].
  apply orb_false_elim in H2 as [Hq Ho].
  now rewrite Hq, Ho, Hcl, Hc.
Qed.

Lemma sp_write_write x y st : sp_write y (sp_write x st) = sp_write (x +:+ y) st.
Proof. unfold sp_write. simpl. now rewrite append_assoc. Qed.

Lemma sp_write_empty st : sp_write EmptyString st = st.
Proof. destruct st. unfold sp_write. simpl. now rewrite append_nil_r. Qed.

Lemma sp_loop_plain x :
  all_bytes plain_byte x = true ->
  forall rest st, sp_loop 0 (x +:+ rest) st = sp_loop 0 rest (sp_write x st).
Proof.
  induction x as [|a x IH]; intros Hx rest st.
  - now rewrite sp_write_empty.
  - simpl in Hx. apply andb_prop in Hx as [Ha Hx].
    destruct (plain_byte_step a st Ha) as [Hlow Hstep].
    change (String a x +:+ rest) with (String a (x +:+ rest)).
    cbn [sp_loop]. rewrite Hlow, Hstep, (IH Hx), sp_write_write. reflexivity.
Qed.

Lemma plain_visible x : all_bytes plain_byte x = true -> all_bytes ascii_visible x = true.
Proof.
  induction x as [|a x IH]; [reflexivity|]. simpl. intros H.
  apply andb_prop in H as [Ha Hx]. rewrite (IH Hx).
  unfold plain_byte in Ha. apply andb_prop in Ha as [-> _]. reflexivity.
Qed.

Lemma visible_trimmed x :
  all_bytes ascii_visible x = true -> strings.TrimSpace x = x.
Proof.
  intros Hx. destruct x as [|a x]; [reflexivity|].
  pose proof Hx as Hrev. rewrite <- all_bytes_rev in Hrev.
  destruct (strings.rev (String a x)) as [|z w] eqn:Er.
  { apply (f_equal strings.rev) in Er. rewrite rev_involutive in Er. discriminate Er. }
  simpl in Hx, Hrev. apply andb_prop in Hx as [Ha _]. apply andb_prop in Hrev as [Hz _].
  apply (TrimSpace_visible_ends _ a z); auto.
  unfold last_byte. now rewrite Er.
Qed.

Lemma plain_trimmed x : plain x -> strings.TrimSpace x = x.
Proof. intros [_ Hx]. apply visible_trimmed, plain_visible, Hx. Qed.

Lemma JoinWithCommas_plain items :
  Forall plain items -> JoinWithCommas items = strings.Join items ", ".
Proof.
  intros Hall. unfold JoinWithCommas. f_equal.
  induction Hall as [|x l Hx _ IH]; [reflexivity|].
  simpl. rewrite (plain_trimmed x Hx), IH.
  destruct Hx as [Hne _]. now destruct x.
Qed.

Lemma sp_split_plain rest :
  Forall plain rest ->
  forall x acc pfx ch,
    plain x -> strings.TrimSpace (pfx +:+ x) = x ->
    sp_flush (sp_loop 0 (strings.Join (x :: rest) ", ")
                (mkSplitter acc pfx false ch 0))
    = (acc ++ x :: rest)%list.
Proof.
  induction 1 as [|y rest Hy _ IH]; intros x acc pfx ch Hx Hpfx.
  - unfold strings.Join. simpl String.concat.
    rewrite <- (append_nil_r x) at 1.
    rewrite (sp_loop_plain x (proj2 Hx)). simpl sp_loop.
    unfold sp_flush, sp_write. simpl. rewrite Hpfx.
    destruct Hx as [Hne _]. now destruct x.
  - unfold strings.Join in *.
    change (String.concat ", " (x :: y :: rest))
      with (x +:+ ", " +:+ String.concat ", " (y :: rest)).
    rewrite (sp_loop_plain x (proj2 Hx)).
    change (", " +:+ String.concat ", " (y :: rest))
      with (String "," (String " " (String.concat ", " (y :: rest)))).
    cbn [sp_loop]. change (strings.code "," <? 128)%N with true.
    change (strings.code " " <? 128)%N with true. cbv iota.
    change (sp_step " " (sp_step "," (sp_write x (mkSplitter acc pfx false ch 0))))
      with (mkSplitter (sp_flush (mkSplitter acc (pfx +:+ x) false ch 0))
              " " false ch 0).
    unfold sp_flush at 2. simpl sp_current. simpl sp_result. cbv zeta. rewrite Hpfx.
    assert (Hne : strings.is_empty x = false) by (destruct Hx as [Hne _]; now destruct x).
    rewrite Hne. simpl negb. cbv iota.
    rewrite (IH y (acc ++ [x])%list " " ch Hy).
    + now rewrite <- app_assoc.
    + change (strings.TrimSpace (" " +:+ y)) with (strings.TrimSpace y).
      now apply plain_trimmed.
Qed.

(** X18.  [SplitParameters] undoes [JoinWithCommas] on items that are
    non-empty strings of visible ASCII bytes other than commas, quotes
    and brackets (identifiers and numbers, for instance). *)
Theorem SplitParameters_inverts_JoinWithCommas (items : list string) :
  Forall plain items ->
  SplitParameters (JoinWithCommas items) = items.
Proof.
  intros Hall. rewrite (JoinWithCommas_plain items Hall).
  destruct Hall as [|x rest Hx Hrest]; [reflexivity|].
  unfold SplitParameters.
  assert (Hne : strings.is_empty (strings.Join (x :: rest) ", ") = false).
  { destruct Hx as [Hne _]. unfold strings.Join. destruct x; [congruence|].
    simpl. now destruct rest. }
  rewrite Hne.
  apply (sp_split_plain rest Hrest x [] EmptyString "000" Hx).
  now apply plain_trimmed.
Qed.

Lemma SplitParameters_inverts_JoinWithCommas_witness :
  SplitParameters (JoinWithCommas ["a"; "b2"; "c_d"]) = ["a"; "b2"; "c_d"].
Proof.
  apply (SplitParameters_inverts_JoinWithCommas ["a"; "b2"; "c_d"]).
  repeat constructor; discriminate.
Defined.

(** [GenerateVariableName] *)

Lemma strconv_Itoa_inj n m : strconv_Itoa n = strconv_Itoa m -> n = m.
Proof.
  unfold strconv_Itoa. intros H.
  assert (Hnn : forall z, Z.to_int z <> Decimal.Pos Decimal.Nil
                          /\ Z.to_int z <> Decimal.Neg Decimal.Nil).
  { intros [|p|p]; simpl; split; try discriminate;
      intros [= E]; now apply Unsigned.to_uint_nonnil in E. }
  apply (f_equal NilZero.int_of_string) in H.
  destruct (Hnn n) as [Hn1 Hn2]. destruct (Hnn m) as [Hm1 Hm2].
  rewrite !NilZero.isi in H by assumption.
  injection H as H. apply (f_equal Z.of_int) in H. now rewrite !DecimalZ.of_to in H.
Qed.

Lemma append_inj_l p s t : p +:+ s = p +:+ t -> s = t.
Proof. induction p as [|a p IH]; simpl; [auto|]. intros [= H]. auto. Qed.

Lemma digits_of_uint d : all_bytes is_digit (NilEmpty.string_of_uint d) = true.
Proof. induction d; simpl; auto. Qed.

Lemma digits_of_nonneg n :
  0 <= n ->
  strconv_Itoa n <> EmptyString /\ all_bytes is_digit (strconv_Itoa n) = true.
Proof.
  unfold strconv_Itoa. destruct n as [|p|p]; [split; [discriminate|reflexivity] | | lia].
  intros _. simpl. unfold NilZero.string_of_uint.
  pose proof (Unsigned.to_uint_nonnil p) as Hnn.
  destruct (Pos.to_uint p) eqn:E; try congruence;
    (split; [discriminate | rewrite <- E; rewrite <- E in Hnn]);
    apply digits_of_uint.
Qed.

Lemma digit_alnum s : all_bytes is_digit s = true -> all_bytes is_alnum_ s = true.
Proof.
  induction s as [|a s IH]; [reflexivity|]. simpl. intros H.
  apply andb_prop in H as [Ha Hs]. rewrite (IH Hs), andb_true_r.
  unfold is_digit in Ha. unfold is_alnum_. cbv zeta. rewrite Ha.
  now rewrite !orb_true_r.
Qed.

Lemma digit_not_letter s :
  s <> EmptyString -> all_bytes is_digit s = true -> all_bytes is_letter s = false.
Proof.
  destruct s as [|a s]; [congruence|]. intros _. simpl. intros H.
  apply andb_prop in H as [Ha _].
  unfold is_digit in Ha. apply andb_prop in Ha as [_ Ha]. apply N.leb_le in Ha.
  unfold is_letter. cbv zeta.
  destruct (97 <=? strings.code a)%N eqn:E1; [apply N.leb_le in E1; lia|].
  destruct (65 <=? strings.code a)%N eqn:E2; [apply N.leb_le in E2; lia|].
  reflexivity.
Qed.

Lemma keywords_are_letters : forallb (all_bytes is_letter) keywords = true.
Proof. reflexivity. Qed.

Lemma ends_with_digits_no_keyword p ds :
  ds <> EmptyString -> all_bytes is_digit ds = true ->
  existsb (String.eqb (p +:+ ds)) keywords = false.
Proof.
  intros Hne Hds.
  assert (Hl : all_bytes is_letter (p +:+ ds) = false).
  { rewrite all_bytes_app, (digit_not_letter ds Hne Hds). apply andb_false_r. }
  pose proof keywords_are_letters as Hk.
  induction keywords as [|k ks IH]; [reflexivity|].
  simpl in Hk. apply andb_prop in Hk as [Hk1 Hk2]. simpl.
  rewrite (IH Hk2), orb_false_r.
  destruct (String.eqb_spec (p +:+ ds) k) as [E|_]; [congruence | reflexivity].
Qed.

Lemma minus_not_alnum s t :
  all_bytes is_alnum_ (s +:+ String "-" t) = false.
Proof. rewrite all_bytes_app. simpl. apply andb_false_r. Qed.

Lemma negative_Itoa n : n < 0 -> exists t, strconv_Itoa n = String "-" t.
Proof.
  destruct n as [|p|p]; try lia. intros _. unfold strconv_Itoa. simpl. eauto.
Qed.

(** X19.  [GenerateVariableName] gives different names for different
    counters under one prefix.  With the empty prefix or one that is a
    valid identifier, the name is a valid identifier when the counter is
    not negative; with a negative counter it never is, because of the
    minus sign. *)
Theorem GenerateVariableName_names (prefix : string) (n m : Z) :
  (GenerateVariableName prefix n = GenerateVariableName prefix m -> n = m)
  /\ (prefix = EmptyString \/ IsValidIdentifier prefix = true ->
      0 <= n -> IsValidIdentifier (GenerateVariableName prefix n) = true)
  /\ (n < 0 -> IsValidIdentifier (GenerateVariableName prefix n) = false).
Proof.
  unfold GenerateVariableName. cbv zeta. split; [|split].
  - intros H. apply append_inj_l in H. now apply strconv_Itoa_inj.
  - intros Hp Hn.
    assert (Hv : IsValidIdentifier (if strings.is_empty prefix then "var" else prefix)
                 = true).
    { destruct Hp as [->|Hp]; [reflexivity|]. now destruct prefix. }
    destruct (digits_of_nonneg n Hn) as [Hne Hds].
    destruct (if strings.is_empty prefix then "var" else prefix) as [|a p];
      [discriminate Hv|].
    unfold IsValidIdentifier in *.
    change (String a p +:+ strconv_Itoa n) with (String a (p +:+ strconv_Itoa n)).
    cbv iota.
    destruct (negb (is_alpha_ a)); [discriminate Hv|].
    rewrite all_bytes_app, (digit_alnum _ Hds), andb_true_r.
    destruct (negb (all_bytes is_alnum_ p)); [discriminate Hv|].
    change (String a (p +:+ strconv_Itoa n)) with (String a p +:+ strconv_Itoa n).
    now rewrite (ends_with_digits_no_keyword (String a p) _ Hne Hds).
  - intros Hn. destruct (negative_Itoa n Hn) as [t ->].
    assert (Hq : exists a p, (if strings.is_empty prefix then "var" else prefix)
                             = String a p).
    { destruct prefix as [|a p]; simpl; eauto. }
    destruct Hq as (a & p & ->).
    unfold IsValidIdentifier.
    change (String a p +:+ String "-" t) with (String a (p +:+ String "-" t)).
    cbv iota. rewrite minus_not_alnum. simpl negb.
    now destruct (negb (is_alpha_ a)).
Qed.

Lemma GenerateVariableName_names_witness :
  IsValidIdentifier (GenerateVariableName "tmp" 12) = true
  /\ IsValidIdentifier (GenerateVariableName EmptyString (-3)) = false.
Proof.
  split.
  - apply (proj1 (proj2 (GenerateVariableName_names "tmp" 12 0))); [now right | lia].
  - apply (proj2 (proj2 (GenerateVariableName_names EmptyString (-3) 0))). lia.
Defined.

(** [TrimAndClean] *)

Lemma collapse_no_control b s : no_control_space (collapse_spaces b s) = true.
Proof.
  revert b. unfold no_control_space.
  induction s as [|a s IH]; intros b; [reflexivity|]. simpl.
  destruct (re_space a) eqn:E.
  - destruct b; [apply IH|]. simpl. apply IH.
  - simpl. rewrite E. simpl. apply IH.
Qed.

Lemma collapse_run_no_space s y : collapse_spaces true s <> String " " y.
Proof.
  induction s as [|a s IH]; simpl; [discriminate|].
  destruct (re_space a) eqn:E; [exact IH|].
  intros [= -> _]. discriminate E.
Qed.

Lemma collapse_single_spaced s : forall b, single_spaced (collapse_spaces b s).
Proof.
  unfold single_spaced.
  induction s as [|a s IH]; intros b x y; simpl.
  - destruct x; discriminate.
  - destruct (re_space a) eqn:E.
    + destruct b; [apply IH|].
      destruct x as [|c x]; simpl.
      * intros [= H]. now apply collapse_run_no_space in H.
      * intros [= _ H]. now apply IH in H.
    + destruct x as [|c x]; simpl.
      * intros [= -> _]. discriminate E.
      * intros [= _ H]. now apply IH in H.
Qed.

Lemma TrimSpace_substring s :
  exists pre post, s = pre +:+ strings.TrimSpace s +:+ post.
Proof.
  unfold strings.TrimSpace, strings.TrimRightSpace, strings.TrimLeftSpace.
  destruct (drop_while_suffix strings.space_rune s 0) as [pre Hpre].
  set (u := strings.drop_while strings.space_rune 0 s) in *.
  destruct (drop_while_suffix strings.space_rune_rev (strings.rev u) 0) as [post Hpost].
  exists pre, (strings.rev post).
  rewrite <- rev_app, <- Hpost, rev_involutive. exact Hpre.
Qed.

(** X20.  The result of [TrimAndClean] holds no tab, line feed, form
    feed or carriage return, no two adjacent spaces, and no white space
    at its ends. *)
Theorem TrimAndClean_is_clean (s : string) :
  no_control_space (TrimAndClean s) = true
  /\ single_spaced (TrimAndClean s)
  /\ strings.TrimSpace (TrimAndClean s) = TrimAndClean s.
Proof.
  unfold TrimAndClean. split; [|split].
  - apply TrimSpace_all_bytes, collapse_no_control.
  - intros x y H.
    destruct (TrimSpace_substring (collapse_spaces false s)) as (pre & post & E).
    rewrite H in E. apply (collapse_single_spaced s false (pre +:+ x) (y +:+ post)).
    rewrite E. now rewrite !append_assoc.
  - apply TrimSpace_idempotent.
Qed.
